(** * Address book assistant: a shallow embedding of [main.py]

    The development follows the source file top to bottom: the Python values
    the program manipulates (text, exceptions, calendar dates), the field
    classes [Name], [Phone] and [Birthday], the [Record] and [AddressBook]
    classes, the pickle based persistence, and the command handlers wrapped by
    [input_error].  The theorems come after all the definitions. *)

From Stdlib Require Import ZArith NArith List String Ascii Bool Lia.
From Stdlib Require Import DecimalString.
Import ListNotations.


(* ================================================================= *)
(** * Part I: definitions *)
(* ================================================================= *)

(** ** Python text

    A Python [str] is a sequence of Unicode code points; [len] counts code
    points.  The classification tables below are those of the Unicode
    character database (version 14.0, the one shipped with CPython 3.11):
    [str.isspace], [str.isdecimal] (which is also what [\d] matches in a
    [re] pattern over [str]) and [str.isdigit]. *)

Definition char := N.
Definition str := list char.

Definition lit (s : string) : str :=
  map N_of_ascii (list_ascii_of_string s).

Fixpoint str_eqb (a b : str) : bool :=
  match a, b with
  | [], [] => true
  | x :: a', y :: b' => N.eqb x y && str_eqb a' b'
  | _, _ => false
  end.

Definition in_ranges (table : list (N * N)) (c : char) : bool :=
  existsb (fun r => N.leb (fst r) c && N.leb c (snd r)) table.

Definition whitespace_ranges : list (N * N) :=
  [(9, 13); (28, 32); (133, 133); (160, 160);
   (5760, 5760); (8192, 8202); (8232, 8233); (8239, 8239);
   (8287, 8287); (12288, 12288)]%N.

Definition decimal_ranges : list (N * N) :=
  [(48, 57); (1632, 1641); (1776, 1785); (1984, 1993);
   (2406, 2415); (2534, 2543); (2662, 2671); (2790, 2799);
   (2918, 2927); (3046, 3055); (3174, 3183); (3302, 3311);
   (3430, 3439); (3558, 3567); (3664, 3673); (3792, 3801);
   (3872, 3881); (4160, 4169); (4240, 4249); (6112, 6121);
   (6160, 6169); (6470, 6479); (6608, 6617); (6784, 6793);
   (6800, 6809); (6992, 7001); (7088, 7097); (7232, 7241);
   (7248, 7257); (42528, 42537); (43216, 43225); (43264, 43273);
   (43472, 43481); (43504, 43513); (43600, 43609); (44016, 44025);
   (65296, 65305); (66720, 66729); (68912, 68921); (69734, 69743);
   (69872, 69881); (69942, 69951); (70096, 70105); (70384, 70393);
   (70736, 70745); (70864, 70873); (71248, 71257); (71360, 71369);
   (71472, 71481); (71904, 71913); (72016, 72025); (72784, 72793);
   (73040, 73049); (73120, 73129); (92768, 92777); (92864, 92873);
   (93008, 93017); (120782, 120831); (123200, 123209); (123632, 123641);
   (125264, 125273); (130032, 130041)]%N.

(** Characters with [Numeric_Type=Digit] that are not decimal digits
    (superscripts, subscripts, circled digits, ...). *)
Definition other_digit_ranges : list (N * N) :=
  [(178, 179); (185, 185); (4969, 4977); (6618, 6618);
   (8304, 8304); (8308, 8313); (8320, 8329); (9312, 9320);
   (9332, 9340); (9352, 9360); (9450, 9450); (9461, 9469);
   (9471, 9471); (10102, 10110); (10112, 10120); (10122, 10130);
   (68160, 68163); (69216, 69224); (69714, 69722); (127232, 127242)]%N.

Definition char_isspace (c : char) : bool := in_ranges whitespace_ranges c.
Definition char_isdecimal (c : char) : bool := in_ranges decimal_ranges c.
Definition char_isdigit (c : char) : bool :=
  char_isdecimal c || in_ranges other_digit_ranges c.

(** The ten characters [0] ... [9] of ASCII. *)
Definition ascii_digit (c : char) : bool := N.leb 48 c && N.leb c 57.

(** [str.isdigit()]: every character is a digit and there is at least one. *)
Definition isdigit (s : str) : bool :=
  match s with
  | [] => false
  | _ => forallb char_isdigit s
  end.

Fixpoint lstrip (s : str) : str :=
  match s with
  | c :: s' => if char_isspace c then lstrip s' else s
  | [] => []
  end.

Definition rstrip (s : str) : str := rev (lstrip (rev s)).

(** [str.strip()] with no argument. *)
Definition strip (s : str) : str := rstrip (lstrip s).

(** Truth value of a string: non-empty. *)
Definition truthy (s : str) : bool :=
  match s with [] => false | _ => true end.

(** The value of a decimal digit character: every run of the table counts
    0..9 from its first code point (the run of mathematical digits holds five
    such decades). *)
Definition decimal_value (c : char) : option Z :=
  match List.find (fun r => N.leb (fst r) c && N.leb c (snd r))
                  decimal_ranges with
  | Some r => Some (Z.of_N ((c - fst r) mod 10))
  | None => None
  end.

(** [int(s)] on the texts the date parser hands over: surrounding white
    space is ignored, and what remains must be a non-empty run of decimal
    digits. *)
Fixpoint digits_value (acc : Z) (s : str) : option Z :=
  match s with
  | [] => Some acc
  | c :: s' =>
      match decimal_value c with
      | Some v => digits_value (10 * acc + v) s'
      | None => None
      end
  end.

Definition int_of_str (s : str) : option Z :=
  match strip s with
  | [] => None
  | t => digits_value 0 t
  end.

(** Decimal rendering of a non-negative number, zero padded to [width]
    digits ([width] digits are produced; the callers keep the number below
    [10^width]). *)
Fixpoint zero_padded (width : nat) (n : Z) : str :=
  match width with
  | O => []
  | S w => zero_padded w (n / 10) ++ [(48 + Z.to_N (n mod 10))%N]
  end.

(** ** Exceptions and results *)

Inductive exn : Type :=
| ValueError (msg : str)
| KeyError
| IndexError
| OverflowError (msg : str)
| FileNotFoundError
| PermissionError
| IsADirectoryError
| EOFError
| UnpicklingError (msg : str).

Inductive outcome (A : Type) : Type :=
| Return (a : A)
| Raise (e : exn).

Arguments Return {A} a.
Arguments Raise {A} e.

Definition rbind {A B} (m : outcome A) (k : A -> outcome B) : outcome B :=
  match m with
  | Return a => k a
  | Raise e => Raise e
  end.

Declare Scope outcome_scope.
Delimit Scope outcome_scope with outcome.
Notation "x <- m ;; k" := (rbind m (fun x => k))
  (at level 61, m at next level, right associativity) : outcome_scope.

(** ** Calendar dates ([datetime.date])

    The calendar arithmetic is the one of CPython's [datetime] module
    ([_ymd2ord], [_ord2ymd] and friends); a date is its three fields, and
    the constructor checks them. *)

Definition MINYEAR : Z := 1.
Definition MAXYEAR : Z := 9999.
Definition _MAXORDINAL : Z := 3652059.

Definition _DAYS_IN_MONTH : list Z :=
  [-1; 31; 28; 31; 30; 31; 30; 31; 31; 30; 31; 30; 31]%Z.

Definition _DAYS_BEFORE_MONTH : list Z :=
  [-1; 0; 31; 59; 90; 120; 151; 181; 212; 243; 273; 304; 334]%Z.

Definition table_get (table : list Z) (i : Z) : Z :=
  nth (Z.to_nat i) table (-1)%Z.

Definition _is_leap (year : Z) : bool :=
  ((year mod 4 =? 0) && (negb (year mod 100 =? 0) || (year mod 400 =? 0)))%Z.

Definition _days_before_year (year : Z) : Z :=
  let y := (year - 1)%Z in
  (y * 365 + y / 4 - y / 100 + y / 400)%Z.

Definition _days_in_month (year month : Z) : Z :=
  if (month =? 2)%Z && _is_leap year then 29%Z
  else table_get _DAYS_IN_MONTH month.

Definition _days_before_month (year month : Z) : Z :=
  (table_get _DAYS_BEFORE_MONTH month
   + (if (2 <? month) && _is_leap year then 1 else 0))%Z.

Definition _ymd2ord (year month day : Z) : Z :=
  (_days_before_year year + _days_before_month year month + day)%Z.

Definition _DI400Y : Z := Eval cbv in _days_before_year 401.
Definition _DI100Y : Z := Eval cbv in _days_before_year 101.
Definition _DI4Y : Z := Eval cbv in _days_before_year 5.

Definition _ord2ymd (n0 : Z) : Z * Z * Z :=
  let n := (n0 - 1)%Z in
  let n400 := (n / _DI400Y)%Z in
  let n := (n mod _DI400Y)%Z in
  let year := (n400 * 400 + 1)%Z in
  let n100 := (n / _DI100Y)%Z in
  let n := (n mod _DI100Y)%Z in
  let n4 := (n / _DI4Y)%Z in
  let n := (n mod _DI4Y)%Z in
  let n1 := (n / 365)%Z in
  let n := (n mod 365)%Z in
  let year := (year + (n100 * 100 + n4 * 4 + n1))%Z in
  if (n1 =? 4)%Z || (n100 =? 4)%Z then ((year - 1)%Z, 12%Z, 31%Z)
  else
    let leapyear := (n1 =? 3)%Z && (negb (n4 =? 24)%Z || (n100 =? 3)%Z) in
    let month := Z.shiftr (n + 50) 5 in
    let preceding :=
      (table_get _DAYS_BEFORE_MONTH month
       + (if (2 <? month)%Z && leapyear then 1 else 0))%Z in
    if (n <? preceding)%Z then
      let month := (month - 1)%Z in
      let preceding :=
        (preceding
         - (table_get _DAYS_IN_MONTH month
            + (if (month =? 2)%Z && leapyear then 1 else 0)))%Z in
      (year, month, (n - preceding + 1)%Z)
    else (year, month, (n - preceding + 1)%Z).

Record date : Type := mkdate { year : Z; month : Z; day : Z }.

Definition repr_int (z : Z) : str :=
  lit (NilZero.string_of_int (Z.to_int z)).

(** [date(year, month, day)]: the constructor with its range checks. *)
Definition date_new (y m d : Z) : outcome date :=
  if (y <? MINYEAR)%Z || (MAXYEAR <? y)%Z then
    Raise (ValueError (lit "year " ++ repr_int y ++ lit " is out of range"))
  else if (m <? 1)%Z || (12 <? m)%Z then
    Raise (ValueError (lit "month must be in 1..12"))
  else if (d <? 1)%Z || (_days_in_month y m <? d)%Z then
    Raise (ValueError (lit "day is out of range for month"))
  else Return (mkdate y m d).

Definition toordinal (self : date) : Z :=
  _ymd2ord (year self) (month self) (day self).

Definition fromordinal (n : Z) : outcome date :=
  let '(y, m, d) := _ord2ymd n in date_new y m d.

(** [self + timedelta(days=days)]. *)
Definition date_add (self : date) (days : Z) : outcome date :=
  let o := (toordinal self + days)%Z in
  if (0 <? o)%Z && (o <=? _MAXORDINAL)%Z then fromordinal o
  else Raise (OverflowError (lit "date value out of range")).

(** Dates compare as the triples (year, month, day). *)
Definition date_cmp (x y : date) : comparison :=
  match (year x ?= year y)%Z with
  | Eq => match (month x ?= month y)%Z with
          | Eq => (day x ?= day y)%Z
          | c => c
          end
  | c => c
  end.

Definition date_lt (x y : date) : bool :=
  match date_cmp x y with Lt => true | _ => false end.

Definition date_le (x y : date) : bool :=
  match date_cmp x y with Gt => false | _ => true end.

(** Monday is 0 and Sunday is 6. *)
Definition weekday (self : date) : Z := ((toordinal self + 6) mod 7)%Z.

(** [strftime("%A")]: the full weekday name (C locale). *)
Definition day_names : list string :=
  ["Monday"; "Tuesday"; "Wednesday"; "Thursday"; "Friday"; "Saturday";
   "Sunday"]%string.

Definition strftime_A (self : date) : str :=
  lit (nth (Z.to_nat (weekday self)) day_names ""%string).

(** [strftime("%d.%m.%Y")].  CPython before 3.13 hands the format to the
    [strftime] of the C library, and the GNU C library writes [%d] and [%m]
    on two digits, zero padded, and [%Y] as the plain decimal number of the
    year, without padding: the year 999 is written [999], not [0999]. *)
Definition dot : char := 46%N.

Definition strftime_dmY (self : date) : str :=
  zero_padded 2 (day self) ++ [dot] ++ zero_padded 2 (month self)
  ++ [dot] ++ repr_int (year self).

(** The DD.MM.YYYY form of a date as the specification words it and as the
    comment and the message of [Birthday] name it: the day and the month on
    two digits and the year on four, all zero padded.  It is what the
    theorems compare [strftime_dmY] with. *)
Definition canonical_dmY (dt : date) : str :=
  zero_padded 2 (day dt) ++ [dot] ++ zero_padded 2 (month dt)
  ++ [dot] ++ zero_padded 4 (year dt).

(** ** [datetime.strptime(value, "%d.%m.%Y")]

    The library turns the format into the regular expression
    [(?P<d>3[0-1]|[1-2]\d|0[1-9]|[1-9]| [1-9])\.(?P<m>1[0-2]|0[1-9]|[1-9])\.(?P<Y>\d\d\d\d)],
    matches it at the start of the text with the usual backtracking
    priorities, refuses text left over after the match, converts the three
    groups with [int] and builds the date.  An alternative of a group is a
    sequence of character classes. *)

Definition cls := char -> bool.

Definition one (c : string) : cls := fun x => str_eqb [x] (lit c).
Definition between (lo hi : string) : cls :=
  fun x =>
    match lit lo, lit hi with
    | [l], [h] => N.leb l x && N.leb x h
    | _, _ => false
    end.

Definition re_d : list (list cls) :=
  [ [one "3"; between "0" "1"];
    [between "1" "2"; char_isdecimal];
    [one "0"; between "1" "9"];
    [between "1" "9"];
    [one " "; between "1" "9"] ].

Definition re_m : list (list cls) :=
  [ [one "1"; between "0" "2"];
    [one "0"; between "1" "9"];
    [between "1" "9"] ].

Definition re_Y : list (list cls) :=
  [ [char_isdecimal; char_isdecimal; char_isdecimal; char_isdecimal] ].

(** Matching one alternative at the start of [s]: the matched text and the
    rest. *)
Fixpoint match_seq (p : list cls) (s : str) : option (str * str) :=
  match p, s with
  | [], _ => Some ([], s)
  | k :: p', c :: s' =>
      if k c then
        match match_seq p' s' with
        | Some (m, rest) => Some (c :: m, rest)
        | None => None
        end
      else None
  | _ :: _, [] => None
  end.

(** All the ways a group matches at the start of [s], in the order the
    backtracking matcher tries them. *)
Definition match_group (alts : list (list cls)) (s : str) : list (str * str) :=
  flat_map (fun p => match match_seq p s with
                     | Some x => [x]
                     | None => []
                     end) alts.

Definition match_dot (s : str) : list str :=
  match s with
  | c :: s' => if N.eqb c dot then [s'] else []
  | [] => []
  end.

(** Every successful path of the expression on [s], in the order the
    matcher finds them: the three groups and the unmatched rest. *)
Definition format_regex_paths (s : str) : list (str * str * str * str) :=
  flat_map (fun dr =>
    flat_map (fun s1 =>
      flat_map (fun mr =>
        flat_map (fun s2 =>
          map (fun Yr => (fst dr, fst mr, fst Yr, snd Yr))
              (match_group re_Y s2))
          (match_dot (snd mr)))
        (match_group re_m s1))
      (match_dot (snd dr)))
    (match_group re_d s).

(** [format_regex.match(data_string)]: the first successful path. *)
Definition format_regex_match (s : str) : option (str * str * str * str) :=
  hd_error (format_regex_paths s).

(** The two messages of the parser quote the data; the quoting is rendered
    here without escapes. *)
Definition strptime_dmY (data_string : str) : outcome date :=
  match format_regex_match data_string with
  | None =>
      Raise (ValueError (lit "time data '" ++ data_string
                         ++ lit "' does not match format '%d.%m.%Y'"))
  | Some (d, m, Y, rest) =>
      match rest with
      | _ :: _ => Raise (ValueError (lit "unconverted data remains: " ++ rest))
      | [] =>
          match int_of_str Y, int_of_str m, int_of_str d with
          | Some y, Some mo, Some dy => date_new y mo dy
          | _, _, _ => Raise (ValueError (lit "invalid literal for int()"))
          end
      end
  end.

(** ** The field classes *)

Record Name : Type := mkName { Name_value : str }.
Record Phone : Type := mkPhone { Phone_value : str }.
Record Birthday : Type := mkBirthday { Birthday_value : str }.

Definition Name_init (value : str) : outcome Name :=
  let value := strip value in
  if negb (truthy value) then
    Raise (ValueError (lit "Name cannot be empty."))
  else Return (mkName value).

Definition Phone_init (value : str) : outcome Phone :=
  if negb (isdigit value) || negb (Nat.eqb (List.length value) 10) then
    Raise (ValueError (lit "Phone must contain 10 digits."))
  else Return (mkPhone value).

Definition Birthday_init (value : str) : outcome Birthday :=
  match strptime_dmY value with
  | Return dt => Return (mkBirthday (strftime_dmY dt))
  | Raise (ValueError _) =>
      Raise (ValueError (lit "Invalid date format. Use DD.MM.YYYY"))
  | Raise e => Raise e
  end.

Definition as_date (self : Birthday) : outcome date :=
  strptime_dmY (Birthday_value self).

(** ** The [Record] class

    A method that mutates [self] returns the record as the call leaves it.
    The three methods that can raise ([add_phone], [edit_phone],
    [add_birthday]) build the field object before they touch [self], so a
    raised exception leaves the record as it was.  Every entry of [phones]
    is a [Phone] object of its own ([add_phone] builds a new one each time),
    so that storing a value in one entry changes that entry alone. *)

Record Record_ : Type := mkRecord {
  name : Name;
  phones : list Phone;
  birthday : option Birthday
}.

Open Scope outcome_scope.

Definition Record_init (nm : str) : outcome Record_ :=
  n <- Name_init nm ;;
  Return (mkRecord n [] None).

Definition add_phone (self : Record_) (phone : str) : outcome Record_ :=
  p <- Phone_init phone ;;
  Return (mkRecord (name self) (phones self ++ [p]) (birthday self)).

(** The loop of [remove_phone]: the first phone whose value equals [phone]
    is taken out. *)
Fixpoint remove_loop (ps : list Phone) (phone : str) : option (list Phone) :=
  match ps with
  | [] => None
  | p :: ps' =>
      if str_eqb (Phone_value p) phone then Some ps'
      else option_map (cons p) (remove_loop ps' phone)
  end.

Definition remove_phone (self : Record_) (phone : str) : bool * Record_ :=
  match remove_loop (phones self) phone with
  | Some ps => (true, mkRecord (name self) ps (birthday self))
  | None => (false, self)
  end.

(** The loop of [edit_phone]: at the first phone whose value equals
    [old_phone] the new value is validated and stored in that phone object,
    and the loop is left; [None] is the loop running to its end. *)
Fixpoint edit_loop (ps : list Phone) (old_phone new_phone : str)
  : outcome (option (list Phone)) :=
  match ps with
  | [] => Return None
  | p :: ps' =>
      if str_eqb (Phone_value p) old_phone then
        q <- Phone_init new_phone ;;
        Return (Some (mkPhone (Phone_value q) :: ps'))
      else
        r <- edit_loop ps' old_phone new_phone ;;
        Return (option_map (cons p) r)
  end.

Definition edit_phone (self : Record_) (old_phone new_phone : str)
  : outcome (bool * Record_) :=
  r <- edit_loop (phones self) old_phone new_phone ;;
  match r with
  | Some ps => Return (true, mkRecord (name self) ps (birthday self))
  | None => Return (false, self)
  end.

Fixpoint find_loop (ps : list Phone) (phone : str) : option Phone :=
  match ps with
  | [] => None
  | p :: ps' => if str_eqb (Phone_value p) phone then Some p
                else find_loop ps' phone
  end.

Definition find_phone (self : Record_) (phone : str) : option Phone :=
  find_loop (phones self) phone.

Definition add_birthday_to (self : Record_) (birthday_text : str)
  : outcome Record_ :=
  b <- Birthday_init birthday_text ;;
  Return (mkRecord (name self) (phones self) (Some b)).

Fixpoint join (sep : str) (parts : list str) : str :=
  match parts with
  | [] => []
  | [p] => p
  | p :: rest => p ++ sep ++ join sep rest
  end.

Definition Record_str (self : Record_) : str :=
  let phones_text :=
    match phones self with
    | [] => lit "-"
    | ps => join (lit "; ") (map Phone_value ps)
    end in
  let bday :=
    match birthday self with
    | Some b => Birthday_value b
    | None => lit "-"
    end in
  lit "Contact name: " ++ Name_value (name self) ++ lit ", phones: "
  ++ phones_text ++ lit ", birthday: " ++ bday.

(** ** Dictionaries and the [AddressBook] class

    A Python [dict] keeps its keys in insertion order: assigning to a key
    that is present keeps the key's place, a new key goes to the end. *)

Definition dict (V : Type) : Type := list (str * V).

Fixpoint dict_get {V} (d : dict V) (key : str) : option V :=
  match d with
  | [] => None
  | (k, v) :: d' => if str_eqb k key then Some v else dict_get d' key
  end.

Fixpoint dict_set {V} (d : dict V) (key : str) (v : V) : dict V :=
  match d with
  | [] => [(key, v)]
  | (k, w) :: d' =>
      if str_eqb k key then (k, v) :: d' else (k, w) :: dict_set d' key v
  end.

Fixpoint dict_pop {V} (d : dict V) (key : str) : option V * dict V :=
  match d with
  | [] => (None, [])
  | (k, w) :: d' =>
      if str_eqb k key then (Some w, d')
      else let '(r, d'') := dict_pop d' key in (r, (k, w) :: d'')
  end.

Definition dict_keys {V} (d : dict V) : list str := map fst d.
Definition dict_values {V} (d : dict V) : list V := map snd d.

Record AddressBook : Type := mkAddressBook { data : dict Record_ }.

Definition AddressBook_new : AddressBook := mkAddressBook [].

Definition add_record (self : AddressBook) (record : Record_) : AddressBook :=
  mkAddressBook (dict_set (data self) (Name_value (name record)) record).

Definition find (self : AddressBook) (nm : str) : option Record_ :=
  dict_get (data self) nm.

Definition delete (self : AddressBook) (nm : str) : bool * AddressBook :=
  let '(r, d) := dict_pop (data self) nm in
  (match r with Some _ => true | None => false end, mkAddressBook d).

(** [result.setdefault(weekday, []).append(name)] *)
Definition setdefault_append (result : dict (list str)) (key v : str)
  : dict (list str) :=
  match dict_get result key with
  | Some l => dict_set result key (l ++ [v])
  | None => dict_set result key [v]
  end.

(** The body of the loop of [get_upcoming_birthdays] for one record. *)
Definition birthday_step (today end_day : date) (result : dict (list str))
  (record : Record_) : outcome (dict (list str)) :=
  match birthday record with
  | None => Return result
  | Some b =>
      bday <- as_date b ;;
      bday_this_year <- date_new (year today) (month bday) (day bday) ;;
      bday_this_year <-
        (if date_lt bday_this_year today
         then date_new (year today + 1) (month bday) (day bday)
         else Return bday_this_year) ;;
      if date_le today bday_this_year && date_lt bday_this_year end_day then
        congratulation_day <-
          (if (weekday bday_this_year =? 5)%Z then date_add bday_this_year 2
           else if (weekday bday_this_year =? 6)%Z
                then date_add bday_this_year 1
                else Return bday_this_year) ;;
        Return (setdefault_append result (strftime_A congratulation_day)
                                  (Name_value (name record)))
      else Return result
  end.

Fixpoint for_each {A S} (body : S -> A -> outcome S) (items : list A) (s : S)
  : outcome S :=
  match items with
  | [] => Return s
  | x :: rest => s' <- body s x ;; for_each body rest s'
  end.

(** [today] stands for [date.today()]. *)
Definition get_upcoming_birthdays (today : date) (self : AddressBook)
  : outcome (dict (list str)) :=
  end_day <- date_add today 7 ;;
  for_each (birthday_step today end_day) (dict_values (data self)) [].

(** ** Files and pickle

    A file system maps a path to what is there: nothing, a directory, or a
    regular file with its permissions and content.  [pickle] is a library
    the program only calls, so it stays a parameter: a pair of functions
    [dumps]/[loads] over the objects a state file can hold, with the two
    facts the program relies on stated apart ([pickle_laws]).  A small
    concrete pickler ([toy_pickler]) shows that the laws can be met. *)

Definition bytes : Type := list Byte.byte.

Inductive node : Type :=
| RegularFile (readable writable : bool) (content : bytes)
| Directory.

Definition filesystem : Type := dict node.

Inductive pyobject : Type :=
| ObjNone
| ObjStr (s : str)
| ObjDict (d : dict Record_)
| ObjAddressBook (book : AddressBook).

Class Pickler : Type := {
  dumps : pyobject -> bytes;
  loads : bytes -> outcome pyobject
}.

(** What [pickle] promises: an object that was dumped loads back as an equal
    object, and loading from an empty stream raises [EOFError]
    ("Ran out of input"). *)
Record pickle_laws (P : Pickler) : Prop := {
  loads_dumps : forall o, loads (dumps o) = Return o;
  loads_empty : loads [] = Raise EOFError
}.

(** [open(filename, "rb")] followed by reading the whole file. *)
Definition open_rb (fs : filesystem) (filename : str) : outcome bytes :=
  match dict_get fs filename with
  | None => Raise FileNotFoundError
  | Some Directory => Raise IsADirectoryError
  | Some (RegularFile r _ content) =>
      if r then Return content else Raise PermissionError
  end.

(** [open(filename, "wb")] followed by writing [content]: the file is
    created when absent and replaced when present. *)
Definition write_wb (fs : filesystem) (filename : str) (content : bytes)
  : outcome filesystem :=
  match dict_get fs filename with
  | None => Return (dict_set fs filename (RegularFile true true content))
  | Some Directory => Raise IsADirectoryError
  | Some (RegularFile r w _) =>
      if w then Return (dict_set fs filename (RegularFile r w content))
      else Raise PermissionError
  end.

Definition default_filename : str := lit "addressbook.pkl".

Definition save_data {P : Pickler} (book : AddressBook) (filename : str)
  (fs : filesystem) : outcome filesystem :=
  write_wb fs filename (dumps (ObjAddressBook book)).

(** [try: ... except FileNotFoundError: return AddressBook()] *)
Definition except_FileNotFoundError (body : outcome AddressBook)
  : outcome AddressBook :=
  match body with
  | Raise FileNotFoundError => Return AddressBook_new
  | other => other
  end.

Definition load_data {P : Pickler} (filename : str) (fs : filesystem)
  : outcome AddressBook :=
  except_FileNotFoundError
    (f <- open_rb fs filename ;;
     book <- loads f ;;
     match book with
     | ObjAddressBook b => Return b
     | _ => Return AddressBook_new
     end).

(** *** A concrete pickler

    Numbers are written in unary (that many [x01] bytes, then [x00]),
    sequences with their length first, an object with a tag byte first. *)

Definition decoder (A : Type) : Type := bytes -> option (A * bytes).

Definition enc_nat (n : nat) : bytes := repeat Byte.x01 n ++ [Byte.x00].

Fixpoint dec_nat (b : bytes) : option (nat * bytes) :=
  match b with
  | Byte.x00 :: r => Some (O, r)
  | Byte.x01 :: r =>
      match dec_nat r with
      | Some (n, r') => Some (S n, r')
      | None => None
      end
  | _ => None
  end.

Definition dec_map {A B} (f : A -> B) (dec : decoder A) : decoder B :=
  fun b => match dec b with
           | Some (x, r) => Some (f x, r)
           | None => None
           end.

Definition dec_pair {A B} (da : decoder A) (db : decoder B) : decoder (A * B) :=
  fun b => match da b with
           | Some (x, r) => dec_map (pair x) db r
           | None => None
           end.

Fixpoint dec_many {A} (dec : decoder A) (n : nat) (b : bytes)
  : option (list A * bytes) :=
  match n with
  | O => Some ([], b)
  | S n' => dec_map (fun p => fst p :: snd p) (dec_pair dec (dec_many dec n')) b
  end.

Definition enc_list {A} (enc : A -> bytes) (l : list A) : bytes :=
  enc_nat (List.length l) ++ flat_map enc l.

Definition dec_list {A} (dec : decoder A) : decoder (list A) :=
  fun b => match dec_nat b with
           | Some (n, r) => dec_many dec n r
           | None => None
           end.

Definition enc_option {A} (enc : A -> bytes) (o : option A) : bytes :=
  match o with
  | None => [Byte.x00]
  | Some x => Byte.x01 :: enc x
  end.

Definition dec_option {A} (dec : decoder A) : decoder (option A) :=
  fun b => match b with
           | Byte.x00 :: r => Some (None, r)
           | Byte.x01 :: r => dec_map Some dec r
           | _ => None
           end.

Definition enc_str (s : str) : bytes :=
  enc_list (fun c => enc_nat (N.to_nat c)) s.
Definition dec_str : decoder str := dec_list (dec_map N.of_nat dec_nat).

Definition enc_record (r : Record_) : bytes :=
  enc_str (Name_value (name r))
  ++ enc_list enc_str (map Phone_value (phones r))
  ++ enc_option enc_str (option_map Birthday_value (birthday r)).

Definition dec_record : decoder Record_ :=
  dec_map (fun t => mkRecord (mkName (fst t)) (map mkPhone (fst (snd t)))
                             (option_map mkBirthday (snd (snd t))))
          (dec_pair dec_str (dec_pair (dec_list dec_str) (dec_option dec_str))).

Definition enc_dict (d : dict Record_) : bytes :=
  enc_list (fun kv => enc_str (fst kv) ++ enc_record (snd kv)) d.

Definition dec_dict : decoder (dict Record_) :=
  dec_list (dec_pair dec_str dec_record).

Definition toy_dumps (o : pyobject) : bytes :=
  match o with
  | ObjNone => [Byte.x00]
  | ObjStr s => Byte.x01 :: enc_str s
  | ObjDict d => Byte.x02 :: enc_dict d
  | ObjAddressBook b => Byte.x03 :: enc_dict (data b)
  end.

Definition dec_object : decoder pyobject :=
  fun b => match b with
           | Byte.x00 :: r => Some (ObjNone, r)
           | Byte.x01 :: r => dec_map ObjStr dec_str r
           | Byte.x02 :: r => dec_map ObjDict dec_dict r
           | Byte.x03 :: r =>
               dec_map (fun d => ObjAddressBook (mkAddressBook d)) dec_dict r
           | _ => None
           end.

Definition toy_loads (b : bytes) : outcome pyobject :=
  match b with
  | [] => Raise EOFError
  | _ => match dec_object b with
         | Some (o, []) => Return o
         | _ => Raise (UnpicklingError (lit "invalid load key"))
         end
  end.

Definition toy_pickler : Pickler :=
  {| dumps := toy_dumps; loads := toy_loads |}.

(** ** The command handlers

    A handler receives the book object and may mutate it, also on a path that
    ends in an exception: a handler is a function from the book before the
    call to the outcome of the call and the book after it. *)

Definition M (A : Type) : Type := AddressBook -> outcome A * AddressBook.

Definition ret {A} (a : A) : M A := fun book => (Return a, book).
Definition raise {A} (e : exn) : M A := fun book => (Raise e, book).
Definition lift {A} (r : outcome A) : M A := fun book => (r, book).

Definition bind {A B} (m : M A) (k : A -> M B) : M B :=
  fun book =>
    match m book with
    | (Return a, book') => k a book'
    | (Raise e, book') => (Raise e, book')
    end.

Declare Scope handler_scope.
Delimit Scope handler_scope with handler.
Notation "x <- m ;; k" := (bind m (fun x => k))
  (at level 61, m at next level, right associativity) : handler_scope.
Notation "m ;;; k" := (bind m (fun _ => k))
  (at level 61, right associativity) : handler_scope.

(** A [Record] object lives in the book: the handlers obtain it from
    [book.find], or create it and put it in the book with [add_record]
    before they call a method on it.  A variable holding such an object is
    modelled by the key of the dictionary slot that holds it ([ref]), and a
    method call through the variable rewrites that slot, so that a mutation
    is seen by the book as in Python. *)
Definition ref : Type := str.

(** [book.find(name)], as a reference to the record found. *)
Definition book_find (nm : str) : M (option ref) :=
  fun book =>
    (Return (match find book nm with Some _ => Some nm | None => None end),
     book).

(** [book.add_record(record)] for a record just created; the result is the
    reference to it. *)
Definition book_add_record (record : Record_) : M ref :=
  fun book => (Return (Name_value (name record)), add_record book record).

(** Reading the object behind a reference. *)
Definition deref (r : ref) : M Record_ :=
  fun book =>
    match find book r with
    | Some record => (Return record, book)
    | None => (Raise KeyError, book)
    end.

(** A call of a mutating method on the object behind a reference (the
    reference is to a slot of the book, so [deref] finds it). *)
Definition call {A} (r : ref) (method : Record_ -> outcome (A * Record_))
  : M A :=
  fun book =>
    match deref r book with
    | (Return record, _) =>
        match method record with
        | Return (a, record') =>
            (Return a, mkAddressBook (dict_set (data book) r record'))
        | Raise e => (Raise e, book)
        end
    | (Raise e, _) => (Raise e, book)
    end.

Definition not_enough_values (expected got : nat) : exn :=
  ValueError (lit "not enough values to unpack (expected at least "
              ++ repr_int (Z.of_nat expected) ++ lit ", got "
              ++ repr_int (Z.of_nat got) ++ lit ")").

(** [a, *_ = args], [a, b, *_ = args] and [a, b, c, *_ = args] *)
Definition unpack1 (args : list str) : outcome str :=
  match args with
  | a :: _ => Return a
  | _ => Raise (not_enough_values 1 (List.length args))
  end.

Definition unpack2 (args : list str) : outcome (str * str) :=
  match args with
  | a :: b :: _ => Return (a, b)
  | _ => Raise (not_enough_values 2 (List.length args))
  end.

Definition unpack3 (args : list str) : outcome (str * str * str) :=
  match args with
  | a :: b :: c :: _ => Return (a, b, c)
  | _ => Raise (not_enough_values 3 (List.length args))
  end.

(** The decorator [input_error]: the three [except] clauses in their
    order; any other exception goes through. *)
Definition input_error (func : M str) : M str :=
  fun book =>
    match func book with
    | (Raise KeyError, book') => (Return (lit "Contact not found."), book')
    | (Raise (ValueError msg), book') =>
        (Return (if truthy msg then msg
                 else lit "Give me correct data please."), book')
    | (Raise IndexError, book') =>
        (Return (lit "Enter the argument for the command"), book')
    | other => other
    end.

Open Scope handler_scope.

Definition get_book : M AddressBook := fun book => (Return book, book).

(** A method that returns nothing, as a method with a unit result. *)
Definition mutating (method : Record_ -> outcome Record_)
  : Record_ -> outcome (unit * Record_) :=
  fun self => rbind (method self) (fun r => Return (tt, r)).

Definition add_contact_func (args : list str) : M str :=
  p <- lift (unpack2 args) ;;
  let '(name, phone) := p in
  record <- book_find name ;;
  rm <- match record with
        | None =>
            record <- lift (Record_init name) ;;
            record <- book_add_record record ;;
            ret (record, lit "Contact added.")
        | Some record => ret (record, lit "Contact updated.")
        end ;;
  let '(record, message) := rm in
  (if truthy phone
   then call record (mutating (fun self => add_phone self phone))
   else ret tt) ;;;
  ret message.

Definition add_contact (args : list str) : M str :=
  input_error (add_contact_func args).

Definition change_contact_func (args : list str) : M str :=
  p <- lift (unpack3 args) ;;
  let '(name, old_phone, new_phone) := p in
  record <- book_find name ;;
  match record with
  | None => raise KeyError
  | Some record =>
      edited <- call record (fun self => edit_phone self old_phone new_phone) ;;
      if edited : bool then ret (lit "Contact updated.")
      else ret (lit "Old phone not found.")
  end.

Definition change_contact (args : list str) : M str :=
  input_error (change_contact_func args).

Definition show_phone_func (args : list str) : M str :=
  name <- lift (unpack1 args) ;;
  record <- book_find name ;;
  match record with
  | None => raise KeyError
  | Some record =>
      r <- deref record ;;
      match phones r with
      | [] => ret (lit "No phones.")
      | ps => ret (join (lit "; ") (map Phone_value ps))
      end
  end.

Definition show_phone (args : list str) : M str :=
  input_error (show_phone_func args).

Definition newline : str := [10%N].

Definition show_all_func : M str :=
  book <- get_book ;;
  match data book with
  | [] => ret (lit "No contacts yet.")
  | d => ret (join newline (map Record_str (dict_values d)))
  end.

Definition show_all : M str := input_error show_all_func.

Definition add_birthday_func (args : list str) : M str :=
  p <- lift (unpack2 args) ;;
  let '(name, birthday_text) := p in
  record <- book_find name ;;
  record <- match record with
            | None =>
                record <- lift (Record_init name) ;;
                book_add_record record
            | Some record => ret record
            end ;;
  call record (mutating (fun self => add_birthday_to self birthday_text)) ;;;
  ret (lit "Birthday added.").

Definition add_birthday (args : list str) : M str :=
  input_error (add_birthday_func args).

Definition show_birthday_func (args : list str) : M str :=
  name <- lift (unpack1 args) ;;
  record <- book_find name ;;
  match record with
  | None => raise KeyError
  | Some record =>
      r <- deref record ;;
      match birthday r with
      | Some b => ret (Birthday_value b)
      | None => ret (lit "No birthday set.")
      end
  end.

Definition show_birthday (args : list str) : M str :=
  input_error (show_birthday_func args).

Definition days_order : list str := map lit day_names.

Definition birthdays_func (today : date) (args : list str) : M str :=
  book <- get_book ;;
  plan <- lift (get_upcoming_birthdays today book) ;;
  match plan with
  | [] => ret (lit "No birthdays next week.")
  | _ =>
      ret (join newline
             (flat_map
                (fun day =>
                   match dict_get plan day with
                   | Some names => [day ++ lit ": " ++ join (lit ", ") names]
                   | None => []
                   end)
                days_order))
  end.

Definition birthdays (today : date) (args : list str) : M str :=
  input_error (birthdays_func today args).

(** [s.split()]: the maximal runs of characters that are not white space;
    [word] is the run being read. *)
Fixpoint split_from (s : str) (word : str) : list str :=
  match s with
  | [] => match word with [] => [] | _ => [word] end
  | c :: s' =>
      if char_isspace c then
        match word with
        | [] => split_from s' []
        | _ => word :: split_from s' []
        end
      else split_from s' (word ++ [c])
  end.

Definition str_split (s : str) : list str := split_from s [].

(** [parse_input]; [lower] stands for [str.lower]. *)
Definition parse_input (lower : str -> str) (user_input : str)
  : outcome (str * list str) :=
  let user_input := strip user_input in
  if negb (truthy user_input) then Return ([], [])
  else
    match str_split user_input with
    | [] => Raise IndexError
    | part0 :: args => Return (lower part0, args)
    end.

(** The handlers that take positional arguments from the command line, with
    the number of arguments each one unpacks. *)
Inductive command : Type :=
| cmd_add | cmd_change | cmd_phone | cmd_add_birthday | cmd_show_birthday.

Definition handler (c : command) : list str -> M str :=
  match c with
  | cmd_add => add_contact
  | cmd_change => change_contact
  | cmd_phone => show_phone
  | cmd_add_birthday => add_birthday
  | cmd_show_birthday => show_birthday
  end.

Definition required (c : command) : nat :=
  match c with
  | cmd_add => 2
  | cmd_change => 3
  | cmd_phone => 1
  | cmd_add_birthday => 2
  | cmd_show_birthday => 1
  end.

Close Scope handler_scope.

(** ** Example data used by the concrete statements below *)

Definition phone_a : str := lit "1234567890".
Definition phone_b : str := lit "0987654321".

(** Ten ARABIC-INDIC digits (U+0661 ... U+0669, U+0660): no ASCII digit
    among them. *)
Definition arabic_indic_phone : str :=
  [1633; 1634; 1635; 1636; 1637; 1638; 1639; 1640; 1641; 1632]%N.

Definition empty_book : AddressBook := AddressBook_new.

Definition record_with_phones (nm : str) (ps : list str) : Record_ :=
  mkRecord (mkName nm) (map mkPhone ps) None.

(** The record [Record(nm)] builds for a name that needs no trimming. *)
Definition fresh_record (nm : str) : Record_ := mkRecord (mkName nm) [] None.


(** ** Vocabulary of the statements *)

(** A text that [Phone] accepts: ten characters, each a digit for
    [str.isdigit]. *)
Definition phone_text (v : str) : Prop :=
  List.length v = 10%nat /\ forall c, In c v -> char_isdigit c = true.

(** A name that [Name] keeps as it is: not empty and without white space at
    either end. *)
Definition plain_name (nm : str) : Prop := strip nm = nm /\ nm <> [].

(** A state file that exists, can be read, and holds no byte at all. *)
Definition fs_empty_file : filesystem :=
  [(default_filename, RegularFile true true [])].

(** A state file that exists and cannot be read. *)
Definition fs_unreadable_file : filesystem :=
  [(default_filename, RegularFile false true [])].

Definition book_of_two : AddressBook :=
  mkAddressBook
    [(lit "ann", mkRecord (mkName (lit "ann"))
                   [mkPhone phone_a; mkPhone phone_b]
                   (Some (mkBirthday (lit "01.06.1990"))));
     (lit "bob", fresh_record (lit "bob"))].

(** The texts of a group of the date expression: those that one of its
    alternatives matches from end to end. *)
Definition full_match (p : list cls) (t : str) : bool :=
  match match_seq p t with
  | Some (_, []) => true
  | _ => false
  end.

Definition group_text (alts : list (list cls)) (t : str) : bool :=
  existsb (fun p => full_match p t) alts.

(** [v] writes the date [dt] as day.month.year: a day text (one or two
    digits from [1] to [31], the pad [0] being optional and a single digit
    allowed a space before it), a dot, a month text (one or two digits from
    [1] to [12]), a dot, and four decimal digits for the year. *)
Definition date_text (v : str) (dt : date) : Prop :=
  exists D Mo Y,
    v = D ++ [dot] ++ Mo ++ [dot] ++ Y
    /\ group_text re_d D = true /\ int_of_str D = Some (day dt)
    /\ group_text re_m Mo = true /\ int_of_str Mo = Some (month dt)
    /\ group_text re_Y Y = true /\ int_of_str Y = Some (year dt).

(** A date of the calendar. *)
Definition real_date (dt : date) : Prop :=
  (MINYEAR <= year dt <= MAXYEAR)%Z /\ (1 <= month dt <= 12)%Z
  /\ (1 <= day dt <= _days_in_month (year dt) (month dt))%Z.

(** A number [n] is written canonically for a group when the zero padded
    rendering on [width] digits is a text of the group and reads back as
    [n]. *)
Definition canonical_for (alts : list (list cls)) (width : nat) (n : Z)
  : bool :=
  group_text alts (zero_padded width n)
  && match int_of_str (zero_padded width n) with
     | Some x => (x =? n)%Z
     | None => false
     end.

(** [P] holds of the [count] numbers from [z] on. *)
Fixpoint all_from (P : Z -> bool) (count : nat) (z : Z) : bool :=
  match count with
  | O => true
  | S c => P z && all_from P c (z + 1)%Z
  end.

(** [P] holds of every number from [lo] to [hi]. *)
Definition all_between (P : Z -> bool) (lo hi : Z) : bool :=
  all_from P (Z.to_nat (hi - lo + 1)) lo.

(** One day number of the first 400 years behaves: [_ord2ymd] gives a date
    of the calendar in the years 1..400 (in 1..399 for the numbers that the
    last cycle before [_MAXORDINAL] reaches), and [_ymd2ord] gives the
    number back. *)
Definition cycle_day_ok (n : Z) : bool :=
  let '(y, m, d) := _ord2ymd n in
  ((1 <=? y) && (y <=? 400) && (1 <=? m) && (m <=? 12) && (1 <=? d)
   && (d <=? _days_in_month y m) && (_ymd2ord y m d =? n)
   && ((145731 <? n) || (y <=? 399)))%Z.

(** *** Upcoming birthdays, in day numbers

    A date of the calendar has a day number ([toordinal]); the window, the
    weekend shift and the weekday are stated on day numbers. *)

(** The day number of the occurrence of the birthday (month [m], day [d])
    that counts for [today]: the one in the year of [today], or the one in
    the next year when that day is before [today]. *)
Definition occurrence (today : date) (m d : Z) : Z :=
  let this_year := _ymd2ord (year today) m d in
  if (this_year <? toordinal today)%Z then _ymd2ord (year today + 1) m d
  else this_year.

(** The half-open window of seven days that starts today. *)
Definition in_window (today : date) (o : Z) : bool :=
  ((toordinal today <=? o) && (o <? toordinal today + 7))%Z.

Definition weekday_of (o : Z) : Z := ((o + 6) mod 7)%Z.

(** Saturday moves two days forward and Sunday one day. *)
Definition congratulation (o : Z) : Z :=
  if (weekday_of o =? 5)%Z then (o + 2)%Z
  else if (weekday_of o =? 6)%Z then (o + 1)%Z
  else o.

Definition weekday_name (o : Z) : str :=
  lit (nth (Z.to_nat (weekday_of o)) day_names ""%string).

(** [nm] is in the list that [plan] holds under the key [w]. *)
Definition listed (plan : dict (list str)) (w nm : str) : Prop :=
  exists names, dict_get plan w = Some names /\ In nm names.

(** The record has a birthday whose occurrence falls in the window, and [w]
    names the weekday of that occurrence after the weekend shift. *)
Definition due (today : date) (record : Record_) (w : str) : Prop :=
  exists b bd,
    birthday record = Some b /\ as_date b = Return bd
    /\ in_window today (occurrence today (month bd) (day bd)) = true
    /\ w = weekday_name (congratulation (occurrence today (month bd) (day bd))).

(** The birthday of the record, if any, is a stored date other than the
    29th of February. *)
Definition no_leap_day (record : Record_) : Prop :=
  forall b, birthday record = Some b ->
    exists bd, as_date b = Return bd /\ ~ (month bd = 2 /\ day bd = 29)%Z.

(** A book where ann has her birthday on the first of June and bob on the
    29th of February. *)
Definition leap_day_book : AddressBook :=
  mkAddressBook
    [(lit "ann", mkRecord (mkName (lit "ann")) []
                   (Some (mkBirthday (lit "01.06.1990"))));
     (lit "bob", mkRecord (mkName (lit "bob")) []
                   (Some (mkBirthday (lit "29.02.2000"))))].

Definition weekend_book : AddressBook :=
  mkAddressBook
    [(lit "ann", mkRecord (mkName (lit "ann")) []
                   (Some (mkBirthday (lit "01.06.1990"))));
     (lit "bob", mkRecord (mkName (lit "bob")) [mkPhone phone_a]
                   (Some (mkBirthday (lit "03.06.1985"))));
     (lit "cy", mkRecord (mkName (lit "cy")) [] None);
     (lit "dan", mkRecord (mkName (lit "dan")) []
                   (Some (mkBirthday (lit "08.06.1970"))));
     (lit "eve", mkRecord (mkName (lit "eve")) []
                   (Some (mkBirthday (lit "31.05.1999"))))].

(** A decoder inverts an encoder when it reads back what was written and
    hands over the bytes that follow. *)
Definition inverts {A} (dec : decoder A) (enc : A -> bytes) : Prop :=
  forall x rest, dec (enc x ++ rest) = Some (x, rest).

(** The classes of an alternative accept the characters of a text one by
    one. *)
Definition accepts (p : list cls) (t : str) : Prop :=
  Forall2 (fun k c => k c = true) p t.

(** No class of the alternatives takes a dot. *)
Definition dotless (alts : list (list cls)) : bool :=
  forallb (forallb (fun k : cls => negb (k dot))) alts.

(** A non-empty text without white space. *)
Definition spaceless (t : str) : Prop :=
  t <> [] /\ forallb (fun c => negb (char_isspace c)) t = true.

(** ** The session ([help_text] and [main])

    [main] reads lines until [close] or [exit].  The lines that will be
    typed are given with the date at which each one is handled (what
    [date.today()] returns then); the model keeps what [print] writes, line
    by line, the file system the process leaves behind, and how the process
    ends: by the [break] of [close]/[exit], or by an exception that nothing
    catches ([input] raises [EOFError] when no line is left).  [lower], as
    in [parse_input], stands for [str.lower]. *)

Definition help_text : str :=
  join newline
    [lit "Available commands:";
     lit "  hello                         -> How can I help you?";
     lit "  add <name> <phone>            -> add new contact or phone to existing";
     lit "  change <name> <old> <new>     -> change phone for contact";
     lit "  phone <name>                  -> show phones of contact";
     lit "  all                           -> list all contacts";
     lit "  add-birthday <name> <date>    -> set birthday (DD.MM.VYYY)";
     lit "  show-birthday <name>          -> show birthday of contact";
     lit "  birthdays                     -> show birthdays for next week";
     lit "  help                          -> show this help";
     lit "  close | exit                  -> quit"].

Definition quote : str := [34%N].

Definition welcome : list str :=
  [lit "Welcome to the assistant bot!";
   lit "Type " ++ quote ++ lit "help" ++ quote ++ lit " to see commands."].

Definition is_command (command : str) (word : string) : bool :=
  str_eqb command (lit word).

(** What one turn of the loop leaves: the lines printed, the book, the file
    system, and whether the loop goes on. *)
Definition turn_result : Type := list str * AddressBook * filesystem * bool.

(** [print(handler(args, book))] *)
Definition print_result (r : outcome str * AddressBook) (fs : filesystem)
  : outcome turn_result :=
  match r with
  | (Return text, book) => Return ([text], book, fs, true)
  | (Raise e, _) => Raise e
  end.

(** The body of [while True]. *)
Definition turn {P : Pickler} (lower : str -> str) (user_input : str)
  (today : date) (book : AddressBook) (fs : filesystem)
  : outcome turn_result :=
  p <- parse_input lower user_input ;;
  let '(command, args) := p in
  if is_command command "close" || is_command command "exit" then
    fs' <- save_data book default_filename fs ;;
    Return ([lit "Good bye!"], book, fs', false)
  else if is_command command "hello" then
    Return ([lit "How can I help you?"], book, fs, true)
  else if is_command command "help" then
    Return ([help_text], book, fs, true)
  else if is_command command "add" then
    print_result (add_contact args book) fs
  else if is_command command "change" then
    print_result (change_contact args book) fs
  else if is_command command "phone" then
    print_result (show_phone args book) fs
  else if is_command command "all" then
    print_result (show_all book) fs
  else if is_command command "add-birthday" then
    print_result (add_birthday args book) fs
  else if is_command command "show-birthday" then
    print_result (show_birthday args book) fs
  else if is_command command "birthdays" then
    print_result (birthdays today args book) fs
  else if is_command command "" then
    Return ([], book, fs, true)
  else Return ([lit "Invalid command."], book, fs, true).

(** How a run ends: the lines printed, the file system left behind, and
    the book at the [break], or the exception that ended the process. *)
Definition run : Type := list str * filesystem * outcome AddressBook.

Definition printed (r : run) : list str := fst (fst r).
Definition fs_left (r : run) : filesystem := snd (fst r).
Definition ending (r : run) : outcome AddressBook := snd r.

Definition after_printing (lines : list str) (r : run) : run :=
  (lines ++ printed r, fs_left r, ending r).

Fixpoint main_loop {P : Pickler} (lower : str -> str)
  (inputs : list (str * date)) (book : AddressBook) (fs : filesystem) : run :=
  match inputs with
  | [] => ([], fs, Raise EOFError)
  | (user_input, today) :: rest =>
      match turn lower user_input today book fs with
      | Raise e => ([], fs, Raise e)
      | Return (lines, book', fs', go_on) =>
          if go_on : bool
          then after_printing lines (main_loop lower rest book' fs')
          else (lines, fs', Return book')
      end
  end.

Definition main {P : Pickler} (lower : str -> str)
  (inputs : list (str * date)) (fs : filesystem) : run :=
  match load_data default_filename fs with
  | Raise e => ([], fs, Raise e)
  | Return book => after_printing welcome (main_loop lower inputs book fs)
  end.

(** [str.lower] on the letters of ASCII, leaving every other character as it
    is: what [str.lower] does on a text of ASCII characters. *)
Definition ascii_lower (s : str) : str :=
  map (fun c => if N.leb 65 c && N.leb c 90 then (c + 32)%N else c) s.

(** ** Vocabulary of the further statements *)

(** A text of white space only (the empty text included). *)
Definition blank (s : str) : Prop := forallb char_isspace s = true.

(** The space character, and the line made of tokens with one space between
    them. *)
Definition space : str := [32%N].

(** Every handler of the dispatch table, with the way [main] calls it. *)
Inductive operation : Type :=
| op_add | op_change | op_phone | op_all | op_add_birthday
| op_show_birthday | op_birthdays.

Definition perform (today : date) (op : operation) (args : list str) : M str :=
  match op with
  | op_add => add_contact args
  | op_change => change_contact args
  | op_phone => show_phone args
  | op_all => show_all
  | op_add_birthday => add_birthday args
  | op_show_birthday => show_birthday args
  | op_birthdays => birthdays today args
  end.

(** The handlers that only read the book. *)
Definition reads_only (op : operation) : bool :=
  match op with
  | op_phone | op_all | op_show_birthday | op_birthdays => true
  | _ => false
  end.

(** A book as the handlers build it: distinct names, every record under its
    own name, the name being one that [Name] keeps, every phone a text that
    [Phone] accepts, and the birthday, if any, the text that [strftime]
    writes for a date of the calendar. *)
Definition phone_ok (p : Phone) : Prop := phone_text (Phone_value p).

Definition birthday_ok (b : Birthday) : Prop :=
  exists dt, real_date dt /\ Birthday_value b = strftime_dmY dt.

Definition fields_ok (r : Record_) : Prop :=
  Forall phone_ok (phones r)
  /\ forall b, birthday r = Some b -> birthday_ok b.

Definition record_ok (key : str) (r : Record_) : Prop :=
  Name_value (name r) = key /\ plain_name key /\ fields_ok r.

Definition book_ok (book : AddressBook) : Prop :=
  NoDup (dict_keys (data book))
  /\ forall key r, In (key, r) (data book) -> record_ok key r.

(** The record in a slot after a method call: the name is kept, and valid
    fields stay valid. *)
Definition touched (r r' : Record_) : Prop :=
  name r' = name r /\ (fields_ok r -> fields_ok r').

(** One write of a handler called for the name [nm]: a new record for the
    trimmed name is put in the book, or the record in the slot of the name
    (as given, or trimmed) is replaced by what a method made of it. *)
Inductive slot_write (nm : str) (book : AddressBook) : AddressBook -> Prop :=
| write_fresh :
    strip nm <> [] ->
    slot_write nm book (add_record book (fresh_record (strip nm)))
| write_update (key : str) (r r' : Record_) :
    key = nm \/ key = strip nm ->
    find book key = Some r -> touched r r' ->
    slot_write nm book (mkAddressBook (dict_set (data book) key r')).

(** What a handler called for [nm] does to the book: some writes, one after
    the other. *)
Inductive effect (nm : str) (book : AddressBook) : AddressBook -> Prop :=
| effect_none : effect nm book book
| effect_write (book1 book2 : AddressBook) :
    slot_write nm book book1 -> effect nm book1 book2 -> effect nm book book2.

(** The names of [book'] are those of [book], in the same order, with
    perhaps more names after them. *)
Definition keeps_names (book book' : AddressBook) : Prop :=
  exists more, dict_keys (data book') = dict_keys (data book) ++ more.

(** The first argument of a handler: the name it is called for. *)
Definition name_argument (args : list str) : str :=
  match args with
  | nm :: _ => nm
  | [] => []
  end.

(** The names a handler called for [nm] may add to those of [book]: none,
    or the trimmed [nm] when the book does not have it. *)
Definition added_names (nm : str) (book : AddressBook) (more : list str)
  : Prop :=
  more = [] \/ (more = [strip nm] /\ ~ In (strip nm) (dict_keys (data book))).

(** The exceptions that [input_error] turns into a message. *)
Definition caught (e : exn) : Prop :=
  e = KeyError \/ e = IndexError \/ exists msg, e = ValueError msg.

(** The weekday under which a record is due, if it is: the computable form
    of [due]. *)
Definition due_weekday (today : date) (record : Record_) : option str :=
  match birthday record with
  | None => None
  | Some b =>
      match as_date b with
      | Return bd =>
          let o := occurrence today (month bd) (day bd) in
          if in_window today o then Some (weekday_name (congratulation o))
          else None
      | Raise _ => None
      end
  end.

Definition due_on (today : date) (w : str) (record : Record_) : bool :=
  match due_weekday today record with
  | Some w' => str_eqb w' w
  | None => false
  end.

(** The names of the records due on the weekday [w], in the order of the
    records. *)
Definition due_names (today : date) (w : str) (records : list Record_)
  : list str :=
  map (fun r => Name_value (name r)) (filter (due_on today w) records).

(** The list under a key after more names were appended under it. *)
Definition appended (before : option (list str)) (more : list str)
  : option (list str) :=
  match before, more with
  | Some l, _ => Some (l ++ more)
  | None, [] => None
  | None, _ => Some more
  end.

Definition working_days : list str :=
  map lit ["Monday"; "Tuesday"; "Wednesday"; "Thursday"; "Friday"]%string.

(** The lines of the answer of [birthdays]: for each day of the week that
    has names, the day and the names. *)
Definition birthday_lines (today : date) (records : list Record_) : list str :=
  flat_map (fun day =>
              match due_names today day records with
              | [] => []
              | names => [day ++ lit ": " ++ join (lit ", ") names]
              end) days_order.
(* ================================================================= *)
(** * Part II: theorems *)
(* ================================================================= *)

(** ** Text and dictionaries *)

Lemma str_eqb_spec (a b : str) : reflect (a = b) (str_eqb a b).
Proof.
  revert b; induction a as [|x a IH]; intros [|y b]; simpl;
    try (constructor; congruence).
  destruct (N.eqb_spec x y) as [->|Hxy]; simpl.
  - destruct (IH b) as [->|Hab]; constructor; congruence.
  - constructor; congruence.
Qed.

Lemma str_eqb_refl (a : str) : str_eqb a a = true.
Proof. destruct (str_eqb_spec a a); congruence. Qed.

Lemma str_eqb_eq (a b : str) : str_eqb a b = true <-> a = b.
Proof. destruct (str_eqb_spec a b); split; congruence. Qed.

Lemma str_eqb_neq (a b : str) : str_eqb a b = false <-> a <> b.
Proof. destruct (str_eqb_spec a b); split; congruence. Qed.

Lemma dict_set_absent {V} (d : dict V) (k : str) (v : V) :
  dict_get d k = None -> dict_set d k v = d ++ [(k, v)].
Proof.
  induction d as [|[k' w] d IH]; simpl; intros H; [reflexivity|].
  destruct (str_eqb k' k); [discriminate|]. now rewrite IH.
Qed.

Lemma dict_get_last {V} (d : dict V) (k : str) (v : V) :
  dict_get d k = None -> dict_get (d ++ [(k, v)]) k = Some v.
Proof.
  induction d as [|[k' w] d IH]; simpl; intros H.
  - now rewrite str_eqb_refl.
  - destruct (str_eqb k' k); [discriminate|]. now apply IH.
Qed.

Lemma dict_set_last {V} (d : dict V) (k : str) (v v' : V) :
  dict_get d k = None -> dict_set (d ++ [(k, v)]) k v' = d ++ [(k, v')].
Proof.
  induction d as [|[k' w] d IH]; simpl; intros H.
  - now rewrite str_eqb_refl.
  - destruct (str_eqb k' k); [discriminate|]. now rewrite IH.
Qed.

(** ** Phone numbers *)

Lemma forallb_ascii_digit_isdigit (v : str) :
  forallb ascii_digit v = true -> forallb char_isdigit v = true.
Proof.
  rewrite !forallb_forall. intros H c Hc. specialize (H c Hc).
  unfold ascii_digit in H. unfold char_isdigit, char_isdecimal, in_ranges.
  simpl. rewrite H. reflexivity.
Qed.

Lemma phone_text_dec (v : str) :
  (Nat.eqb (List.length v) 10 && isdigit v = true) <-> phone_text v.
Proof.
  unfold phone_text, isdigit. rewrite andb_true_iff, Nat.eqb_eq.
  destruct v as [|c v]; [simpl; split; intros [H _]; discriminate|].
  rewrite forallb_forall. tauto.
Qed.

Lemma Phone_init_ok (v : str) :
  phone_text v -> Phone_init v = Return (mkPhone v).
Proof.
  intros T. apply phone_text_dec in T. apply andb_true_iff in T as [L D].
  unfold Phone_init. now rewrite L, D.
Qed.

Lemma Phone_init_bad (v : str) :
  ~ phone_text v ->
  Phone_init v = Raise (ValueError (lit "Phone must contain 10 digits.")).
Proof.
  intros T. unfold Phone_init.
  destruct (isdigit v) eqn:D, (Nat.eqb (List.length v) 10) eqn:L;
    try reflexivity.
  exfalso. apply T, phone_text_dec. now rewrite L, D.
Qed.

Lemma phone_text_decidable (v : str) : phone_text v \/ ~ phone_text v.
Proof.
  destruct (Nat.eqb (List.length v) 10 && isdigit v) eqn:B.
  - left. now apply phone_text_dec.
  - right. intros T. apply phone_text_dec in T. congruence.
Qed.

(** C2 (as amended).  [Phone(value)] succeeds, keeping the text unchanged,
    exactly when the text has 10 characters that [str.isdigit] accepts, and
    fails with the validation error for every other text.  The ASCII digits
    are among the accepted characters, so every text of 10 ASCII digits is a
    phone; they are not the only ones. *)
Theorem Phone_init_spec (v : str) :
  (Phone_init v = Return (mkPhone v) <-> phone_text v)
  /\ (Phone_init v = Raise (ValueError (lit "Phone must contain 10 digits."))
      <-> ~ phone_text v)
  /\ (List.length v = 10%nat /\ forallb ascii_digit v = true
      -> Phone_init v = Return (mkPhone v)).
Proof.
  destruct (phone_text_decidable v) as [T|T].
  - pose proof (Phone_init_ok v T) as E. rewrite E.
    split; [|split]; [split| split|]; try reflexivity; try easy.
  - pose proof (Phone_init_bad v T) as E. rewrite E.
    split; [|split]; [split| split|]; try reflexivity; try easy.
    intros [L A]. exfalso. apply T. split; [exact L|].
    apply forallb_ascii_digit_isdigit in A. now rewrite forallb_forall in A.
Qed.

(** C2 (as stated) fails: a text of ten Arabic-Indic digits holds no ASCII
    digit, and [Phone] accepts it. *)
Lemma Phone_init_accepts_non_ascii_digits :
  forallb ascii_digit arabic_indic_phone = false
  /\ existsb ascii_digit arabic_indic_phone = false
  /\ Phone_init arabic_indic_phone = Return (mkPhone arabic_indic_phone).
Proof. repeat split. Qed.

Lemma Phone_init_spec_witness :
  (List.length phone_a = 10%nat /\ forallb ascii_digit phone_a = true)
  /\ Phone_init phone_a = Return (mkPhone phone_a).
Proof.
  split; [split; reflexivity|].
  apply (Phone_init_spec phone_a). split; reflexivity.
Defined.

Lemma Phone_init_value (v : str) (p : Phone) :
  Phone_init v = Return p -> p = mkPhone v.
Proof.
  unfold Phone_init.
  destruct (negb (isdigit v) || negb (Nat.eqb (List.length v) 10));
    congruence.
Qed.

Lemma Phone_init_error (v : str) (e : exn) :
  Phone_init v = Raise e ->
  e = ValueError (lit "Phone must contain 10 digits.").
Proof.
  unfold Phone_init.
  destruct (negb (isdigit v) || negb (Nat.eqb (List.length v) 10));
    congruence.
Qed.

(** ** [Record.edit_phone] *)

Lemma edit_loop_no_match (ps : list Phone) (old_phone new_phone : str) :
  (forall p, In p ps -> Phone_value p <> old_phone) ->
  edit_loop ps old_phone new_phone = Return None.
Proof.
  induction ps as [|p ps IH]; simpl; intros H; [reflexivity|].
  destruct (str_eqb_spec (Phone_value p) old_phone) as [E|_].
  - exfalso. apply (H p); auto.
  - rewrite IH; [reflexivity|]. intros q Hq. apply H. now right.
Qed.

Lemma edit_loop_first_match (pre post : list Phone) (p : Phone)
  (old_phone new_phone : str) :
  (forall q, In q pre -> Phone_value q <> old_phone) ->
  Phone_value p = old_phone ->
  edit_loop (pre ++ p :: post) old_phone new_phone
  = rbind (Phone_init new_phone)
      (fun q => Return (Some (pre ++ mkPhone (Phone_value q) :: post))).
Proof.
  induction pre as [|a pre IH]; simpl; intros H E.
  - rewrite E, str_eqb_refl. reflexivity.
  - destruct (str_eqb_spec (Phone_value a) old_phone) as [Ea|_].
    + exfalso. apply (H a); auto.
    + rewrite IH; auto. destruct (Phone_init new_phone); reflexivity.
Qed.

(** C6 (as amended).  With no phone equal to [old_phone], [edit_phone]
    returns [False] and leaves the record as it was.  With a first phone equal
    to [old_phone] (after a prefix [pre] without one), a valid [new_phone]
    replaces that entry alone, the entries before and after staying in place
    and the length staying the same, and the call returns [True]; an invalid
    [new_phone] makes the call raise the validation error instead, and the
    record is not touched. *)
Theorem edit_phone_spec (self : Record_) (old_phone new_phone : str) :
  ((forall p, In p (phones self) -> Phone_value p <> old_phone) ->
   edit_phone self old_phone new_phone = Return (false, self))
  /\ (forall pre p post,
        phones self = pre ++ p :: post ->
        (forall q, In q pre -> Phone_value q <> old_phone) ->
        Phone_value p = old_phone ->
        (phone_text new_phone ->
         exists self',
           edit_phone self old_phone new_phone = Return (true, self')
           /\ phones self' = pre ++ mkPhone new_phone :: post
           /\ List.length (phones self') = List.length (phones self)
           /\ name self' = name self /\ birthday self' = birthday self)
        /\ (~ phone_text new_phone ->
            edit_phone self old_phone new_phone
            = Raise (ValueError (lit "Phone must contain 10 digits.")))).
Proof.
  split.
  - intros H. unfold edit_phone. rewrite edit_loop_no_match by exact H.
    reflexivity.
  - intros pre p post Hps Hpre Hp.
    unfold edit_phone. rewrite Hps, edit_loop_first_match by assumption.
    split; intros T.
    + apply Phone_init_ok in T. rewrite T. simpl. eexists.
      split; [reflexivity|].
      simpl. repeat split. rewrite !length_app. reflexivity.
    + apply Phone_init_bad in T. rewrite T. reflexivity.
Qed.

(** C6 (as stated) fails: the old phone is there, the new text is not a
    phone, and the call raises instead of returning success. *)
Lemma edit_phone_invalid_new_raises :
  let self := record_with_phones (lit "bob") [phone_a] in
  (exists p, In p (phones self) /\ Phone_value p = phone_a)
  /\ edit_phone self phone_a (lit "abc")
     = Raise (ValueError (lit "Phone must contain 10 digits.")).
Proof.
  split; [|reflexivity].
  exists (mkPhone phone_a). split; [left|]; reflexivity.
Qed.

Lemma edit_phone_spec_witness :
  let self := record_with_phones (lit "bob") [phone_b; phone_a; phone_a] in
  edit_phone self (lit "5555555555") phone_b = Return (false, self)
  /\ exists self',
       edit_phone self phone_a (lit "5555555555") = Return (true, self')
       /\ phones self'
          = map mkPhone [phone_b; lit "5555555555"; phone_a].
Proof.
  intros self.
  destruct (edit_phone_spec self (lit "5555555555") phone_b) as [H1 _].
  destruct (edit_phone_spec self phone_a (lit "5555555555")) as [_ H2].
  split.
  - apply H1. intros p [<-|[<-|[<-|[]]]]; discriminate.
  - destruct (H2 [mkPhone phone_b] (mkPhone phone_a) [mkPhone phone_a])
      as [H _].
    + reflexivity.
    + intros q [<-|[]]; discriminate.
    + reflexivity.
    + destruct H as (self' & E & Hp & _).
      * split; [reflexivity|]. intros c Hc.
        repeat (destruct Hc as [<-|Hc]; [reflexivity|]). destruct Hc.
      * exists self'. split; [exact E|exact Hp].
Defined.

(** ** The handlers [add] and [add-birthday] *)

Lemma Name_init_plain (nm : str) :
  plain_name nm -> Name_init nm = Return (mkName nm).
Proof.
  intros [S N]. unfold Name_init. rewrite S.
  destruct nm; [congruence|reflexivity].
Qed.

Lemma phone_text_truthy (v : str) : phone_text v -> truthy v = true.
Proof. intros [L _]. destruct v; [discriminate|reflexivity]. Qed.

Lemma truthy_nonempty (v : str) : v <> [] -> truthy v = true.
Proof. destruct v; [congruence|reflexivity]. Qed.

(** [add] on a name the book does not hold: the record is created and put
    in the book first, the phone is validated after. *)
Lemma add_contact_func_new (book : AddressBook) (nm phone : str) :
  find book nm = None -> plain_name nm ->
  add_contact_func [nm; phone] book
  = if truthy phone then
      match Phone_init phone with
      | Return p =>
          (Return (lit "Contact added."),
           mkAddressBook (data book ++ [(nm, mkRecord (mkName nm) [p] None)]))
      | Raise e =>
          (Raise e, mkAddressBook (data book ++ [(nm, fresh_record nm)]))
      end
    else (Return (lit "Contact added."),
          mkAddressBook (data book ++ [(nm, fresh_record nm)])).
Proof.
  intros F P. unfold find in F.
  unfold add_contact_func, bind, lift, book_find, find; simpl.
  rewrite F; simpl. unfold Record_init. rewrite (Name_init_plain nm P); simpl.
  unfold book_add_record, add_record, ret; simpl.
  rewrite dict_set_absent by exact F.
  destruct (truthy phone); [|reflexivity].
  unfold call, deref, find; simpl. rewrite dict_get_last by exact F.
  unfold mutating, add_phone; simpl.
  destruct (Phone_init phone); simpl; [|reflexivity].
  now rewrite dict_set_last by exact F.
Qed.

(** [add] on a name the book holds: the phone is appended to the record
    found. *)
Lemma add_contact_func_known (book : AddressBook) (nm phone : str)
  (r : Record_) :
  find book nm = Some r ->
  add_contact_func [nm; phone] book
  = if truthy phone then
      match Phone_init phone with
      | Return p =>
          (Return (lit "Contact updated."),
           mkAddressBook
             (dict_set (data book) nm
                (mkRecord (name r) (phones r ++ [p]) (birthday r))))
      | Raise e => (Raise e, book)
      end
    else (Return (lit "Contact updated."), book).
Proof.
  intros F.
  unfold add_contact_func, bind, lift, book_find; simpl.
  rewrite F; simpl.
  destruct (truthy phone); [|reflexivity].
  unfold call, deref. rewrite F. unfold mutating, add_phone; simpl.
  destruct (Phone_init phone); reflexivity.
Qed.

(** C7 (as amended).  For a name that [Name] keeps as it is (not empty, no
    white space at either end) and that the book does not hold, [add] with a
    valid phone appends exactly one record under that name, holding exactly
    that phone, and leaves the other records alone; [add] again with the
    same name and a valid phone appends the second phone to that record,
    after the first. *)
Theorem add_contact_twice (book : AddressBook) (nm phone1 phone2 : str) :
  find book nm = None -> plain_name nm ->
  phone_text phone1 -> phone_text phone2 ->
  let first := add_contact [nm; phone1] book in
  let second := add_contact [nm; phone2] (snd first) in
  fst first = Return (lit "Contact added.")
  /\ data (snd first) = data book ++ [(nm, record_with_phones nm [phone1])]
  /\ fst second = Return (lit "Contact updated.")
  /\ data (snd second)
     = data book ++ [(nm, record_with_phones nm [phone1; phone2])].
Proof.
  intros F P T1 T2.
  assert (E1 : add_contact [nm; phone1] book
               = (Return (lit "Contact added."),
                  mkAddressBook
                    (data book ++ [(nm, record_with_phones nm [phone1])]))).
  { unfold add_contact, input_error.
    now rewrite (add_contact_func_new _ _ _ F P), (phone_text_truthy _ T1),
      (Phone_init_ok _ T1). }
  cbv zeta. rewrite E1. simpl fst. simpl snd.
  split; [reflexivity|]. split; [reflexivity|].
  unfold add_contact, input_error.
  rewrite (add_contact_func_known _ _ _ (record_with_phones nm [phone1])).
  - rewrite (phone_text_truthy _ T2), (Phone_init_ok _ T2). simpl.
    split; [reflexivity|]. unfold find in F.
    now rewrite dict_set_last by exact F.
  - unfold find in *. simpl. now apply dict_get_last.
Qed.

Lemma add_contact_twice_witness :
  let first := add_contact [lit "bob"; phone_a] empty_book in
  let second := add_contact [lit "bob"; phone_b] (snd first) in
  fst first = Return (lit "Contact added.")
  /\ data (snd first) = [(lit "bob", record_with_phones (lit "bob") [phone_a])]
  /\ fst second = Return (lit "Contact updated.")
  /\ data (snd second)
     = [(lit "bob", record_with_phones (lit "bob") [phone_a; phone_b])].
Proof.
  apply (add_contact_twice empty_book (lit "bob") phone_a phone_b).
  - reflexivity.
  - split; [reflexivity|discriminate].
  - split; [reflexivity|].
    intros c Hc. repeat (destruct Hc as [<-|Hc]; [reflexivity|]). destruct Hc.
  - split; [reflexivity|].
    intros c Hc. repeat (destruct Hc as [<-|Hc]; [reflexivity|]). destruct Hc.
Defined.

(** C7 (as stated) fails for a name with white space around it: the record
    goes under the trimmed name, the given name stays unknown to the book,
    and the second [add] replaces the record instead of extending it. *)
Lemma add_contact_untrimmed_name :
  let nm := lit " bob" in
  let first := add_contact [nm; phone_a] empty_book in
  let second := add_contact [nm; phone_b] (snd first) in
  find empty_book nm = None
  /\ fst first = Return (lit "Contact added.")
  /\ find (snd first) nm = None
  /\ fst second = Return (lit "Contact added.")
  /\ data (snd second)
     = [(lit "bob", record_with_phones (lit "bob") [phone_b])].
Proof. repeat split. Qed.

Lemma date_new_error (y m d : Z) (e : exn) :
  date_new y m d = Raise e -> exists msg, e = ValueError msg.
Proof.
  unfold date_new.
  repeat match goal with
         | |- context [if ?b then _ else _] => destruct b
         end; intros H; inversion H; eexists; reflexivity.
Qed.

Lemma strptime_dmY_error (v : str) (e : exn) :
  strptime_dmY v = Raise e -> exists msg, e = ValueError msg.
Proof.
  unfold strptime_dmY.
  destruct (format_regex_match v) as [[[[d m] Y] rest]|].
  - destruct rest.
    + destruct (int_of_str Y), (int_of_str m), (int_of_str d);
        try (intros H; inversion H; eexists; reflexivity).
      apply date_new_error.
    + intros H; inversion H; eexists; reflexivity.
  - intros H; inversion H; eexists; reflexivity.
Qed.

(** [Birthday] has one way to fail. *)
Lemma Birthday_init_error (v : str) (e : exn) :
  Birthday_init v = Raise e ->
  e = ValueError (lit "Invalid date format. Use DD.MM.YYYY").
Proof.
  unfold Birthday_init. destruct (strptime_dmY v) as [dt|e'] eqn:E.
  - discriminate.
  - destruct (strptime_dmY_error _ _ E) as [msg ->]. congruence.
Qed.

Lemma Birthday_init_bad (v : str) :
  (forall b, Birthday_init v <> Return b) ->
  Birthday_init v
  = Raise (ValueError (lit "Invalid date format. Use DD.MM.YYYY")).
Proof.
  intros H. destruct (Birthday_init v) as [b|e] eqn:E.
  - now destruct (H b).
  - now rewrite (Birthday_init_error _ _ E).
Qed.

Lemma add_birthday_func_new (book : AddressBook) (nm text : str) :
  find book nm = None -> plain_name nm ->
  add_birthday_func [nm; text] book
  = match Birthday_init text with
    | Return b =>
        (Return (lit "Birthday added."),
         mkAddressBook (data book ++ [(nm, mkRecord (mkName nm) [] (Some b))]))
    | Raise e =>
        (Raise e, mkAddressBook (data book ++ [(nm, fresh_record nm)]))
    end.
Proof.
  intros F P. unfold find in F.
  unfold add_birthday_func, bind, lift, book_find, find; simpl.
  rewrite F; simpl. unfold Record_init. rewrite (Name_init_plain nm P); simpl.
  unfold book_add_record, add_record, ret; simpl.
  rewrite dict_set_absent by exact F.
  unfold call, deref, find; simpl. rewrite dict_get_last by exact F.
  unfold mutating, add_birthday_to; simpl.
  destruct (Birthday_init text); simpl; [|reflexivity].
  now rewrite dict_set_last by exact F.
Qed.

(** C10 (as amended).  For a name that [Name] keeps as it is and that the
    book does not hold: [add] with a non-empty text that is not a phone, and
    [add-birthday] with a text that is not a date, return the validation
    message and leave in the book a new record for that name with no phone
    and no birthday, after the records that were there. *)
Theorem failed_validation_leaves_record (book : AddressBook) (nm : str) :
  find book nm = None -> plain_name nm ->
  (forall phone, phone <> [] -> ~ phone_text phone ->
     add_contact [nm; phone] book
     = (Return (lit "Phone must contain 10 digits."),
        mkAddressBook (data book ++ [(nm, fresh_record nm)])))
  /\ (forall text, (forall b, Birthday_init text <> Return b) ->
        add_birthday [nm; text] book
        = (Return (lit "Invalid date format. Use DD.MM.YYYY"),
           mkAddressBook (data book ++ [(nm, fresh_record nm)]))).
Proof.
  intros F P. split.
  - intros phone N T. unfold add_contact, input_error.
    now rewrite (add_contact_func_new _ _ _ F P), (truthy_nonempty _ N),
      (Phone_init_bad _ T).
  - intros text T. unfold add_birthday, input_error.
    now rewrite (add_birthday_func_new _ _ _ F P), (Birthday_init_bad _ T).
Qed.

Lemma failed_validation_leaves_record_witness :
  add_contact [lit "bob"; lit "123"] empty_book
  = (Return (lit "Phone must contain 10 digits."),
     mkAddressBook [(lit "bob", fresh_record (lit "bob"))])
  /\ add_birthday [lit "bob"; lit "2020-02-01"] empty_book
     = (Return (lit "Invalid date format. Use DD.MM.YYYY"),
        mkAddressBook [(lit "bob", fresh_record (lit "bob"))]).
Proof.
  destruct (failed_validation_leaves_record empty_book (lit "bob")) as [A B].
  - reflexivity.
  - split; [reflexivity|discriminate].
  - split.
    + apply A; [discriminate|]. intros [L _]. discriminate.
    + apply B. intros b. discriminate.
Defined.

(** C10 (as stated) fails for the empty text: it is not a phone, yet [add]
    skips the phone and reports success. *)
Lemma add_contact_empty_phone :
  (forall p, Phone_init [] <> Return p)
  /\ find empty_book (lit "bob") = None
  /\ add_contact [lit "bob"; []] empty_book
     = (Return (lit "Contact added."),
        mkAddressBook [(lit "bob", fresh_record (lit "bob"))]).
Proof. split; [intros p; discriminate|split; reflexivity]. Qed.

(** ** Missing arguments *)

(** A handler called with fewer arguments than it unpacks never reaches the
    [IndexError] clause of the decorator: the unpacking raises [ValueError],
    and the answer is the unpacking message, with the book as it was. *)
Lemma missing_arguments_answer (c : command) (args : list str)
  (book : AddressBook) :
  (List.length args < required c)%nat ->
  exists msg,
    not_enough_values (required c) (List.length args) = ValueError msg
    /\ handler c args book = (Return msg, book)
    /\ msg <> lit "Enter the argument for the command"
    /\ msg <> lit "Enter the argument for the command.".
Proof.
  intros L.
  destruct c; simpl in L;
    repeat (destruct args as [|? args]; simpl in L; try lia);
    eexists; (split; [reflexivity|]); (split; [reflexivity|]);
    split; discriminate.
Qed.

(** C4.  The decorator has a clause for the missing argument
    ([except IndexError], which answers "Enter the argument for the
    command"), and the claim says that this text is what the user reads.
    The handlers miss the clause: [name, phone, *_ = args] raises
    [ValueError] on a list that is too short, not [IndexError], so that
    [add bob] is answered by the [ValueError] clause with the text of the
    unpacking error. *)
Theorem add_contact_missing_phone_message :
  add_contact [lit "bob"] empty_book
  = (Return (lit "not enough values to unpack (expected at least 2, got 1)"),
     empty_book)
  /\ lit "not enough values to unpack (expected at least 2, got 1)"
     <> lit "Enter the argument for the command."
  /\ input_error (raise IndexError) empty_book
     = (Return (lit "Enter the argument for the command"), empty_book).
Proof. split; [reflexivity|split; [discriminate|reflexivity]]. Qed.

(** ** Persistence *)

Lemma dec_nat_inverts : inverts dec_nat enc_nat.
Proof.
  intros n rest. unfold enc_nat. induction n as [|n IH]; simpl.
  - reflexivity.
  - now rewrite IH.
Qed.

Lemma dec_map_inverts {A B} (f : A -> B) (g : B -> A) dec enc :
  (forall b, f (g b) = b) -> inverts dec enc ->
  inverts (dec_map f dec) (fun b => enc (g b)).
Proof. intros fg H x rest. unfold dec_map. now rewrite H, fg. Qed.

Lemma dec_pair_inverts {A B} (da : decoder A) (db : decoder B) ea eb :
  inverts da ea -> inverts db eb ->
  inverts (dec_pair da db) (fun p => ea (fst p) ++ eb (snd p)).
Proof.
  intros Ha Hb [x y] rest. unfold dec_pair, dec_map. simpl.
  now rewrite <- app_assoc, Ha, Hb.
Qed.

Lemma dec_many_inverts {A} (dec : decoder A) enc (l : list A) rest :
  inverts dec enc ->
  dec_many dec (List.length l) (flat_map enc l ++ rest) = Some (l, rest).
Proof.
  intros H. induction l as [|x l IH]; simpl; [reflexivity|].
  unfold dec_map, dec_pair. rewrite <- app_assoc, H. unfold dec_map.
  now rewrite IH.
Qed.

Lemma dec_list_inverts {A} (dec : decoder A) enc :
  inverts dec enc -> inverts (dec_list dec) (enc_list enc).
Proof.
  intros H l rest. unfold dec_list, enc_list.
  rewrite <- app_assoc, dec_nat_inverts. now apply dec_many_inverts.
Qed.

Lemma dec_option_inverts {A} (dec : decoder A) enc :
  inverts dec enc -> inverts (dec_option dec) (enc_option enc).
Proof.
  intros H [x|] rest; simpl; [|reflexivity].
  unfold dec_map. now rewrite H.
Qed.

Lemma dec_str_inverts : inverts dec_str enc_str.
Proof.
  apply dec_list_inverts.
  apply (dec_map_inverts N.of_nat N.to_nat dec_nat enc_nat);
    [apply N2Nat.id | apply dec_nat_inverts].
Qed.

Lemma dec_record_inverts : inverts dec_record enc_record.
Proof.
  intros [[n] ps b] rest. unfold dec_record, enc_record, dec_map. simpl.
  pose proof (dec_pair_inverts _ _ _ _ dec_str_inverts
                (dec_pair_inverts _ _ _ _ (dec_list_inverts _ _ dec_str_inverts)
                   (dec_option_inverts _ _ dec_str_inverts))) as H.
  specialize (H (n, (map Phone_value ps, option_map Birthday_value b)) rest).
  simpl in H. rewrite <- !app_assoc in *. rewrite H. simpl.
  f_equal. f_equal. f_equal.
  - rewrite map_map. clear. induction ps as [|[v] ps IH]; simpl; congruence.
  - destruct b as [[v]|]; reflexivity.
Qed.

Lemma dec_dict_inverts : inverts dec_dict enc_dict.
Proof.
  intros d rest. unfold dec_dict, enc_dict.
  pose proof (dec_list_inverts _ _
                (dec_pair_inverts _ _ _ _ dec_str_inverts dec_record_inverts))
    as H.
  specialize (H d rest). simpl in H. exact H.
Qed.

Lemma toy_pickler_laws : pickle_laws toy_pickler.
Proof.
  split; [|reflexivity].
  intros o. simpl. unfold toy_loads.
  destruct o as [|s|d|[d]]; simpl; try reflexivity; unfold dec_map.
  - pose proof (dec_str_inverts s []) as H. rewrite app_nil_r in H.
    now rewrite H.
  - pose proof (dec_dict_inverts d []) as H. rewrite app_nil_r in H.
    now rewrite H.
  - pose proof (dec_dict_inverts d []) as H. rewrite app_nil_r in H.
    now rewrite H.
Qed.

Lemma dict_get_set_same {V} (d : dict V) (k : str) (v : V) :
  dict_get (dict_set d k v) k = Some v.
Proof.
  induction d as [|[k' w] d IH]; simpl.
  - now rewrite str_eqb_refl.
  - destruct (str_eqb k' k) eqn:E; simpl; now rewrite E.
Qed.

Lemma write_wb_content (fs fs' : filesystem) (filename : str)
  (content : bytes) :
  write_wb fs filename content = Return fs' ->
  exists r w, dict_get fs' filename = Some (RegularFile r w content).
Proof.
  unfold write_wb. destruct (dict_get fs filename) as [[r w c|]|].
  - destruct w; [|discriminate]. intros [= <-]. exists r, true.
    apply dict_get_set_same.
  - discriminate.
  - intros [= <-]. exists true, true. apply dict_get_set_same.
Qed.

(** C3 (as amended).  [load_data] returns a new empty book when the file
    is absent, and when the content of the file unpickles to an object that
    is not an [AddressBook]; no error surfaces in these two cases.  An error
    of opening a file that exists, or of unpickling its content, is not
    caught: [load_data] raises it. *)
Theorem load_data_fallback (P : Pickler) (filename : str) (fs : filesystem) :
  (dict_get fs filename = None -> load_data filename fs = Return AddressBook_new)
  /\ (forall content o,
        open_rb fs filename = Return content -> loads content = Return o ->
        (forall b, o <> ObjAddressBook b) ->
        load_data filename fs = Return AddressBook_new)
  /\ (forall content e,
        open_rb fs filename = Return content -> loads content = Raise e ->
        e <> FileNotFoundError -> load_data filename fs = Raise e)
  /\ (forall e,
        open_rb fs filename = Raise e -> e <> FileNotFoundError ->
        load_data filename fs = Raise e).
Proof.
  unfold load_data. repeat split.
  - intros A. unfold open_rb. now rewrite A.
  - intros content o O L N. rewrite O. simpl. rewrite L. simpl.
    destruct o; try reflexivity. now destruct (N book).
  - intros content e O L N. rewrite O. simpl. rewrite L. simpl.
    destruct e; congruence.
  - intros e O N. rewrite O. simpl. destruct e; congruence.
Qed.

Lemma load_data_fallback_witness :
  @load_data toy_pickler default_filename [] = Return AddressBook_new
  /\ @load_data toy_pickler default_filename
       [(default_filename, RegularFile true true [Byte.x00])]
     = Return AddressBook_new
  /\ @load_data toy_pickler default_filename fs_empty_file = Raise EOFError
  /\ @load_data toy_pickler default_filename fs_unreadable_file
     = Raise PermissionError.
Proof.
  split; [|split; [|split]].
  - apply (load_data_fallback toy_pickler default_filename []). reflexivity.
  - destruct (load_data_fallback toy_pickler default_filename
                [(default_filename, RegularFile true true [Byte.x00])])
      as (_ & H & _).
    apply (H [Byte.x00] ObjNone); [reflexivity|reflexivity|discriminate].
  - destruct (load_data_fallback toy_pickler default_filename fs_empty_file)
      as (_ & _ & H & _).
    apply (H [] EOFError); [reflexivity|reflexivity|discriminate].
  - destruct (load_data_fallback toy_pickler default_filename
                fs_unreadable_file) as (_ & _ & _ & H).
    apply (H PermissionError); [reflexivity|discriminate].
Defined.

(** C3 (as stated) fails: a state file that is there but empty cannot be
    unpickled (whatever the pickler, an empty stream raises [EOFError]), a
    state file without read permission cannot be opened, and in both cases
    [load_data] raises instead of returning an empty book. *)
Lemma load_data_surfaces_errors :
  pickle_laws toy_pickler
  /\ open_rb fs_empty_file default_filename = Return []
  /\ (forall o, @loads toy_pickler [] <> Return o)
  /\ @load_data toy_pickler default_filename fs_empty_file = Raise EOFError
  /\ @load_data toy_pickler default_filename fs_unreadable_file
     = Raise PermissionError.
Proof.
  split; [exact toy_pickler_laws|].
  split; [reflexivity|]. split; [intros o; discriminate|].
  split; reflexivity.
Qed.

(** C9.  A book saved to a file and loaded from that file (the file being
    one that can be opened for reading) comes back equal: the same names in
    the same number, and under each name the same record, hence the same
    phones in the same order and the same birthday. *)
Theorem save_then_load (P : Pickler) (book : AddressBook) (filename : str)
  (fs fs' : filesystem) :
  pickle_laws P ->
  save_data book filename fs = Return fs' ->
  (exists content, open_rb fs' filename = Return content) ->
  exists loaded,
    load_data filename fs' = Return loaded
    /\ dict_keys (data loaded) = dict_keys (data book)
    /\ List.length (data loaded) = List.length (data book)
    /\ (forall nm, find loaded nm = find book nm)
    /\ loaded = book.
Proof.
  intros [LD _] S [content O]. exists book.
  split; [|repeat split].
  unfold save_data in S. apply write_wb_content in S as (r & w & G).
  unfold load_data. unfold open_rb in *. rewrite G in *.
  destruct r; [|discriminate]. simpl. rewrite LD. reflexivity.
Qed.

Lemma save_then_load_witness :
  exists fs',
    @save_data toy_pickler book_of_two default_filename fs_empty_file
    = Return fs'
    /\ @load_data toy_pickler default_filename fs' = Return book_of_two.
Proof.
  eexists. split; [reflexivity|].
  destruct (save_then_load toy_pickler book_of_two default_filename
              fs_empty_file _ toy_pickler_laws eq_refl) as (loaded & L & _ & _ & _ & E).
  - eexists. reflexivity.
  - rewrite E in L. exact L.
Defined.

(** ** The date parser *)

Lemma match_seq_sound (p : list cls) (s t r : str) :
  match_seq p s = Some (t, r) -> s = t ++ r /\ accepts p t.
Proof.
  revert s t r. induction p as [|k p IH]; intros s t r; simpl.
  - intros [= <- <-]. split; [reflexivity|constructor].
  - destruct s as [|c s]; [discriminate|].
    destruct (k c) eqn:K; [|discriminate].
    destruct (match_seq p s) as [[m rest]|] eqn:E; [|discriminate].
    intros [= <- <-]. destruct (IH _ _ _ E) as [-> A].
    split; [reflexivity|]. now constructor.
Qed.

Lemma match_seq_complete (p : list cls) (t r : str) :
  accepts p t -> match_seq p (t ++ r) = Some (t, r).
Proof.
  induction 1 as [|k c p t K A IH]; simpl; [reflexivity|].
  now rewrite K, IH.
Qed.

Lemma full_match_accepts (p : list cls) (t : str) :
  full_match p t = true <-> accepts p t.
Proof.
  unfold full_match. split.
  - destruct (match_seq p t) as [[m [|]]|] eqn:E; try discriminate.
    intros _. apply match_seq_sound in E as [-> A].
    now rewrite app_nil_r.
  - intros A. pose proof (match_seq_complete p t [] A) as E.
    rewrite app_nil_r in E. now rewrite E.
Qed.

Lemma group_text_accepts (alts : list (list cls)) (t : str) :
  group_text alts t = true <-> exists p, In p alts /\ accepts p t.
Proof.
  unfold group_text. rewrite existsb_exists.
  split; intros (p & I & A); exists p; split; auto;
    now apply full_match_accepts.
Qed.

Lemma match_group_spec (alts : list (list cls)) (s t r : str) :
  In (t, r) (match_group alts s) <-> s = t ++ r /\ group_text alts t = true.
Proof.
  unfold match_group. rewrite in_flat_map, group_text_accepts. split.
  - intros (p & I & H). destruct (match_seq p s) as [[m rest]|] eqn:E.
    + destruct H as [[= -> ->]|[]]. apply match_seq_sound in E as [-> A].
      split; [reflexivity|]. now exists p.
    + destruct H.
  - intros (-> & p & I & A). exists p. split; [exact I|].
    rewrite (match_seq_complete p t r A). now left.
Qed.

Lemma match_dot_spec (s r : str) : In r (match_dot s) <-> s = dot :: r.
Proof.
  destruct s as [|c s]; simpl; [split; [tauto|discriminate]|].
  destruct (N.eqb_spec c dot) as [->|N]; simpl.
  - split; [intros [->|[]]; reflexivity|intros [= ->]; now left].
  - split; [tauto|congruence].
Qed.

(** The successful paths are the ways of cutting the text into a day text,
    a dot, a month text, a dot, a year text and a rest. *)
Lemma format_regex_paths_spec (s D Mo Y rest : str) :
  In (D, Mo, Y, rest) (format_regex_paths s)
  <-> s = D ++ [dot] ++ Mo ++ [dot] ++ Y ++ rest
      /\ group_text re_d D = true /\ group_text re_m Mo = true
      /\ group_text re_Y Y = true.
Proof.
  unfold format_regex_paths. rewrite in_flat_map. split.
  - intros ([d r1] & I1 & H). apply match_group_spec in I1 as [-> G1].
    apply in_flat_map in H as (s1 & I2 & H). apply match_dot_spec in I2.
    apply in_flat_map in H as ([m r2] & I3 & H).
    apply match_group_spec in I3 as [-> G2].
    apply in_flat_map in H as (s2 & I4 & H). apply match_dot_spec in I4.
    apply in_map_iff in H as ([y r3] & E & I5).
    apply match_group_spec in I5 as [-> G3].
    simpl in *. inversion E; subst. repeat split; auto.
  - intros (-> & G1 & G2 & G3).
    exists (D, [dot] ++ Mo ++ [dot] ++ Y ++ rest). split.
    { apply match_group_spec. now split. }
    apply in_flat_map. exists (Mo ++ [dot] ++ Y ++ rest). split.
    { now apply match_dot_spec. }
    apply in_flat_map. exists (Mo, [dot] ++ Y ++ rest). split.
    { apply match_group_spec. now split. }
    apply in_flat_map. exists (Y ++ rest). split.
    { now apply match_dot_spec. }
    apply in_map_iff. exists (Y, rest). split; [reflexivity|].
    apply match_group_spec. now split.
Qed.

Lemma accepts_dotless (p : list cls) (t : str) :
  forallb (fun k : cls => negb (k dot)) p = true -> accepts p t -> ~ In dot t.
Proof.
  intros F A. induction A as [|k c p t K A IH]; simpl in *; [tauto|].
  apply andb_true_iff in F as [Fk Fp]. intros [->|I].
  - rewrite K in Fk. discriminate.
  - now apply IH.
Qed.

Lemma group_text_dotless (alts : list (list cls)) (t : str) :
  dotless alts = true -> group_text alts t = true -> ~ In dot t.
Proof.
  intros F G. apply group_text_accepts in G as (p & I & A).
  unfold dotless in F. rewrite forallb_forall in F.
  exact (accepts_dotless p t (F p I) A).
Qed.

Lemma split_at_first_dot (t t' r r' : str) :
  ~ In dot t -> ~ In dot t' ->
  t ++ dot :: r = t' ++ dot :: r' -> t = t' /\ r = r'.
Proof.
  revert t'. induction t as [|c t IH]; intros [|c' t'] N N' E; simpl in *.
  - inversion E. auto.
  - inversion E; subst. tauto.
  - inversion E; subst. tauto.
  - inversion E; subst. destruct (IH t') as [-> ->]; auto.
Qed.

Lemma accepts_length (p : list cls) (t : str) :
  accepts p t -> List.length t = List.length p.
Proof. induction 1; simpl; congruence. Qed.

Lemma year_text_length (Y : str) :
  group_text re_Y Y = true -> List.length Y = 4%nat.
Proof.
  intros G. apply group_text_accepts in G as (p & [<-|[]] & A).
  now apply accepts_length in A.
Qed.

Lemma app_same_length {A} (a a' b b' : list A) :
  List.length a = List.length a' -> a ++ b = a' ++ b' -> a = a' /\ b = b'.
Proof.
  revert a'. induction a as [|x a IH]; intros [|x' a'] L E; simpl in *;
    try discriminate; [auto|].
  inversion E; subst. destruct (IH a') as [-> ->]; auto.
Qed.

Lemma format_regex_paths_unique (s : str) (x y : str * str * str * str) :
  In x (format_regex_paths s) -> In y (format_regex_paths s) -> x = y.
Proof.
  destruct x as [[[D Mo] Y] r], y as [[[D' Mo'] Y'] r'].
  rewrite !format_regex_paths_spec.
  intros (-> & Gd & Gm & Gy) (E & Gd' & Gm' & Gy'). simpl in E.
  apply split_at_first_dot in E as [<- E];
    try (apply (group_text_dotless re_d); [reflexivity|assumption]).
  apply split_at_first_dot in E as [<- E];
    try (apply (group_text_dotless re_m); [reflexivity|assumption]).
  apply app_same_length in E as [<- <-]; [reflexivity|].
  now rewrite !year_text_length.
Qed.

(** The first path is the only one: the matcher's choice is the cut of the
    text. *)
Lemma format_regex_match_spec (s D Mo Y rest : str) :
  format_regex_match s = Some (D, Mo, Y, rest)
  <-> s = D ++ [dot] ++ Mo ++ [dot] ++ Y ++ rest
      /\ group_text re_d D = true /\ group_text re_m Mo = true
      /\ group_text re_Y Y = true.
Proof.
  rewrite <- format_regex_paths_spec. unfold format_regex_match.
  destruct (format_regex_paths s) as [|h l] eqn:E; simpl.
  - split; [discriminate|tauto].
  - split.
    + intros [= ->]. now left.
    + intros I. f_equal. apply (format_regex_paths_unique s).
      * rewrite E. now left.
      * rewrite E. exact I.
Qed.

Lemma date_new_spec (y m d : Z) (dt : date) :
  date_new y m d = Return dt <-> dt = mkdate y m d /\ real_date dt.
Proof.
  unfold date_new, real_date, MINYEAR, MAXYEAR. split.
  - destruct (y <? 1)%Z eqn:Y1; simpl; [discriminate|].
    destruct (9999 <? y)%Z eqn:Y2; simpl; [discriminate|].
    destruct (m <? 1)%Z eqn:M1; simpl; [discriminate|].
    destruct (12 <? m)%Z eqn:M2; simpl; [discriminate|].
    destruct (d <? 1)%Z eqn:D1; simpl; [discriminate|].
    destruct (_days_in_month y m <? d)%Z eqn:D2; simpl; [discriminate|].
    intros [= <-]. simpl. split; [reflexivity|]. lia.
  - intros [-> (Y & M & D)]. simpl in *.
    destruct (y <? 1)%Z eqn:Y1; [lia|].
    destruct (9999 <? y)%Z eqn:Y2; [lia|].
    destruct (m <? 1)%Z eqn:M1; [lia|].
    destruct (12 <? m)%Z eqn:M2; [lia|].
    destruct (d <? 1)%Z eqn:D1; [lia|].
    destruct (_days_in_month y m <? d)%Z eqn:D2; [lia|]. reflexivity.
Qed.

(** What [strptime] accepts, and the date it returns. *)
Lemma strptime_dmY_spec (v : str) (dt : date) :
  strptime_dmY v = Return dt <-> date_text v dt /\ real_date dt.
Proof.
  unfold strptime_dmY, date_text. split.
  - destruct (format_regex_match v) as [[[[D Mo] Y] rest]|] eqn:E;
      [|discriminate].
    apply format_regex_match_spec in E as (-> & Gd & Gm & Gy).
    destruct rest; [|discriminate].
    destruct (int_of_str Y) as [y|] eqn:Iy; [|discriminate].
    destruct (int_of_str Mo) as [m|] eqn:Im; [|discriminate].
    destruct (int_of_str D) as [d|] eqn:Id; [|discriminate].
    intros H. apply date_new_spec in H as [-> R]. split; [|exact R].
    exists D, Mo, Y. rewrite app_nil_r. simpl. repeat split; assumption.
  - intros [(D & Mo & Y & -> & Gd & Id & Gm & Im & Gy & Iy) R].
    assert (E : format_regex_match (D ++ [dot] ++ Mo ++ [dot] ++ Y)
                = Some (D, Mo, Y, [])).
    { apply format_regex_match_spec. rewrite app_nil_r. repeat split; auto. }
    rewrite E, Iy, Im, Id. apply date_new_spec. split; [|exact R].
    now destruct dt.
Qed.

Lemma zero_padded_length (width : nat) (n : Z) :
  List.length (zero_padded width n) = width.
Proof.
  revert n. induction width as [|w IH]; intros n; simpl; [reflexivity|].
  rewrite length_app, IH. simpl. lia.
Qed.

Lemma canonical_dmY_length (dt : date) :
  List.length (canonical_dmY dt) = 10%nat.
Proof.
  unfold canonical_dmY. rewrite !length_app, !zero_padded_length. reflexivity.
Qed.

Lemma all_from_spec (P : Z -> bool) (count : nat) (lo z : Z) :
  all_from P count lo = true ->
  (lo <= z < lo + Z.of_nat count)%Z -> P z = true.
Proof.
  revert lo. induction count as [|c IH]; intros lo; simpl; [lia|].
  intros H B. apply andb_true_iff in H as [H0 H1].
  destruct (Z.eq_dec z lo) as [->|N]; [exact H0|].
  apply (IH (lo + 1)%Z H1). lia.
Qed.

Lemma all_between_spec (P : Z -> bool) (lo hi z : Z) :
  all_between P lo hi = true -> (lo <= z <= hi)%Z -> P z = true.
Proof.
  unfold all_between. intros H B. apply (all_from_spec _ _ _ _ H). lia.
Qed.

(** From the year 1000 on, the plain decimal number of a year has the four
    digits of the padded one. *)
Lemma four_digit_years :
  all_between (fun y => str_eqb (repr_int y) (zero_padded 4 y)) 1000 9999
  = true.
Proof. vm_cast_no_check (eq_refl true). Qed.

Lemma strftime_canonical (dt : date) :
  real_date dt -> (1000 <= year dt)%Z -> strftime_dmY dt = canonical_dmY dt.
Proof.
  intros (Y & _) L. unfold MAXYEAR in Y.
  unfold strftime_dmY, canonical_dmY. do 4 f_equal.
  apply (reflect_iff _ _ (str_eqb_spec _ _)).
  apply (all_between_spec _ 1000 9999 (year dt) four_digit_years). lia.
Qed.

(** C5 (as amended).  [Birthday(value)] succeeds exactly when the text is
    day.month.year with a day text, a month text and a four digit year that
    name a date of the calendar; the pad [0] of the day and of the month is
    optional.  When the year is 1000 or later, the stored value is the zero
    padded DD.MM.YYYY form of that date.  Every other text fails with the
    validation error, and only such a text does. *)
Theorem Birthday_init_spec (v : str) :
  ((exists b, Birthday_init v = Return b)
   <-> exists dt, date_text v dt /\ real_date dt)
  /\ (forall b dt,
        Birthday_init v = Return b -> date_text v dt -> real_date dt ->
        (1000 <= year dt)%Z -> b = mkBirthday (canonical_dmY dt))
  /\ (Birthday_init v
      = Raise (ValueError (lit "Invalid date format. Use DD.MM.YYYY"))
      <-> forall dt, ~ (date_text v dt /\ real_date dt)).
Proof.
  unfold Birthday_init. split; [split|split; [|split]].
  - intros [b H]. destruct (strptime_dmY v) as [dt|e] eqn:E.
    + exists dt. now apply strptime_dmY_spec.
    + destruct (strptime_dmY_error _ _ E) as [msg ->]. discriminate.
  - intros (dt & T & R).
    rewrite (proj2 (strptime_dmY_spec v dt) (conj T R)). now eexists.
  - intros b dt H T R L.
    rewrite (proj2 (strptime_dmY_spec v dt) (conj T R)) in H.
    injection H as <-. now rewrite (strftime_canonical dt R L).
  - destruct (strptime_dmY v) as [dt|e] eqn:E; [discriminate|].
    intros _ dt H. apply strptime_dmY_spec in H. congruence.
  - intros H. destruct (strptime_dmY v) as [dt|e] eqn:E.
    + apply strptime_dmY_spec in E. now destruct (H dt).
    + now destruct (strptime_dmY_error _ _ E) as [msg ->].
Qed.

Lemma Birthday_init_spec_witness :
  mkBirthday (lit "01.02.2020") = mkBirthday (canonical_dmY (mkdate 2020 2 1)).
Proof.
  apply (proj1 (proj2 (Birthday_init_spec (lit "1.2.2020")))).
  - reflexivity.
  - exists (lit "1"), (lit "2"), (lit "2020"). repeat split.
  - unfold real_date, MINYEAR, MAXYEAR. cbn [year month day].
    change (_days_in_month 2020 2) with 29%Z. lia.
  - cbn [year]. lia.
Defined.

(** C5 (as stated) fails: [1.2.2020] has neither a two digit day nor a two
    digit month (it is shorter than any DD.MM.YYYY text), and [Birthday]
    accepts it, storing [01.02.2020]. *)
Lemma Birthday_init_accepts_unpadded :
  List.length (lit "1.2.2020") = 8%nat
  /\ (forall dt, List.length (canonical_dmY dt) = 10%nat)
  /\ Birthday_init (lit "1.2.2020") = Return (mkBirthday (lit "01.02.2020")).
Proof.
  split; [reflexivity|]. split; [exact canonical_dmY_length|reflexivity].
Qed.

(** ** Rendering a date and reading it back *)

Lemma canonical_days : all_between (canonical_for re_d 2) 1 31 = true.
Proof. vm_cast_no_check (eq_refl true). Qed.

Lemma canonical_months : all_between (canonical_for re_m 2) 1 12 = true.
Proof. vm_cast_no_check (eq_refl true). Qed.

Lemma canonical_years : all_between (canonical_for re_Y 4) 1 9999 = true.
Proof. vm_cast_no_check (eq_refl true). Qed.

Lemma canonical_for_spec (alts : list (list cls)) (width : nat) (n : Z) :
  canonical_for alts width n = true ->
  group_text alts (zero_padded width n) = true
  /\ int_of_str (zero_padded width n) = Some n.
Proof.
  unfold canonical_for. intros H. apply andb_true_iff in H as [G I].
  split; [exact G|].
  destruct (int_of_str (zero_padded width n)) as [x|]; [|discriminate].
  apply Z.eqb_eq in I. now subst.
Qed.

Lemma days_in_month_le_31 (y m : Z) : (_days_in_month y m <= 31)%Z.
Proof.
  unfold _days_in_month, table_get, _DAYS_IN_MONTH.
  destruct ((m =? 2)%Z && _is_leap y); [lia|].
  destruct (Z.to_nat m) as [|[|[|[|[|[|[|[|[|[|[|[|[|[|k]]]]]]]]]]]]]]; simpl; lia.
Qed.

(** A date of the calendar, written as DD.MM.YYYY, is read back by the
    parser as the same date. *)
Lemma strptime_canonical (dt : date) :
  real_date dt -> strptime_dmY (canonical_dmY dt) = Return dt.
Proof.
  intros R. apply strptime_dmY_spec. split; [|exact R].
  destruct R as (Y & M & D). unfold MINYEAR, MAXYEAR in Y.
  pose proof (days_in_month_le_31 (year dt) (month dt)) as D31.
  destruct (canonical_for_spec re_d 2 (day dt)) as [Gd Id].
  { apply (all_between_spec _ 1 31); [exact canonical_days|lia]. }
  destruct (canonical_for_spec re_m 2 (month dt)) as [Gm Im].
  { apply (all_between_spec _ 1 12); [exact canonical_months|lia]. }
  destruct (canonical_for_spec re_Y 4 (year dt)) as [Gy Iy].
  { apply (all_between_spec _ 1 9999); [exact canonical_years|lia]. }
  exists (zero_padded 2 (day dt)), (zero_padded 2 (month dt)),
    (zero_padded 4 (year dt)).
  repeat split; assumption.
Qed.

(** What [strftime] writes for a date of the year 1000 or later is read
    back as that date. *)
Lemma strptime_strftime (dt : date) :
  real_date dt -> (1000 <= year dt)%Z ->
  strptime_dmY (strftime_dmY dt) = Return dt.
Proof.
  intros R L. rewrite (strftime_canonical dt R L).
  now apply strptime_canonical.
Qed.

(** For a birthday constructed from a date of the year 1000 or later, the
    stored text converts to that date ([as_date] succeeds), and the date
    rendered again is the stored text. *)
Lemma Birthday_round_trip (v : str) (b : Birthday) (dt : date) :
  Birthday_init v = Return b -> date_text v dt -> real_date dt ->
  (1000 <= year dt)%Z ->
  as_date b = Return dt /\ strftime_dmY dt = Birthday_value b.
Proof.
  unfold Birthday_init, as_date. intros H T R L.
  rewrite (proj2 (strptime_dmY_spec v dt) (conj T R)) in H.
  injection H as <-. simpl. split; [|reflexivity].
  now apply strptime_strftime.
Qed.

(** C8.  The claim says that the stored text of every constructed birthday
    converts to a date which, rendered again, is the stored text.  For a
    year before 1000 the code does otherwise: [Birthday("02.01.0999")]
    succeeds, the rendering writes the year without its padding and
    [02.01.999] is stored, a text that is not of the format DD.MM.YYYY which
    the class names; [as_date] then raises on the stored text, so there is
    no date to render. *)
Theorem Birthday_early_year_is_not_read_back :
  Birthday_init (lit "02.01.0999") = Return (mkBirthday (lit "02.01.999"))
  /\ as_date (mkBirthday (lit "02.01.999"))
     = Raise (ValueError
                (lit "time data '02.01.999' does not match format '%d.%m.%Y'"))
  /\ lit "02.01.999" <> canonical_dmY (mkdate 999 1 2).
Proof. split; [reflexivity|split; [reflexivity|discriminate]]. Qed.

(** ** The calendar *)

Lemma days_before_year_step (y : Z) :
  _days_before_year (y + 1)
  = (_days_before_year y + 365 + (if _is_leap y then 1 else 0))%Z.
Proof.
  unfold _days_before_year, _is_leap.
  replace (y + 1 - 1)%Z with y by lia.
  destruct (Z.eqb_spec (y mod 4) 0), (Z.eqb_spec (y mod 100) 0),
    (Z.eqb_spec (y mod 400) 0); simpl;
    Z.div_mod_to_equations; lia.
Qed.

Lemma days_before_year_mono (a b : Z) :
  (a <= b)%Z -> (_days_before_year a <= _days_before_year b)%Z.
Proof.
  intros H. unfold _days_before_year. Z.div_mod_to_equations. lia.
Qed.

Lemma days_before_year_cycle (y q : Z) :
  _days_before_year (y + 400 * q) = (_days_before_year y + _DI400Y * q)%Z.
Proof.
  unfold _days_before_year, _DI400Y. Z.div_mod_to_equations. lia.
Qed.

Lemma is_leap_cycle (y q : Z) : _is_leap (y + 400 * q) = _is_leap y.
Proof.
  unfold _is_leap.
  replace ((y + 400 * q) mod 4)%Z with (y mod 4)%Z
    by (Z.div_mod_to_equations; lia).
  replace ((y + 400 * q) mod 100)%Z with (y mod 100)%Z
    by (Z.div_mod_to_equations; lia).
  replace ((y + 400 * q) mod 400)%Z with (y mod 400)%Z
    by (Z.div_mod_to_equations; lia).
  reflexivity.
Qed.

Lemma ymd2ord_cycle (y m d q : Z) :
  _ymd2ord (y + 400 * q) m d = (_ymd2ord y m d + _DI400Y * q)%Z.
Proof.
  unfold _ymd2ord, _days_before_month.
  rewrite days_before_year_cycle, is_leap_cycle. lia.
Qed.

Lemma days_in_month_cycle (y m q : Z) :
  _days_in_month (y + 400 * q) m = _days_in_month y m.
Proof. unfold _days_in_month. now rewrite is_leap_cycle. Qed.

(** [_ord2ymd] works within the 400 year cycle of the day and adds the
    cycles back to the year. *)
Lemma ord2ymd_cycle (n : Z) :
  _ord2ymd n
  = (let '(y, m, d) := _ord2ymd ((n - 1) mod _DI400Y + 1) in
     (y + 400 * ((n - 1) / _DI400Y), m, d))%Z.
Proof.
  unfold _ord2ymd. cbv zeta.
  set (q := ((n - 1) / _DI400Y)%Z). set (r := ((n - 1) mod _DI400Y)%Z).
  assert (R : (0 <= r < _DI400Y)%Z) by (apply Z.mod_pos_bound; reflexivity).
  replace (r + 1 - 1)%Z with r by lia.
  rewrite (Z.div_small r _DI400Y), (Z.mod_small r _DI400Y) by exact R.
  repeat match goal with
         | |- context [if ?b then _ else _] => destruct b
         end; f_equal; try f_equal; lia.
Qed.

Lemma first_cycle_days : all_between cycle_day_ok 1 _DI400Y = true.
Proof. vm_cast_no_check (eq_refl true). Qed.

(** Every day number from 1 to [_MAXORDINAL] is the number of one date of
    the calendar, which [fromordinal] returns. *)
Lemma fromordinal_spec (n : Z) :
  (1 <= n <= _MAXORDINAL)%Z ->
  exists dt, fromordinal n = Return dt /\ real_date dt /\ toordinal dt = n.
Proof.
  intros B. unfold fromordinal. rewrite ord2ymd_cycle.
  pose proof (Z.div_mod (n - 1) _DI400Y ltac:(discriminate)) as DM.
  pose proof (Z.mod_pos_bound (n - 1) _DI400Y ltac:(reflexivity)) as RB.
  set (q := ((n - 1) / _DI400Y)%Z) in *.
  set (r := ((n - 1) mod _DI400Y)%Z) in *.
  pose proof (all_between_spec _ _ _ (r + 1)%Z first_cycle_days
                ltac:(lia)) as OK.
  unfold cycle_day_ok in OK.
  destruct (_ord2ymd (r + 1)) as [[y m] d].
  repeat (apply andb_true_iff in OK as [OK ?]).
  unfold _MAXORDINAL, _DI400Y in *.
  assert (Y : (y <= 399 \/ r + 1 > 145731)%Z).
  { match goal with H : (_ || _) = true |- _ =>
      apply orb_true_iff in H as [H|H]; lia end. }
  assert (R : real_date (mkdate (y + 400 * q) m d)).
  { unfold real_date, MINYEAR, MAXYEAR. cbn [year month day].
    rewrite days_in_month_cycle. lia. }
  exists (mkdate (y + 400 * q) m d). split; [|split; [exact R|]].
  - now apply date_new_spec.
  - unfold toordinal. cbn [year month day]. rewrite ymd2ord_cycle.
    unfold _DI400Y. lia.
Qed.

Ltac each_month m :=
  let H := fresh in
  assert (H : (m = 1 \/ m = 2 \/ m = 3 \/ m = 4 \/ m = 5 \/ m = 6 \/ m = 7
               \/ m = 8 \/ m = 9 \/ m = 10 \/ m = 11 \/ m = 12)%Z) by lia;
  repeat (destruct H as [H|H]); subst m.

Ltac month_tables :=
  repeat match goal with
         | |- context [table_get ?T ?k] =>
             let v := eval vm_compute in (table_get T k) in
             change (table_get T k) with v
         | |- context [Z.eqb ?a ?b] =>
             let v := eval vm_compute in (Z.eqb a b) in
             change (Z.eqb a b) with v
         | |- context [Z.ltb ?a ?b] =>
             let v := eval vm_compute in (Z.ltb a b) in
             change (Z.ltb a b) with v
         end;
  cbn [andb].

Lemma day_of_year_bounds (y m d : Z) :
  (1 <= m <= 12)%Z -> (1 <= d <= _days_in_month y m)%Z ->
  (1 <= _days_before_month y m + d
   <= 365 + (if _is_leap y then 1 else 0))%Z.
Proof.
  intros M. unfold _days_before_month, _days_in_month.
  each_month m; month_tables; destruct (_is_leap y); lia.
Qed.

Lemma day_of_year_month_order (y m d m' d' : Z) :
  (1 <= m)%Z -> (m < m')%Z -> (m' <= 12)%Z ->
  (d <= _days_in_month y m)%Z -> (1 <= d')%Z ->
  (_days_before_month y m + d < _days_before_month y m' + d')%Z.
Proof.
  intros M1 M2 M3. unfold _days_before_month, _days_in_month.
  each_month m; each_month m'; try lia; month_tables;
    destruct (_is_leap y); lia.
Qed.

Lemma toordinal_lt (x y : date) :
  real_date x -> real_date y -> date_cmp x y = Lt ->
  (toordinal x < toordinal y)%Z.
Proof.
  intros (Yx & Mx & Dx) (Yy & My & Dy). unfold date_cmp, toordinal, _ymd2ord.
  destruct (Z.compare_spec (year x) (year y)) as [Ey|Ly|Gy]; try discriminate.
  - rewrite Ey in *.
    destruct (Z.compare_spec (month x) (month y)) as [Em|Lm|Gm];
      try discriminate.
    + rewrite Em. intros C. change (day x < day y)%Z in C. lia.
    + intros _.
      pose proof (day_of_year_month_order (year y) (month x) (day x)
                    (month y) (day y)). lia.
  - intros _.
    pose proof (day_of_year_bounds _ _ _ Mx Dx) as Bx.
    pose proof (day_of_year_bounds _ _ _ My Dy) as By.
    pose proof (days_before_year_step (year x)) as S.
    pose proof (days_before_year_mono (year x + 1) (year y) ltac:(lia)). lia.
Qed.

Lemma date_cmp_eq (x y : date) : date_cmp x y = Eq -> x = y.
Proof.
  unfold date_cmp. destruct x as [a b c], y as [a' b' c']; simpl.
  destruct (Z.compare_spec a a') as [Ea| |]; try discriminate.
  destruct (Z.compare_spec b b') as [Eb| |]; try discriminate.
  intros Ec. apply Z.compare_eq in Ec. congruence.
Qed.

Lemma date_cmp_gt (x y : date) : date_cmp x y = Gt -> date_cmp y x = Lt.
Proof.
  unfold date_cmp.
  rewrite (Z.compare_antisym (year x) (year y)),
    (Z.compare_antisym (month x) (month y)),
    (Z.compare_antisym (day x) (day y)).
  destruct (year x ?= year y)%Z; simpl; try congruence.
  destruct (month x ?= month y)%Z; simpl; try congruence.
  destruct (day x ?= day y)%Z; simpl; congruence.
Qed.

(** On dates of the calendar, the order of the triples is the order of the
    day numbers. *)
Lemma date_lt_toordinal (x y : date) :
  real_date x -> real_date y ->
  date_lt x y = (toordinal x <? toordinal y)%Z.
Proof.
  intros Rx Ry. unfold date_lt.
  destruct (date_cmp x y) eqn:C; symmetry.
  - apply date_cmp_eq in C. subst. apply Z.ltb_irrefl.
  - apply Z.ltb_lt. now apply toordinal_lt.
  - apply date_cmp_gt in C. apply toordinal_lt in C; auto.
    apply Z.ltb_ge. lia.
Qed.

Lemma date_le_toordinal (x y : date) :
  real_date x -> real_date y ->
  date_le x y = (toordinal x <=? toordinal y)%Z.
Proof.
  intros Rx Ry. unfold date_le.
  destruct (date_cmp x y) eqn:C; symmetry.
  - apply date_cmp_eq in C. subst. apply Z.leb_refl.
  - apply Z.leb_le. apply toordinal_lt in C; auto. lia.
  - apply date_cmp_gt in C. apply toordinal_lt in C; auto.
    apply Z.leb_gt. lia.
Qed.

Lemma date_add_spec (x dt : date) (k : Z) :
  date_add x k = Return dt ->
  real_date dt /\ toordinal dt = (toordinal x + k)%Z.
Proof.
  unfold date_add.
  destruct ((0 <? toordinal x + k)%Z && (toordinal x + k <=? _MAXORDINAL)%Z)
    eqn:B; [|discriminate].
  apply andb_true_iff in B as [B1 B2].
  apply Z.ltb_lt in B1. apply Z.leb_le in B2.
  destruct (fromordinal_spec (toordinal x + k)%Z ltac:(lia))
    as (dt' & E & R & O).
  rewrite E. intros [= <-]. auto.
Qed.

Lemma date_add_total (x : date) (k : Z) :
  (1 <= toordinal x + k <= _MAXORDINAL)%Z -> exists dt, date_add x k = Return dt.
Proof.
  intros B. unfold date_add.
  destruct (fromordinal_spec _ B) as (dt & E & _).
  replace ((0 <? toordinal x + k)%Z && (toordinal x + k <=? _MAXORDINAL)%Z)
    with true.
  - now exists dt.
  - symmetry. apply andb_true_iff. split; [apply Z.ltb_lt|apply Z.leb_le]; lia.
Qed.

(** ** Upcoming birthdays *)

Lemma dict_get_set {V} (d : dict V) (k k' : str) (v : V) :
  dict_get (dict_set d k v) k'
  = if str_eqb k k' then Some v else dict_get d k'.
Proof.
  induction d as [|[k0 w] d IH]; simpl.
  - reflexivity.
  - destruct (str_eqb_spec k0 k) as [->|N0]; simpl.
    + destruct (str_eqb k k'); reflexivity.
    + rewrite IH. destruct (str_eqb_spec k0 k') as [->|N1]; [|reflexivity].
      destruct (str_eqb_spec k k'); congruence.
Qed.

Lemma listed_setdefault_append (plan : dict (list str)) (k v w nm : str) :
  listed (setdefault_append plan k v) w nm
  <-> listed plan w nm \/ (w = k /\ nm = v).
Proof.
  unfold listed, setdefault_append.
  destruct (dict_get plan k) as [l|] eqn:G.
  - split.
    + intros (names & E & I). rewrite dict_get_set in E.
      destruct (str_eqb_spec k w) as [->|N].
      * injection E as <-. apply in_app_iff in I as [I|[<-|[]]]; eauto.
      * left. eauto.
    + intros [(names & E & I)|[-> ->]].
      * destruct (str_eqb_spec k w) as [->|N].
        -- exists (l ++ [v]). rewrite dict_get_set, str_eqb_refl.
           split; [reflexivity|]. apply in_app_iff. left. congruence.
        -- exists names. rewrite dict_get_set.
           destruct (str_eqb_spec k w); [congruence|]. auto.
      * exists (l ++ [v]). rewrite dict_get_set, str_eqb_refl.
        split; [reflexivity|]. apply in_app_iff. right. now left.
  - split.
    + intros (names & E & I). rewrite dict_get_set in E.
      destruct (str_eqb_spec k w) as [->|N].
      * injection E as <-. destruct I as [<-|[]]. auto.
      * left. eauto.
    + intros [(names & E & I)|[-> ->]].
      * exists names. rewrite dict_get_set.
        destruct (str_eqb_spec k w); [congruence|]. auto.
      * exists [v]. rewrite dict_get_set, str_eqb_refl.
        split; [reflexivity|]. now left.
Qed.

(** The occurrence the loop body settles on, as a date of the calendar with
    the day number [occurrence] gives. *)
Lemma occurrence_date (today t1 t2 : date) (m d : Z) :
  real_date today ->
  date_new (year today) m d = Return t1 ->
  (if date_lt t1 today then date_new (year today + 1) m d else Return t1)
  = Return t2 ->
  real_date t2 /\ toordinal t2 = occurrence today m d.
Proof.
  intros R E1 E2. apply date_new_spec in E1 as [-> R1].
  rewrite (date_lt_toordinal _ _ R1 R) in E2. unfold occurrence.
  change (toordinal (mkdate (year today) m d))
    with (_ymd2ord (year today) m d) in E2.
  destruct (_ymd2ord (year today) m d <? toordinal today)%Z.
  - apply date_new_spec in E2 as [-> R2]. auto.
  - injection E2 as <-. auto.
Qed.

Lemma strftime_A_weekday_name (c : date) :
  strftime_A c = weekday_name (toordinal c).
Proof. reflexivity. Qed.

(** One turn of the loop that returns: the plan gains the name of the
    record under the weekday of its congratulation day when the birthday is
    due, and is left alone otherwise. *)
Lemma birthday_step_spec (today end_day : date) (acc acc' : dict (list str))
  (record : Record_) :
  real_date today -> real_date end_day ->
  toordinal end_day = (toordinal today + 7)%Z ->
  birthday_step today end_day acc record = Return acc' ->
  forall w nm,
    listed acc' w nm
    <-> listed acc w nm \/ (Name_value (name record) = nm /\ due today record w).
Proof.
  intros R Re Oe. unfold birthday_step, due.
  destruct (birthday record) as [b|].
  2:{ intros [= <-] w nm. split; [auto|].
      intros [L|(_ & b & bd & B & _)]; [exact L|discriminate]. }
  destruct (as_date b) as [bd|] eqn:A; [|discriminate]. simpl.
  destruct (date_new (year today) (month bd) (day bd)) as [t1|] eqn:E1;
    [|discriminate]. simpl.
  destruct (if date_lt t1 today
            then date_new (year today + 1) (month bd) (day bd)
            else Return t1) as [t2|] eqn:E2; [|discriminate]. simpl.
  destruct (occurrence_date _ _ _ _ _ R E1 E2) as [R2 O2].
  rewrite (date_le_toordinal _ _ R R2), (date_lt_toordinal _ _ R2 Re), Oe, O2.
  fold (in_window today (occurrence today (month bd) (day bd))).
  set (o := occurrence today (month bd) (day bd)) in *.
  destruct (in_window today o) eqn:W.
  - assert (C : forall c, 
               (if (weekday t2 =? 5)%Z then date_add t2 2
                else if (weekday t2 =? 6)%Z then date_add t2 1
                     else Return t2) = Return c ->
               strftime_A c = weekday_name (congratulation o)).
    { intros c. rewrite strftime_A_weekday_name. unfold congratulation.
      unfold weekday. rewrite O2. fold (weekday_of o).
      destruct (weekday_of o =? 5)%Z.
      - intros H. apply date_add_spec in H as [_ ->]. now rewrite O2.
      - destruct (weekday_of o =? 6)%Z.
        + intros H. apply date_add_spec in H as [_ ->]. now rewrite O2.
        + intros [= <-]. now rewrite O2. }
    destruct (if (weekday t2 =? 5)%Z then date_add t2 2
              else if (weekday t2 =? 6)%Z then date_add t2 1
                   else Return t2) as [c|] eqn:Ec; [|discriminate].
    simpl. intros [= <-] w nm. rewrite listed_setdefault_append, (C c eq_refl).
    split.
    + intros [L|[-> ->]]; [auto|]. right. split; [reflexivity|].
      exists b, bd. auto.
    + intros [L|(<- & b' & bd' & [= <-] & A' & _ & ->)]; [auto|].
      right. rewrite A in A'. injection A' as <-. auto.
  - intros [= <-] w nm. split; [auto|].
    intros [L|(_ & b' & bd' & [= <-] & A' & W' & _)]; [exact L|].
    rewrite A in A'. injection A' as <-. fold o in W'. congruence.
Qed.

Lemma for_each_birthday_step (today end_day : date) (items : list Record_)
  (acc plan : dict (list str)) :
  real_date today -> real_date end_day ->
  toordinal end_day = (toordinal today + 7)%Z ->
  for_each (birthday_step today end_day) items acc = Return plan ->
  forall w nm,
    listed plan w nm
    <-> listed acc w nm
        \/ exists record, In record items
                          /\ Name_value (name record) = nm
                          /\ due today record w.
Proof.
  intros R Re Oe. revert acc.
  induction items as [|record items IH]; intros acc; simpl.
  - intros [= <-] w nm. split; [auto|]. intros [L|(r & [] & _)]. exact L.
  - destruct (birthday_step today end_day acc record) as [acc'|] eqn:S;
      [|discriminate]. simpl.
    intros F w nm. rewrite (IH _ F), (birthday_step_spec _ _ _ _ _ R Re Oe S).
    split.
    + intros [[L|[N D]]|(r & I & N & D)]; eauto 6.
    + intros [L|(r & [<-|I] & N & D)]; eauto 6.
Qed.

Lemma days_in_month_other_year (y0 y m d : Z) :
  (1 <= m <= 12)%Z -> (d <= _days_in_month y0 m)%Z ->
  ~ (m = 2 /\ d = 29)%Z -> (d <= _days_in_month y m)%Z.
Proof.
  intros M. unfold _days_in_month.
  each_month m; month_tables; destruct (_is_leap y0), (_is_leap y); lia.
Qed.

Lemma toordinal_bounds (x : date) :
  real_date x ->
  (1 <= toordinal x <= _days_before_year (year x + 1))%Z.
Proof.
  intros (Y & M & D). unfold toordinal, _ymd2ord.
  pose proof (day_of_year_bounds _ _ _ M D).
  pose proof (days_before_year_step (year x)).
  pose proof (days_before_year_mono 1 (year x) ltac:(unfold MINYEAR in Y; lia))
    as P.
  change (_days_before_year 1) with 0%Z in P. lia.
Qed.

Lemma toordinal_before_last_year (x : date) :
  real_date x -> (year x < MAXYEAR)%Z -> (toordinal x + 9 <= _MAXORDINAL)%Z.
Proof.
  intros R Y. pose proof (toordinal_bounds x R) as B.
  pose proof (days_before_year_mono (year x + 1) 9999
                ltac:(unfold MAXYEAR in Y; lia)) as P.
  change (_days_before_year 9999) with 3651694%Z in P.
  unfold _MAXORDINAL. lia.
Qed.

(** With a year to spare and no 29th of February among the birthdays, a turn
    of the loop returns. *)
Lemma birthday_step_total (today end_day : date) (acc : dict (list str))
  (record : Record_) :
  real_date today -> (year today < MAXYEAR)%Z -> real_date end_day ->
  toordinal end_day = (toordinal today + 7)%Z ->
  no_leap_day record ->
  exists acc', birthday_step today end_day acc record = Return acc'.
Proof.
  intros R Y Re Oe NL. unfold birthday_step.
  destruct (birthday record) as [b|] eqn:B; [|eauto].
  destruct (NL b B) as (bd & A & N). rewrite A. simpl.
  assert (Rb : real_date bd)
    by (unfold as_date in A; apply strptime_dmY_spec in A; tauto).
  destruct R as (Yt & Mt & Dt), Rb as (Yb & Mb & Db).
  assert (Dy : forall y, (day bd <= _days_in_month y (month bd))%Z).
  { intros y. apply (days_in_month_other_year (year bd)); [lia|lia|exact N]. }
  assert (R1 : real_date (mkdate (year today) (month bd) (day bd))).
  { unfold real_date, MINYEAR, MAXYEAR in *. cbn [year month day].
    pose proof (Dy (year today)). lia. }
  assert (R2 : real_date (mkdate (year today + 1) (month bd) (day bd))).
  { unfold real_date, MINYEAR, MAXYEAR in *. cbn [year month day].
    pose proof (Dy (year today + 1)%Z). lia. }
  rewrite (proj2 (date_new_spec _ _ _ _) (conj eq_refl R1)). simpl.
  destruct (if date_lt (mkdate (year today) (month bd) (day bd)) today
            then date_new (year today + 1) (month bd) (day bd)
            else Return (mkdate (year today) (month bd) (day bd)))
    as [t2|] eqn:E2.
  2:{ destruct (date_lt _ today); [|discriminate].
      now rewrite (proj2 (date_new_spec _ _ _ _) (conj eq_refl R2)) in E2. }
  simpl.
  assert (Rt : real_date today) by (unfold real_date; tauto).
  destruct (occurrence_date today _ t2 (month bd) (day bd) Rt
              (proj2 (date_new_spec _ _ _ _) (conj eq_refl R1)) E2) as [Rt2 O2].
  rewrite (date_le_toordinal _ _ Rt Rt2), (date_lt_toordinal _ _ Rt2 Re), Oe.
  destruct ((toordinal today <=? toordinal t2)%Z
            && (toordinal t2 <? toordinal today + 7)%Z) eqn:W; [|eauto].
  apply andb_true_iff in W as [W1 W2].
  apply Z.leb_le in W1. apply Z.ltb_lt in W2.
  pose proof (toordinal_before_last_year today Rt Y) as L.
  pose proof (toordinal_bounds today Rt) as T.
  destruct (date_add_total t2 2 ltac:(lia)) as [c2 E].
  destruct (date_add_total t2 1 ltac:(lia)) as [c1 E'].
  rewrite E, E'.
  destruct (weekday t2 =? 5)%Z; [simpl; eauto|].
  destruct (weekday t2 =? 6)%Z; simpl; eauto.
Qed.

Lemma for_each_birthday_step_total (today end_day : date)
  (items : list Record_) (acc : dict (list str)) :
  real_date today -> (year today < MAXYEAR)%Z -> real_date end_day ->
  toordinal end_day = (toordinal today + 7)%Z ->
  (forall record, In record items -> no_leap_day record) ->
  exists plan, for_each (birthday_step today end_day) items acc = Return plan.
Proof.
  intros R Y Re Oe. revert acc.
  induction items as [|record items IH]; intros acc NL; simpl; [eauto|].
  destruct (birthday_step_total today end_day acc record R Y Re Oe) as [acc' S].
  { apply NL. now left. }
  rewrite S. simpl. apply IH. intros r I. apply NL. now right.
Qed.

(** What [get_upcoming_birthdays] returns, when it returns: a name is
    listed under a weekday exactly when a record of the book with that name
    has a birthday due on that weekday. *)
Lemma upcoming_birthdays_sound (today : date) (book : AddressBook)
  (plan : dict (list str)) :
  real_date today ->
  get_upcoming_birthdays today book = Return plan ->
  forall w nm,
    listed plan w nm
    <-> exists record, In record (dict_values (data book))
                       /\ Name_value (name record) = nm
                       /\ due today record w.
Proof.
  intros R. unfold get_upcoming_birthdays.
  destruct (date_add today 7) as [end_day|] eqn:E; [|discriminate]. simpl.
  apply date_add_spec in E as [Re Oe].
  intros F w nm. rewrite (for_each_birthday_step _ _ _ _ _ R Re Oe F).
  split; [|auto]. intros [(names & G & _)|H]; [discriminate|exact H].
Qed.

(** Upcoming birthdays, for the dates before the last year of the calendar
    and the books without a birthday on the 29th of February: the call
    returns a plan, and the plan lists a name under a weekday exactly when a
    record of that name has a birthday whose occurrence (this year's, or next
    year's when this year's is past) falls in the seven days from today on,
    the weekday being the one of the occurrence moved from Saturday or Sunday
    to Monday. *)
Theorem upcoming_birthdays_spec (today : date) (book : AddressBook) :
  real_date today -> (year today < MAXYEAR)%Z ->
  (forall record, In record (dict_values (data book)) -> no_leap_day record) ->
  exists plan,
    get_upcoming_birthdays today book = Return plan
    /\ forall w nm,
         listed plan w nm
         <-> exists record, In record (dict_values (data book))
                            /\ Name_value (name record) = nm
                            /\ due today record w.
Proof.
  intros R Y NL.
  assert (T : exists plan, get_upcoming_birthdays today book = Return plan).
  { unfold get_upcoming_birthdays.
    pose proof (toordinal_before_last_year today R Y) as L.
    pose proof (toordinal_bounds today R) as B.
    destruct (date_add_total today 7 ltac:(lia)) as [end_day E].
    rewrite E. simpl. apply date_add_spec in E as [Re Oe].
    now apply for_each_birthday_step_total. }
  destruct T as [plan E]. exists plan. split; [exact E|].
  now apply upcoming_birthdays_sound.
Qed.

Lemma thursday_is_real : real_date (mkdate 2023 6 1).
Proof. vm_compute. repeat split; discriminate. Qed.

Lemma weekend_book_no_leap_day (record : Record_) :
  In record (dict_values (data weekend_book)) -> no_leap_day record.
Proof.
  intros I b B. simpl in I.
  repeat (destruct I as [<-|I];
          [simpl in B;
           first [discriminate
                 |injection B as <-; eexists;
                  split; [reflexivity|vm_compute; intros [? ?]; discriminate]]
          |]).
  destruct I.
Qed.

(** On Thursday the first of June 2023: ann (1 June) is listed under
    Thursday, bob (Saturday 3 June) under Monday; dan (8 June, a week ahead)
    and eve (31 May, next in 2024) are not listed, nor is cy, who has no
    birthday. *)
Lemma upcoming_birthdays_spec_witness :
  exists plan,
    get_upcoming_birthdays (mkdate 2023 6 1) weekend_book = Return plan
    /\ plan = [(lit "Thursday", [lit "ann"]); (lit "Monday", [lit "bob"])]
    /\ (listed plan (lit "Monday") (lit "bob")
        <-> exists record, In record (dict_values (data weekend_book))
                           /\ Name_value (name record) = lit "bob"
                           /\ due (mkdate 2023 6 1) record (lit "Monday")).
Proof.
  destruct (upcoming_birthdays_spec (mkdate 2023 6 1) weekend_book
              thursday_is_real eq_refl
              weekend_book_no_leap_day) as (plan & E & H).
  exists plan. split; [exact E|]. split; [|apply H].
  vm_compute in E. now injection E as <-.
Defined.

(** C1 says that, for every book and every [today], the plan lists a name
    exactly when the contact has a birthday whose occurrence falls in the
    seven days from [today] on, under the weekday of the occurrence after
    the weekend shift.  At a book with a birthday on the 29th of February
    the code does otherwise: on 1 June 2023 ann's birthday is due (it is
    today, a Thursday), so she is to be listed under Thursday, but the call
    builds [date(2023, 2, 29)] for bob and raises [ValueError], returning no
    plan at all. *)
Theorem upcoming_birthdays_leap_day_raises :
  get_upcoming_birthdays (mkdate 2023 6 1) leap_day_book
  = Raise (ValueError (lit "day is out of range for month"))
  /\ exists record, In record (dict_values (data leap_day_book))
                    /\ Name_value (name record) = lit "ann"
                    /\ due (mkdate 2023 6 1) record (lit "Thursday").
Proof.
  split; [reflexivity|].
  eexists. split; [left; reflexivity|]. split; [reflexivity|].
  eexists. eexists. repeat split.
Qed.

(** ** What the command line hands to the handlers *)

Lemma lstrip_spaceless (t : str) :
  forallb (fun c => negb (char_isspace c)) t = true -> lstrip t = t.
Proof.
  destruct t as [|c t]; simpl; [reflexivity|].
  intros H. apply andb_true_iff in H as [H _].
  now destruct (char_isspace c).
Qed.

Lemma spaceless_plain_name (t : str) : spaceless t -> plain_name t.
Proof.
  intros [N F]. split; [|exact N].
  unfold strip, rstrip. rewrite (lstrip_spaceless t F).
  rewrite lstrip_spaceless, rev_involutive; [reflexivity|].
  rewrite forallb_forall in *. intros c I. apply F. now apply in_rev.
Qed.

Lemma split_from_spaceless (s word : str) :
  forallb (fun c => negb (char_isspace c)) word = true ->
  forall t, In t (split_from s word) -> spaceless t.
Proof.
  revert word. induction s as [|c s IH]; intros word W t; simpl.
  - destruct word; [intros []|]. intros [<-|[]]. split; [discriminate|exact W].
  - destruct (char_isspace c) eqn:C.
    + destruct word.
      * now apply IH.
      * intros [<-|I]; [split; [discriminate|exact W]|now apply (IH [])].
    + apply IH. rewrite forallb_app, W. simpl. now rewrite C.
Qed.

(** Every argument that [parse_input] hands to a handler is a non-empty
    text without any white space in it; hence a name among them is one that
    [Name] keeps as it is, and no argument is the empty text. *)
Lemma parse_input_arguments (lower : str -> str) (user_input cmd : str)
  (args : list str) :
  parse_input lower user_input = Return (cmd, args) ->
  forall a, In a args -> spaceless a /\ plain_name a /\ truthy a = true.
Proof.
  unfold parse_input. destruct (negb (truthy (strip user_input))).
  - intros [= <- <-] a [].
  - destruct (str_split (strip user_input)) as [|part0 rest] eqn:S;
      [discriminate|].
    intros [= <- <-] a I.
    assert (P : spaceless a).
    { apply (split_from_spaceless (strip user_input) []); [reflexivity|].
      fold (str_split (strip user_input)). rewrite S. now right. }
    split; [exact P|]. split; [now apply spaceless_plain_name|].
    destruct P as [N _]. now apply truthy_nonempty.
Qed.

(* ================================================================= *)
(** * Part III: further properties of the code *)
(* ================================================================= *)

(** ** Trimming and names *)

Lemma lstrip_split (s : str) :
  exists ws, s = ws ++ lstrip s /\ blank ws.
Proof.
  induction s as [|c s (ws & E & B)]; simpl.
  - now exists [].
  - destruct (char_isspace c) eqn:C.
    + exists (c :: ws). split; [simpl; congruence|].
      unfold blank in *. simpl. now rewrite C, B.
    + now exists [].
Qed.

Lemma lstrip_head (s t : str) (c : char) :
  lstrip s = c :: t -> char_isspace c = false.
Proof.
  induction s as [|x s IH]; simpl; [discriminate|].
  destruct (char_isspace x) eqn:X; [exact IH|]. now intros [= <- <-].
Qed.

Lemma lstrip_fixed (s : str) :
  lstrip s = s
  <-> match s with [] => True | c :: _ => char_isspace c = false end.
Proof.
  destruct s as [|c s]; [simpl; tauto|]. split.
  - intros E. exact (lstrip_head _ _ _ E).
  - intros C. simpl. now rewrite C.
Qed.

Lemma lstrip_idem (s : str) : lstrip (lstrip s) = lstrip s.
Proof.
  apply lstrip_fixed. destruct (lstrip s) as [|c t] eqn:E; [exact I|].
  exact (lstrip_head _ _ _ E).
Qed.

Lemma lstrip_blank (s : str) : lstrip s = [] <-> blank s.
Proof.
  unfold blank. induction s as [|c s IH]; simpl; [tauto|].
  destruct (char_isspace c); simpl; [exact IH|]. split; discriminate.
Qed.

Lemma blank_app (a b : str) : blank (a ++ b) <-> blank a /\ blank b.
Proof. unfold blank. rewrite forallb_app. apply andb_true_iff. Qed.

Lemma blank_rev (a : str) : blank (rev a) <-> blank a.
Proof.
  unfold blank. rewrite !forallb_forall.
  split; intros H c I; apply H; now apply in_rev in I || apply -> in_rev in I.
Qed.

(** A text without white space at either end. *)
Lemma strip_fixed (u : str) :
  strip u = u <-> lstrip u = u /\ lstrip (rev u) = rev u.
Proof.
  unfold strip, rstrip. split.
  - intros E.
    assert (L : lstrip u = u).
    { destruct (lstrip_split u) as (ws & E1 & _).
      destruct (lstrip_split (rev (lstrip u))) as (ws' & E2 & _).
      apply (f_equal (@rev char)) in E2.
      rewrite rev_involutive, rev_app_distr, E in E2.
      assert (W : ws = []).
      { apply length_zero_iff_nil.
        pose proof (f_equal (@List.length char) E1) as L1.
        pose proof (f_equal (@List.length char) E2) as L2.
        rewrite length_app in L1, L2. lia. }
      subst ws. now symmetry. }
    split; [exact L|]. rewrite L in E.
    apply (f_equal (@rev char)) in E. now rewrite rev_involutive in E.
  - intros [L R]. now rewrite L, R, rev_involutive.
Qed.

Lemma strip_idem (s : str) : strip (strip s) = strip s.
Proof.
  apply strip_fixed. unfold strip, rstrip.
  set (t := lstrip s). set (v := lstrip (rev t)).
  assert (V : lstrip v = v) by apply lstrip_idem.
  rewrite rev_involutive. split; [|exact V].
  destruct (lstrip_split (rev t)) as (ws & E & B). fold v in E.
  apply (f_equal (@rev char)) in E.
  rewrite rev_involutive, rev_app_distr in E.
  assert (T : lstrip t = t) by apply lstrip_idem.
  apply lstrip_fixed. apply lstrip_fixed in T. rewrite E in T.
  destruct (rev v); [exact I|exact T].
Qed.

Lemma strip_blank (s : str) : strip s = [] <-> blank s.
Proof.
  unfold strip, rstrip. split.
  - intros E. apply (f_equal (@rev char)) in E.
    rewrite rev_involutive in E. simpl in E.
    apply lstrip_blank in E. apply (proj1 (blank_rev _)) in E.
    apply lstrip_blank in E.
    rewrite lstrip_idem in E. now apply lstrip_blank in E.
  - intros B. apply lstrip_blank in B. now rewrite B.
Qed.

(** [Name(value)] fails exactly on the texts of white space only; otherwise
    it keeps the trimmed text, which is a name as the book has them (not
    empty, nothing to trim), so that building a name from a stored name
    changes nothing. *)
Theorem Name_init_spec (v : str) :
  (blank v -> Name_init v = Raise (ValueError (lit "Name cannot be empty.")))
  /\ (~ blank v ->
      Name_init v = Return (mkName (strip v))
      /\ plain_name (strip v)
      /\ Name_init (strip v) = Return (mkName (strip v))).
Proof.
  unfold Name_init. split.
  - intros B. apply strip_blank in B. now rewrite B.
  - intros B. assert (N : strip v <> []) by (now rewrite strip_blank).
    assert (P : plain_name (strip v)) by (split; [apply strip_idem|exact N]).
    rewrite strip_idem. destruct (strip v); [congruence|]. auto.
Qed.

Lemma Name_init_spec_witness :
  Name_init (lit "  ") = Raise (ValueError (lit "Name cannot be empty."))
  /\ Name_init (lit " ann lee ") = Return (mkName (lit "ann lee")).
Proof.
  split.
  - apply (Name_init_spec (lit "  ")). reflexivity.
  - apply (Name_init_spec (lit " ann lee ")). discriminate.
Defined.

(** ** [parse_input] *)

Lemma split_from_word (s word : str) :
  word <> [] -> split_from s word <> [].
Proof.
  revert word. induction s as [|c s IH]; intros word N; simpl.
  - now destruct word.
  - destruct (char_isspace c).
    + now destruct word.
    + apply IH. now destruct word.
Qed.

(** [parse_input] never fails: indexing [parts[0]] is safe, because a
    trimmed text that is not empty has a first token.  A line of white space
    only gives the empty command without arguments, and only such a line
    does (whatever [lower] makes of the command, the arguments say so). *)
Theorem parse_input_total (lower : str -> str) (user_input : str) :
  exists command args,
    parse_input lower user_input = Return (command, args)
    /\ (blank user_input -> command = [] /\ args = [])
    /\ (~ blank user_input ->
        exists part0, str_split (strip user_input) = part0 :: args
                      /\ command = lower part0 /\ spaceless part0).
Proof.
  unfold parse_input.
  destruct (strip user_input) as [|c u] eqn:S.
  - exists [], []. simpl. split; [reflexivity|]. split; [auto|].
    intros B. now apply strip_blank in S.
  - assert (B : ~ blank user_input) by (rewrite <- strip_blank; congruence).
    assert (C : char_isspace c = false).
    { pose proof (strip_idem user_input) as F. rewrite S in F.
      apply strip_fixed in F as [F _]. now apply lstrip_fixed in F. }
    simpl truthy. cbn [negb].
    destruct (str_split (c :: u)) as [|part0 args] eqn:T.
    + exfalso. unfold str_split in T. simpl in T. rewrite C in T.
      now apply (split_from_word u [c]) in T.
    + exists (lower part0), args. split; [reflexivity|]. split; [tauto|].
      intros _. exists part0. repeat split; try reflexivity.
      * apply (split_from_spaceless (c :: u) []); [reflexivity|].
        fold (str_split (c :: u)). rewrite T. now left.
      * apply (split_from_spaceless (c :: u) []); [reflexivity|].
        fold (str_split (c :: u)). rewrite T. now left.
Qed.

Lemma parse_input_total_witness :
  parse_input ascii_lower (lit "   ") = Return ([], [])
  /\ parse_input ascii_lower (lit " ADD  bob 123 ")
     = Return (lit "add", [lit "bob"; lit "123"]).
Proof.
  split.
  - destruct (parse_input_total ascii_lower (lit "   "))
      as (c & a & E & B & _).
    destruct B as [-> ->]; [reflexivity|exact E].
  - destruct (parse_input_total ascii_lower (lit " ADD  bob 123 "))
      as (c & a & E & _ & N).
    destruct N as (p & S & -> & _); [discriminate|].
    vm_compute in S. injection S as <- <-. exact E.
Defined.

Lemma split_from_token (t s word : str) :
  forallb (fun c => negb (char_isspace c)) t = true ->
  split_from (t ++ s) word = split_from s (word ++ t).
Proof.
  revert word. induction t as [|c t IH]; intros word F; simpl.
  - now rewrite app_nil_r.
  - simpl in F. apply andb_true_iff in F as [C F].
    destruct (char_isspace c); [discriminate|].
    rewrite IH by exact F. now rewrite <- app_assoc.
Qed.

Lemma split_from_space (s word : str) :
  split_from (space ++ s) word
  = match word with
    | [] => split_from s []
    | _ => word :: split_from s []
    end.
Proof. reflexivity. Qed.

Lemma split_join (tokens : list str) :
  Forall spaceless tokens -> str_split (join space tokens) = tokens.
Proof.
  unfold str_split. induction 1 as [|t rest [N F] R IH]; [reflexivity|].
  destruct rest as [|t' rest].
  - simpl. rewrite <- (app_nil_r t) at 1. rewrite split_from_token by exact F.
    simpl. now destruct t.
  - change (join space (t :: t' :: rest))
      with (t ++ space ++ join space (t' :: rest)).
    rewrite split_from_token, split_from_space by exact F. simpl app.
    destruct t; [congruence|]. now rewrite IH.
Qed.

Lemma join_starts (tokens : list str) (t : str) :
  spaceless t -> lstrip (join space (t :: tokens)) = join space (t :: tokens).
Proof.
  intros [N F]. apply lstrip_fixed. destruct t as [|c t]; [congruence|].
  simpl in F. apply andb_true_iff in F as [C _].
  destruct tokens; simpl; now destruct (char_isspace c).
Qed.

Lemma join_ends (tokens : list str) :
  Forall spaceless tokens -> tokens <> [] ->
  lstrip (rev (join space tokens)) = rev (join space tokens).
Proof.
  induction 1 as [|t rest [N F] R IH]; [congruence|]. intros _.
  destruct rest as [|t' rest].
  - simpl. apply lstrip_fixed. destruct (rev t) as [|c r] eqn:E.
    + apply (f_equal (@rev char)) in E. rewrite rev_involutive in E.
      now subst.
    + rewrite forallb_forall in F.
      specialize (F c ltac:(apply in_rev; rewrite E; now left)).
      now destruct (char_isspace c).
  - change (join space (t :: t' :: rest))
      with (t ++ space ++ join space (t' :: rest)).
    rewrite !rev_app_distr. specialize (IH ltac:(discriminate)).
    apply lstrip_fixed in IH. apply lstrip_fixed.
    destruct (rev (join space (t' :: rest))) as [|c r] eqn:E; [|exact IH].
    apply (f_equal (@rev char)) in E. rewrite rev_involutive in E.
    exfalso. inversion R as [|? ? [N' _] _]; subst.
    destruct t'; [congruence|]. destruct rest; discriminate.
Qed.

(** A command word and arguments without white space, written on a line
    with one space between them, are what [parse_input] gives back. *)
Theorem parse_input_join (lower : str -> str) (part0 : str)
  (args : list str) :
  Forall spaceless (part0 :: args) ->
  parse_input lower (join space (part0 :: args))
  = Return (lower part0, args).
Proof.
  intros F. unfold parse_input.
  assert (S : strip (join space (part0 :: args)) = join space (part0 :: args)).
  { apply strip_fixed. split.
    - apply join_starts. now inversion F.
    - apply join_ends; [exact F|discriminate]. }
  rewrite S, (split_join _ F).
  destruct (join space (part0 :: args)) eqn:J; [|reflexivity].
  exfalso. inversion F as [|? ? [N _] _]; subst.
  destruct part0; [congruence|]. destruct args; discriminate.
Qed.

Lemma parse_input_join_witness :
  parse_input ascii_lower (lit "Change bob 1234567890 0987654321")
  = Return (lit "change", [lit "bob"; phone_a; phone_b]).
Proof.
  apply (parse_input_join ascii_lower (lit "Change") [lit "bob"; phone_a; phone_b]).
  repeat constructor; discriminate.
Defined.

(** ** The methods of [Record] *)

Lemma remove_loop_none (ps : list Phone) (phone : str) :
  (forall p, In p ps -> Phone_value p <> phone) ->
  remove_loop ps phone = None.
Proof.
  induction ps as [|p ps IH]; simpl; intros H; [reflexivity|].
  destruct (str_eqb_spec (Phone_value p) phone) as [E|_].
  - now destruct (H p (or_introl eq_refl)).
  - rewrite IH; [reflexivity|]. intros q I. apply H. now right.
Qed.

Lemma remove_loop_first (pre post : list Phone) (p : Phone) (phone : str) :
  (forall q, In q pre -> Phone_value q <> phone) ->
  Phone_value p = phone ->
  remove_loop (pre ++ p :: post) phone = Some (pre ++ post).
Proof.
  induction pre as [|a pre IH]; simpl; intros H E.
  - now rewrite E, str_eqb_refl.
  - destruct (str_eqb_spec (Phone_value a) phone) as [Ea|_].
    + now destruct (H a (or_introl eq_refl)).
    + rewrite IH; auto.
Qed.

(** The first phone with a given value, if there is one: the phones before
    it, the phone, the phones after it. *)
Lemma first_match (ps : list Phone) (phone : str) :
  (forall p, In p ps -> Phone_value p <> phone)
  \/ exists pre p post,
       ps = pre ++ p :: post
       /\ (forall q, In q pre -> Phone_value q <> phone)
       /\ Phone_value p = phone.
Proof.
  induction ps as [|a ps IH].
  - left. intros p [].
  - destruct (str_eqb_spec (Phone_value a) phone) as [Ea|Na].
    + right. exists [], a, ps. split; [reflexivity|]. split; [|exact Ea].
      intros q [].
    + destruct IH as [N|(pre & p & post & -> & H & E)].
      * left. intros q [<-|I]; auto.
      * right. exists (a :: pre), p, post. split; [reflexivity|].
        split; [|exact E]. intros q [<-|I]; auto.
Qed.

Lemma find_loop_none (ps : list Phone) (phone : str) :
  (forall p, In p ps -> Phone_value p <> phone) -> find_loop ps phone = None.
Proof.
  induction ps as [|a ps IH]; simpl; intros H; [reflexivity|].
  destruct (str_eqb_spec (Phone_value a) phone) as [E|_].
  - now destruct (H a (or_introl eq_refl)).
  - apply IH. intros q I. apply H. now right.
Qed.

Lemma find_loop_first (pre post : list Phone) (p : Phone) (phone : str) :
  (forall q, In q pre -> Phone_value q <> phone) ->
  Phone_value p = phone ->
  find_loop (pre ++ p :: post) phone = Some p.
Proof.
  induction pre as [|a pre IH]; simpl; intros H E.
  - now rewrite E, str_eqb_refl.
  - destruct (str_eqb_spec (Phone_value a) phone) as [Ea|_].
    + now destruct (H a (or_introl eq_refl)).
    + apply IH; auto.
Qed.

Lemma first_match_unique (pre pre' post post' : list Phone) (p q : Phone)
  (phone : str) :
  pre ++ p :: post = pre' ++ q :: post' ->
  (forall x, In x pre -> Phone_value x <> phone) ->
  (forall x, In x pre' -> Phone_value x <> phone) ->
  Phone_value p = phone -> Phone_value q = phone -> p = q.
Proof.
  revert pre'. induction pre as [|a pre IH]; intros [|a' pre'] E H H' V V';
    simpl in *.
  - congruence.
  - injection E as <- _. now destruct (H' p (or_introl eq_refl)).
  - injection E as <- _. now destruct (H a (or_introl eq_refl)).
  - injection E as <- E. apply (IH pre' E); auto.
Qed.

(** [remove_phone] takes out the first phone whose value is the given text
    and nothing else, the other phones keeping their order, and answers
    [True]; with no such phone it answers [False] and leaves the record as it
    was.  The name and the birthday are never touched. *)
Theorem remove_phone_spec (self : Record_) (phone : str) :
  ((forall p, In p (phones self) -> Phone_value p <> phone) ->
   remove_phone self phone = (false, self))
  /\ (forall pre p post,
        phones self = pre ++ p :: post ->
        (forall q, In q pre -> Phone_value q <> phone) ->
        Phone_value p = phone ->
        remove_phone self phone
        = (true, mkRecord (name self) (pre ++ post) (birthday self))).
Proof.
  unfold remove_phone. split.
  - intros H. now rewrite remove_loop_none.
  - intros pre p post -> H E. now rewrite remove_loop_first.
Qed.

Lemma remove_phone_spec_witness :
  let self := record_with_phones (lit "bob") [phone_a; phone_b; phone_a] in
  remove_phone self (lit "5555555555") = (false, self)
  /\ remove_phone self phone_a
     = (true, record_with_phones (lit "bob") [phone_b; phone_a]).
Proof.
  intros self. destruct (remove_phone_spec self (lit "5555555555")) as [H _].
  destruct (remove_phone_spec self phone_a) as [_ H'].
  split.
  - apply H. intros p [<-|[<-|[<-|[]]]]; discriminate.
  - apply (H' [] (mkPhone phone_a) [mkPhone phone_b; mkPhone phone_a]).
    + reflexivity.
    + intros q [].
    + reflexivity.
Defined.

(** [find_phone] answers [None] exactly when no phone of the record has the
    value, and otherwise the first phone of the record that has it. *)
Theorem find_phone_spec (self : Record_) (phone : str) :
  (find_phone self phone = None
   <-> forall p, In p (phones self) -> Phone_value p <> phone)
  /\ (forall p, find_phone self phone = Some p
                <-> exists pre post,
                      phones self = pre ++ p :: post
                      /\ (forall q, In q pre -> Phone_value q <> phone)
                      /\ Phone_value p = phone).
Proof.
  unfold find_phone.
  destruct (first_match (phones self) phone)
    as [H|(pre & p & post & E & H & V)].
  - rewrite (find_loop_none _ _ H). split; [tauto|].
    intros q. split; [discriminate|].
    intros (pre & post & E & _ & V). exfalso. apply (H q); [|exact V].
    rewrite E. apply in_elt.
  - rewrite E, (find_loop_first _ _ _ _ H V). split.
    + split; [discriminate|]. intros A. exfalso. apply (A p); [|exact V].
      apply in_elt.
    + intros q. split.
      * intros [= <-]. now exists pre, post.
      * intros (pre' & post' & E' & H' & V'). f_equal.
        exact (first_match_unique _ _ _ _ _ _ _ E' H H' V V').
Qed.

(** Adding a phone and removing it again: for a text that is a phone and
    that the record does not hold yet, [add_phone] followed by
    [remove_phone] gives the record back, and [find_phone] in between finds
    the phone. *)
Theorem add_then_remove_phone (self : Record_) (phone : str) :
  phone_text phone ->
  (forall p, In p (phones self) -> Phone_value p <> phone) ->
  exists added,
    add_phone self phone = Return added
    /\ phones added = phones self ++ [mkPhone phone]
    /\ find_phone added phone = Some (mkPhone phone)
    /\ remove_phone added phone = (true, self).
Proof.
  intros T H. unfold add_phone. rewrite (Phone_init_ok _ T). simpl.
  eexists. split; [reflexivity|]. split; [reflexivity|]. split.
  - unfold find_phone. simpl. now apply find_loop_first.
  - unfold remove_phone. simpl. rewrite remove_loop_first by auto.
    rewrite app_nil_r. now destruct self.
Qed.

Lemma add_then_remove_phone_witness :
  let self := record_with_phones (lit "bob") [phone_a] in
  exists added,
    add_phone self phone_b = Return added
    /\ remove_phone added phone_b = (true, self).
Proof.
  intros self.
  destruct (add_then_remove_phone self phone_b) as (added & A & _ & _ & R).
  - split; [reflexivity|]. intros c I.
    repeat (destruct I as [<-|I]; [reflexivity|]). destruct I.
  - intros p [<-|[]]. discriminate.
  - now exists added.
Defined.

(** ** The methods of [AddressBook] *)

Lemma dict_get_in {V} (d : dict V) (k : str) (v : V) :
  dict_get d k = Some v -> In (k, v) d.
Proof.
  induction d as [|[k' w] d IH]; simpl; [discriminate|].
  destruct (str_eqb_spec k' k) as [->|N].
  - intros [= ->]. now left.
  - intros H. right. now apply IH.
Qed.

Lemma dict_get_none {V} (d : dict V) (k : str) :
  dict_get d k = None <-> ~ In k (dict_keys d).
Proof.
  induction d as [|[k' w] d IH]; simpl; [tauto|].
  destruct (str_eqb_spec k' k) as [->|N].
  - split; [discriminate|]. intros H. exfalso. apply H. now left.
  - rewrite IH. tauto.
Qed.

Lemma dict_keys_set {V} (d : dict V) (k : str) (v : V) :
  dict_keys (dict_set d k v)
  = match dict_get d k with
    | Some _ => dict_keys d
    | None => dict_keys d ++ [k]
    end.
Proof.
  induction d as [|[k' w] d IH]; simpl; [reflexivity|].
  destruct (str_eqb_spec k' k) as [->|N]; simpl; [reflexivity|].
  rewrite IH. now destruct (dict_get d k).
Qed.

Lemma dict_set_in {V} (d : dict V) (k k' : str) (v w : V) :
  In (k', w) (dict_set d k v) -> (k' = k /\ w = v) \/ In (k', w) d.
Proof.
  induction d as [|[k0 u] d IH]; simpl.
  - intros [[= <- <-]|[]]. now left.
  - destruct (str_eqb_spec k0 k) as [->|N]; simpl.
    + intros [[= <- <-]|I]; auto.
    + intros [E|I]; auto. destruct (IH I); auto.
Qed.

Lemma dict_set_nodup {V} (d : dict V) (k : str) (v : V) :
  NoDup (dict_keys d) -> NoDup (dict_keys (dict_set d k v)).
Proof.
  intros N. rewrite dict_keys_set. destruct (dict_get d k) eqn:G; [exact N|].
  apply dict_get_none in G. apply NoDup_app; [exact N|repeat constructor; auto|].
  intros x I [<-|[]]. contradiction.
Qed.

Lemma dict_pop_spec {V} (d : dict V) (k : str) :
  fst (dict_pop d k) = dict_get d k
  /\ (forall k', k' <> k ->
                 dict_get (snd (dict_pop d k)) k' = dict_get d k')
  /\ (dict_get d k = None -> snd (dict_pop d k) = d)
  /\ (NoDup (dict_keys d) ->
      dict_get (snd (dict_pop d k)) k = None
      /\ NoDup (dict_keys (snd (dict_pop d k))))
  /\ (forall x, In x (dict_keys (snd (dict_pop d k))) -> In x (dict_keys d)).
Proof.
  induction d as [|[k0 w] d (F & O & A & U & S)]; simpl.
  - repeat split; auto; constructor.
  - destruct (str_eqb_spec k0 k) as [->|N]; simpl.
    + split; [reflexivity|]. split.
      * intros k' N'. destruct (str_eqb_spec k k'); congruence.
      * split; [discriminate|]. split; [|auto].
        intros D. inversion D; subst. split; [now apply dict_get_none|auto].
    + destruct (dict_pop d k) as [r d'] eqn:P. simpl in *.
      split; [exact F|]. split.
      * intros k' N'. destruct (str_eqb k0 k'); auto.
      * split; [intros G; now rewrite (A G)|]. split.
        -- intros D. inversion D as [|? ? NI D']; subst.
           destruct (U D') as [G D'']. destruct (str_eqb_spec k0 k);
             [congruence|]. split; [exact G|]. constructor; auto.
        -- intros x [<-|I]; auto.
Qed.

(** [add_record] then [find]: the record is found under its name, every
    other name finds what it found before, a name that was in the book keeps
    its place and a new one goes to the end, and the names stay distinct. *)
Theorem add_record_find (book : AddressBook) (record : Record_) :
  let key := Name_value (name record) in
  let book' := add_record book record in
  find book' key = Some record
  /\ (forall k, k <> key -> find book' k = find book k)
  /\ dict_keys (data book')
     = match find book key with
       | Some _ => dict_keys (data book)
       | None => dict_keys (data book) ++ [key]
       end
  /\ (NoDup (dict_keys (data book)) -> NoDup (dict_keys (data book'))).
Proof.
  unfold find, add_record. simpl. split; [apply dict_get_set_same|].
  split; [|split; [apply dict_keys_set|apply dict_set_nodup]].
  intros k N. rewrite dict_get_set.
  destruct (str_eqb_spec (Name_value (name record)) k); congruence.
Qed.

Lemma add_record_find_witness :
  find (add_record book_of_two (fresh_record (lit "cy"))) (lit "cy")
  = Some (fresh_record (lit "cy"))
  /\ find (add_record book_of_two (fresh_record (lit "cy"))) (lit "bob")
     = find book_of_two (lit "bob")
  /\ NoDup (dict_keys (data (add_record book_of_two (fresh_record (lit "cy"))))).
Proof.
  destruct (add_record_find book_of_two (fresh_record (lit "cy")))
    as (F & O & _ & N).
  split; [exact F|]. split.
  - apply O. discriminate.
  - apply N. repeat constructor; simpl; intuition discriminate.
Defined.

(** [delete] answers whether the name was in the book; afterwards the name
    finds nothing (the names of a book being distinct), every other name
    finds what it found before, no name appears that was not there, and a
    book that did not hold the name is left as it was. *)
Theorem delete_spec (book : AddressBook) (nm : str) :
  let removed := fst (delete book nm) in
  let book' := snd (delete book nm) in
  (removed = true <-> find book nm <> None)
  /\ (forall k, k <> nm -> find book' k = find book k)
  /\ (find book nm = None -> book' = book)
  /\ (NoDup (dict_keys (data book)) ->
      find book' nm = None /\ NoDup (dict_keys (data book'))).
Proof.
  unfold delete, find.
  destruct (dict_pop_spec (data book) nm) as (F & O & A & U & _).
  destruct (dict_pop (data book) nm) as [r d'] eqn:P. simpl in *.
  subst r. split; [|split; [exact O|split; [|exact U]]].
  - destruct (dict_get (data book) nm); split; congruence.
  - intros G. rewrite (A G). now destruct book.
Qed.

Lemma delete_spec_witness :
  fst (delete book_of_two (lit "ann")) = true
  /\ find (snd (delete book_of_two (lit "ann"))) (lit "ann") = None
  /\ find (snd (delete book_of_two (lit "ann"))) (lit "bob")
     = find book_of_two (lit "bob")
  /\ snd (delete book_of_two (lit "cy")) = book_of_two.
Proof.
  destruct (delete_spec book_of_two (lit "ann")) as (R & O & _ & U).
  destruct (delete_spec book_of_two (lit "cy")) as (_ & _ & A & _).
  split; [apply R; discriminate|]. split.
  - apply U. repeat constructor; simpl; intuition discriminate.
  - split; [apply O; discriminate|apply A; reflexivity].
Defined.

(** A record put in the book under a name the book did not hold, then
    deleted: the book is as it was before. *)
Theorem add_record_then_delete (book : AddressBook) (record : Record_) :
  find book (Name_value (name record)) = None ->
  delete (add_record book record) (Name_value (name record)) = (true, book).
Proof.
  unfold find, add_record, delete. simpl. intros G.
  rewrite dict_set_absent by exact G.
  assert (P : forall (d : dict Record_) k v,
             dict_get d k = None -> dict_pop (d ++ [(k, v)]) k = (Some v, d)).
  { induction d as [|[k0 w] d IH]; simpl; intros k v H.
    - now rewrite str_eqb_refl.
    - destruct (str_eqb k0 k); [discriminate|]. now rewrite IH. }
  rewrite P by exact G. now destruct book.
Qed.

Lemma add_record_then_delete_witness :
  delete (add_record book_of_two (fresh_record (lit "cy"))) (lit "cy")
  = (true, book_of_two).
Proof.
  apply (add_record_then_delete book_of_two (fresh_record (lit "cy"))).
  reflexivity.
Defined.

(** ** What the handlers do to the book *)

Lemma dict_set_same {V} (d : dict V) (k : str) (v : V) :
  dict_get d k = Some v -> dict_set d k v = d.
Proof.
  induction d as [|[k0 w] d IH]; simpl; [discriminate|].
  destruct (str_eqb_spec k0 k) as [->|N].
  - now intros [= ->].
  - intros H. now rewrite IH.
Qed.

Lemma Phone_init_text (v : str) (p : Phone) :
  Phone_init v = Return p -> p = mkPhone v /\ phone_text v.
Proof.
  intros E. split; [exact (Phone_init_value _ _ E)|].
  destruct (phone_text_decidable v) as [T|T]; [exact T|].
  rewrite (Phone_init_bad _ T) in E. discriminate.
Qed.

Lemma Birthday_init_ok (v : str) (b : Birthday) :
  Birthday_init v = Return b -> birthday_ok b.
Proof.
  unfold Birthday_init. destruct (strptime_dmY v) as [dt|e] eqn:E.
  - intros [= <-]. apply strptime_dmY_spec in E as [_ R]. now exists dt.
  - destruct (strptime_dmY_error _ _ E) as [msg ->]. discriminate.
Qed.

Lemma add_phone_touched (r r' : Record_) (phone : str) :
  add_phone r phone = Return r' -> touched r r'.
Proof.
  unfold add_phone. destruct (Phone_init phone) as [p|] eqn:E; [|discriminate].
  intros [= <-]. apply Phone_init_text in E as [-> T].
  split; [reflexivity|]. intros [F B]. split; [|exact B].
  simpl. apply Forall_app. split; [exact F|]. now constructor.
Qed.

Lemma add_birthday_touched (r r' : Record_) (text : str) :
  add_birthday_to r text = Return r' -> touched r r'.
Proof.
  unfold add_birthday_to.
  destruct (Birthday_init text) as [b|] eqn:E; [|discriminate].
  intros [= <-]. split; [reflexivity|]. intros [F _]. split; [exact F|].
  simpl. intros b' [= <-]. exact (Birthday_init_ok _ _ E).
Qed.

Lemma edit_loop_ok (ps ps' : list Phone) (old_phone new_phone : str) :
  edit_loop ps old_phone new_phone = Return (Some ps') ->
  Forall phone_ok ps -> Forall phone_ok ps'.
Proof.
  revert ps'. induction ps as [|p ps IH]; simpl; intros ps'; [discriminate|].
  destruct (str_eqb (Phone_value p) old_phone).
  - destruct (Phone_init new_phone) as [q|] eqn:E; [|discriminate].
    simpl. intros [= <-] F. apply Phone_init_text in E as [-> T].
    inversion F; subst. now constructor.
  - destruct (edit_loop ps old_phone new_phone) as [[l|]|]; try discriminate.
    simpl. intros [= <-] F. inversion F; subst. constructor; auto.
Qed.

Lemma edit_phone_touched (r r' : Record_) (old_phone new_phone : str)
  (edited : bool) :
  edit_phone r old_phone new_phone = Return (edited, r') ->
  touched r r' /\ (edited = false -> r' = r).
Proof.
  unfold edit_phone.
  destruct (edit_loop (phones r) old_phone new_phone) as [[ps|]|] eqn:E;
    try discriminate; simpl; intros [= <- <-].
  - split; [|discriminate]. split; [reflexivity|]. intros [F B].
    split; [|exact B]. exact (edit_loop_ok _ _ _ _ E F).
  - split; [|reflexivity]. split; [reflexivity|tauto].
Qed.

Lemma effect_one (nm : str) (book book' : AddressBook) :
  slot_write nm book book' -> effect nm book book'.
Proof. intros W. eapply effect_write; [exact W|apply effect_none]. Qed.

(** [add]: nothing for an argument list that is too short or a name that
    is empty once trimmed; else a new record when the name finds nothing,
    and the phone appended when there is one and it is valid. *)
Lemma add_contact_effect (args : list str) (book : AddressBook) :
  effect (name_argument args) book (snd (add_contact args book)).
Proof.
  destruct args as [|nm [|phone extra]]; try apply effect_none.
  unfold add_contact, input_error, add_contact_func, bind, lift, book_find.
  simpl. destruct (find book nm) as [r|] eqn:F; simpl.
  - destruct (truthy phone); [|apply effect_none].
    unfold call, deref. rewrite F. unfold mutating.
    destruct (add_phone r phone) as [r'|[]] eqn:A; simpl;
      try apply effect_none.
    apply effect_one. apply (write_update nm book nm r r'); auto.
    exact (add_phone_touched _ _ _ A).
  - unfold Record_init, Name_init.
    destruct (strip nm) as [|c u] eqn:S; simpl; [apply effect_none|].
    unfold book_add_record, ret. simpl.
    assert (W : slot_write nm book
                  (add_record book (fresh_record (strip nm)))).
    { apply write_fresh. congruence. }
    rewrite S in W. unfold fresh_record in W.
    destruct (truthy phone); [|simpl; now apply effect_one].
    unfold call, deref, find, add_record. simpl.
    rewrite dict_get_set_same. unfold mutating.
    destruct (add_phone (mkRecord (mkName (c :: u)) [] None) phone)
      as [r'|[]] eqn:A; simpl; try (now apply effect_one).
    eapply effect_write; [exact W|]. apply effect_one.
    apply (write_update nm
             (add_record book (mkRecord (mkName (c :: u)) [] None))
             (c :: u) (mkRecord (mkName (c :: u)) [] None) r').
    + right. now rewrite S.
    + unfold find, add_record. simpl. apply dict_get_set_same.
    + exact (add_phone_touched _ _ _ A).
Qed.

Lemma add_birthday_effect (args : list str) (book : AddressBook) :
  effect (name_argument args) book (snd (add_birthday args book)).
Proof.
  destruct args as [|nm [|text extra]]; try apply effect_none.
  unfold add_birthday, input_error, add_birthday_func, bind, lift, book_find.
  simpl. destruct (find book nm) as [r|] eqn:F; simpl.
  - unfold call, deref. rewrite F. unfold mutating.
    destruct (add_birthday_to r text) as [r'|[]] eqn:A; simpl;
      try apply effect_none.
    apply effect_one. apply (write_update nm book nm r r'); auto.
    exact (add_birthday_touched _ _ _ A).
  - unfold Record_init, Name_init.
    destruct (strip nm) as [|c u] eqn:S; simpl; [apply effect_none|].
    unfold book_add_record, ret. simpl.
    assert (W : slot_write nm book
                  (add_record book (fresh_record (strip nm)))).
    { apply write_fresh. congruence. }
    rewrite S in W. unfold fresh_record in W.
    unfold call, deref, find, add_record. simpl.
    rewrite dict_get_set_same. unfold mutating.
    destruct (add_birthday_to (mkRecord (mkName (c :: u)) [] None) text)
      as [r'|[]] eqn:A; simpl; try (now apply effect_one).
    eapply effect_write; [exact W|]. apply effect_one.
    apply (write_update nm
             (add_record book (mkRecord (mkName (c :: u)) [] None))
             (c :: u) (mkRecord (mkName (c :: u)) [] None) r').
    + right. now rewrite S.
    + unfold find, add_record. simpl. apply dict_get_set_same.
    + exact (add_birthday_touched _ _ _ A).
Qed.

Lemma change_contact_effect (args : list str) (book : AddressBook) :
  effect (name_argument args) book (snd (change_contact args book)).
Proof.
  destruct args as [|nm [|old_phone [|new_phone extra]]];
    try apply effect_none.
  unfold change_contact, input_error, change_contact_func, bind, lift,
    book_find.
  simpl. destruct (find book nm) as [r|] eqn:F; simpl; [|apply effect_none].
  unfold call, deref. rewrite F.
  destruct (edit_phone r old_phone new_phone) as [[edited r']|[]] eqn:A;
    simpl; try apply effect_none.
  apply edit_phone_touched in A as [T _].
  destruct edited; simpl; apply effect_one;
    apply (write_update nm book nm r r'); auto.
Qed.

(** The handlers that only read. *)
Lemma readers_leave_book (today : date) (op : operation) (args : list str)
  (book : AddressBook) :
  reads_only op = true -> snd (perform today op args book) = book.
Proof.
  destruct op; try discriminate; intros _; simpl.
  - unfold show_phone, input_error, show_phone_func, bind, lift, book_find.
    destruct args as [|nm extra]; simpl; [reflexivity|].
    destruct (find book nm) as [r|] eqn:F; simpl; [|reflexivity].
    unfold deref. rewrite F. now destruct (phones r).
  - unfold show_all, input_error, show_all_func, bind, get_book. simpl.
    now destruct (data book).
  - unfold show_birthday, input_error, show_birthday_func, bind, lift,
      book_find.
    destruct args as [|nm extra]; simpl; [reflexivity|].
    destruct (find book nm) as [r|] eqn:F; simpl; [|reflexivity].
    unfold deref. rewrite F. now destruct (birthday r).
  - unfold birthdays, input_error, birthdays_func, bind, get_book, lift.
    simpl. destruct (get_upcoming_birthdays today book) as [[|]|[]];
      reflexivity.
Qed.

Lemma perform_effect (today : date) (op : operation) (args : list str)
  (book : AddressBook) :
  effect (name_argument args) book (snd (perform today op args book)).
Proof.
  destruct op; try (rewrite readers_leave_book by reflexivity;
                    apply effect_none); simpl.
  - apply add_contact_effect.
  - apply change_contact_effect.
  - apply add_birthday_effect.
Qed.

Lemma fresh_record_ok (nm : str) :
  strip nm <> [] -> record_ok (strip nm) (fresh_record (strip nm)).
Proof.
  intros N. split; [reflexivity|]. split; [split; [apply strip_idem|exact N]|].
  split; [constructor|discriminate].
Qed.

Lemma slot_write_ok (nm : str) (book book' : AddressBook) :
  slot_write nm book book' -> book_ok book -> book_ok book'.
Proof.
  intros W [D O]. destruct W as [N|key r r' K F [Tn Tf]].
  - split; [now apply dict_set_nodup|].
    intros key r I. apply dict_set_in in I as [[-> ->]|I]; [|now apply O].
    now apply fresh_record_ok.
  - split; [now apply dict_set_nodup|].
    intros k x I. apply dict_set_in in I as [[-> ->]|I]; [|now apply O].
    destruct (O key r (dict_get_in _ _ _ F)) as (En & P & Fo).
    split; [now rewrite Tn|]. split; [exact P|now apply Tf].
Qed.

Lemma slot_write_names (nm : str) (book book' : AddressBook) :
  slot_write nm book book' -> keeps_names book book'.
Proof.
  intros W. unfold keeps_names.
  destruct W as [N|key r r' K F T]; simpl; rewrite dict_keys_set.
  - destruct (dict_get _ _); [exists []; now rewrite app_nil_r|eauto].
  - unfold find in F. rewrite F. exists []. now rewrite app_nil_r.
Qed.

Lemma slot_write_elsewhere (nm : str) (book book' : AddressBook) (k : str) :
  slot_write nm book book' -> k <> nm -> k <> strip nm ->
  find book' k = find book k.
Proof.
  intros W N1 N2. unfold find.
  destruct W as [N|key r r' K F T]; simpl; rewrite dict_get_set.
  - destruct (str_eqb_spec (strip nm) k); congruence.
  - destruct (str_eqb_spec key k); [|reflexivity]. destruct K; congruence.
Qed.

(** The handlers keep the book well formed: after any handler, called with
    any arguments, the names of the book are still distinct, every record is
    under its own name, a name [Name] would keep, every phone is one [Phone]
    accepts and every birthday is the text that [strftime] writes for a
    date of the calendar. *)
Theorem handlers_keep_book_ok (today : date) (op : operation)
  (args : list str) (book : AddressBook) :
  book_ok book -> book_ok (snd (perform today op args book)).
Proof.
  intros B. pose proof (perform_effect today op args book) as E.
  induction E as [|book book1 book2 W E IH]; [exact B|].
  apply IH. exact (slot_write_ok _ _ _ W B).
Qed.

Lemma book_of_two_ok : book_ok book_of_two.
Proof.
  split; [repeat constructor; simpl; intuition discriminate|].
  intros key r [[= <- <-]|[[= <- <-]|[]]].
  - split; [reflexivity|]. split; [split; [reflexivity|discriminate]|].
    split.
    + apply Forall_cons; [|apply Forall_cons; [|apply Forall_nil]];
        (split; [reflexivity|]); intros c I;
        repeat (destruct I as [<-|I]; [reflexivity|]); destruct I.
    + intros b [= <-]. exists (mkdate 1990 6 1). split; [|reflexivity].
      vm_compute. repeat split; discriminate.
  - split; [reflexivity|]. split; [split; [reflexivity|discriminate]|].
    split; [constructor|discriminate].
Qed.

Lemma handlers_keep_book_ok_witness :
  book_ok (snd (perform (mkdate 2023 6 1) op_add [lit " cy "; phone_a]
                  book_of_two)).
Proof.
  exact (handlers_keep_book_ok (mkdate 2023 6 1) op_add [lit " cy "; phone_a]
           book_of_two book_of_two_ok).
Defined.

Lemma slot_write_added (nm : str) (book book' : AddressBook) :
  slot_write nm book book' ->
  exists more, dict_keys (data book') = dict_keys (data book) ++ more
               /\ added_names nm book more.
Proof.
  intros W. destruct W as [N|key r r' K F T]; simpl; rewrite dict_keys_set.
  - destruct (dict_get (data book) (strip nm)) eqn:G.
    + exists []. rewrite app_nil_r. split; [reflexivity|now left].
    + exists [strip nm]. split; [reflexivity|]. right.
      split; [reflexivity|]. now apply dict_get_none.
  - unfold find in F. rewrite F. exists []. rewrite app_nil_r.
    split; [reflexivity|now left].
Qed.

Lemma effect_added (nm : str) (book book' : AddressBook) :
  effect nm book book' ->
  exists more, dict_keys (data book') = dict_keys (data book) ++ more
               /\ added_names nm book more.
Proof.
  induction 1 as [book|book book1 book2 W E (m2 & E2 & A2)].
  - exists []. rewrite app_nil_r. split; [reflexivity|now left].
  - destruct (slot_write_added _ _ _ W) as (m1 & E1 & A1).
    exists (m1 ++ m2). split; [now rewrite E2, E1, app_assoc|].
    destruct A1 as [->|[-> N1]], A2 as [->|[-> N2]]; simpl.
    + now left.
    + right. split; [reflexivity|]. now rewrite E1, app_nil_r in N2.
    + right. now split.
    + exfalso. apply N2. rewrite E1. apply in_or_app. right. now left.
Qed.

(** No handler removes a contact, renames one or changes their order: the
    names of the book after the call are the names before it, followed by
    at most one new name, which is then the trimmed first argument. *)
Theorem handlers_keep_names (today : date) (op : operation)
  (args : list str) (book : AddressBook) :
  exists more,
    dict_keys (data (snd (perform today op args book)))
    = dict_keys (data book) ++ more
    /\ (more = []
        \/ (more = [strip (name_argument args)]
            /\ ~ In (strip (name_argument args)) (dict_keys (data book)))).
Proof. exact (effect_added _ _ _ (perform_effect today op args book)). Qed.

(** A handler touches the record of one name only, the one it is called
    for (as given, or trimmed): every other name finds after the call what
    it found before. *)
Theorem handlers_touch_one_name (today : date) (op : operation)
  (args : list str) (book : AddressBook) (k : str) :
  k <> name_argument args -> k <> strip (name_argument args) ->
  find (snd (perform today op args book)) k = find book k.
Proof.
  intros N1 N2. pose proof (perform_effect today op args book) as E.
  induction E as [|book book1 book2 W E IH]; [reflexivity|].
  rewrite IH. exact (slot_write_elsewhere _ _ _ _ W N1 N2).
Qed.

Lemma handlers_touch_one_name_witness :
  find (snd (perform (mkdate 2023 6 1) op_add_birthday
               [lit "bob"; lit "1.2.2000"] book_of_two)) (lit "ann")
  = find book_of_two (lit "ann").
Proof.
  apply (handlers_touch_one_name (mkdate 2023 6 1) op_add_birthday
           [lit "bob"; lit "1.2.2000"] book_of_two (lit "ann"));
    discriminate.
Defined.

(** ** The handlers answer *)

Lemma caught_ValueError (msg : str) : caught (ValueError msg).
Proof. right. right. now exists msg. Qed.

Lemma input_error_answers (func : M str) (book : AddressBook) :
  (forall e, fst (func book) = Raise e -> caught e) ->
  exists msg, fst (input_error func book) = Return msg.
Proof.
  intros C. unfold input_error.
  destruct (func book) as [[msg|e] book'] eqn:F; simpl in *; [eauto|].
  destruct (C e eq_refl) as [->|[->|[msg ->]]]; simpl; eauto.
Qed.

Lemma add_phone_raises (r : Record_) (phone : str) (e : exn) :
  add_phone r phone = Raise e -> caught e.
Proof.
  unfold add_phone. destruct (Phone_init phone) eqn:P; [discriminate|].
  intros [= <-]. rewrite (Phone_init_error _ _ P). apply caught_ValueError.
Qed.

Lemma add_birthday_raises (r : Record_) (text : str) (e : exn) :
  add_birthday_to r text = Raise e -> caught e.
Proof.
  unfold add_birthday_to. destruct (Birthday_init text) eqn:P; [discriminate|].
  intros [= <-]. rewrite (Birthday_init_error _ _ P). apply caught_ValueError.
Qed.

Lemma edit_loop_raises (ps : list Phone) (old_phone new_phone : str) (e : exn) :
  edit_loop ps old_phone new_phone = Raise e -> caught e.
Proof.
  induction ps as [|p ps IH]; simpl; [discriminate|].
  destruct (str_eqb (Phone_value p) old_phone).
  - destruct (Phone_init new_phone) eqn:P; [discriminate|].
    intros [= <-]. rewrite (Phone_init_error _ _ P). apply caught_ValueError.
  - destruct (edit_loop ps old_phone new_phone) as [?|e'];
      [discriminate|]. intros [= <-]. now apply IH.
Qed.

Lemma edit_phone_raises (r : Record_) (old_phone new_phone : str) (e : exn) :
  edit_phone r old_phone new_phone = Raise e -> caught e.
Proof.
  unfold edit_phone.
  destruct (edit_loop (phones r) old_phone new_phone) as [[?|]|e'] eqn:L;
    try discriminate.
  intros [= <-]. exact (edit_loop_raises _ _ _ _ L).
Qed.

Lemma add_contact_func_raises (args : list str) (book : AddressBook) (e : exn) :
  fst (add_contact_func args book) = Raise e -> caught e.
Proof.
  unfold add_contact_func, bind, lift, book_find.
  destruct args as [|nm [|phone extra]]; simpl;
    try (intros [= <-]; apply caught_ValueError).
  destruct (find book nm) as [r|] eqn:F; simpl.
  - destruct (truthy phone); [|discriminate].
    unfold call, deref. rewrite F. unfold mutating.
    destruct (add_phone r phone) as [r'|e'] eqn:A; simpl; [discriminate|].
    intros [= <-]. exact (add_phone_raises _ _ _ A).
  - unfold Record_init, Name_init.
    destruct (strip nm) as [|c u]; simpl;
      [intros [= <-]; apply caught_ValueError|].
    unfold book_add_record, ret. simpl.
    destruct (truthy phone); [|discriminate].
    unfold call, deref, find, add_record. simpl.
    rewrite dict_get_set_same. unfold mutating.
    destruct (add_phone _ phone) as [r'|e'] eqn:A; simpl; [discriminate|].
    intros [= <-]. exact (add_phone_raises _ _ _ A).
Qed.

Lemma add_birthday_func_raises (args : list str) (book : AddressBook)
  (e : exn) :
  fst (add_birthday_func args book) = Raise e -> caught e.
Proof.
  unfold add_birthday_func, bind, lift, book_find.
  destruct args as [|nm [|text extra]]; simpl;
    try (intros [= <-]; apply caught_ValueError).
  destruct (find book nm) as [r|] eqn:F; simpl.
  - unfold call, deref. rewrite F. unfold mutating.
    destruct (add_birthday_to r text) as [r'|e'] eqn:A; simpl;
      [discriminate|].
    intros [= <-]. exact (add_birthday_raises _ _ _ A).
  - unfold Record_init, Name_init.
    destruct (strip nm) as [|c u]; simpl;
      [intros [= <-]; apply caught_ValueError|].
    unfold book_add_record, ret. simpl.
    unfold call, deref, find, add_record. simpl.
    rewrite dict_get_set_same. unfold mutating.
    destruct (add_birthday_to _ text) as [r'|e'] eqn:A; simpl;
      [discriminate|].
    intros [= <-]. exact (add_birthday_raises _ _ _ A).
Qed.

Lemma change_contact_func_raises (args : list str) (book : AddressBook)
  (e : exn) :
  fst (change_contact_func args book) = Raise e -> caught e.
Proof.
  unfold change_contact_func, bind, lift, book_find.
  destruct args as [|nm [|old_phone [|new_phone extra]]]; simpl;
    try (intros [= <-]; apply caught_ValueError).
  destruct (find book nm) as [r|] eqn:F; simpl.
  - unfold call, deref. rewrite F.
    destruct (edit_phone r old_phone new_phone) as [[[] r']|e'] eqn:A; simpl;
      try discriminate.
    intros [= <-]. exact (edit_phone_raises _ _ _ _ A).
  - intros [= <-]. now left.
Qed.

Lemma show_phone_func_raises (args : list str) (book : AddressBook) (e : exn) :
  fst (show_phone_func args book) = Raise e -> caught e.
Proof.
  unfold show_phone_func, bind, lift, book_find.
  destruct args as [|nm extra]; simpl;
    try (intros [= <-]; apply caught_ValueError).
  destruct (find book nm) as [r|] eqn:F; simpl.
  - unfold deref. rewrite F. destruct (phones r); discriminate.
  - intros [= <-]. now left.
Qed.

Lemma show_birthday_func_raises (args : list str) (book : AddressBook)
  (e : exn) :
  fst (show_birthday_func args book) = Raise e -> caught e.
Proof.
  unfold show_birthday_func, bind, lift, book_find.
  destruct args as [|nm extra]; simpl;
    try (intros [= <-]; apply caught_ValueError).
  destruct (find book nm) as [r|] eqn:F; simpl.
  - unfold deref. rewrite F. destruct (birthday r); discriminate.
  - intros [= <-]. now left.
Qed.

(** Before the last year of the calendar, nothing but [ValueError] comes out
    of the loop over the birthdays. *)
Lemma birthday_step_raises (today end_day : date) (acc : dict (list str))
  (record : Record_) (e : exn) :
  real_date today -> (year today < MAXYEAR)%Z -> real_date end_day ->
  toordinal end_day = (toordinal today + 7)%Z ->
  birthday_step today end_day acc record = Raise e -> caught e.
Proof.
  intros R Y Re Oe. unfold birthday_step.
  destruct (birthday record) as [b|]; [|discriminate].
  destruct (as_date b) as [bd|e0] eqn:A; simpl.
  2:{ intros [= <-]. destruct (strptime_dmY_error _ _ A) as [m ->].
      apply caught_ValueError. }
  destruct (date_new (year today) (month bd) (day bd)) as [t1|e1] eqn:E1;
    simpl.
  2:{ intros [= <-]. destruct (date_new_error _ _ _ _ E1) as [m ->].
      apply caught_ValueError. }
  destruct (if date_lt t1 today
            then date_new (year today + 1) (month bd) (day bd)
            else Return t1) as [t2|e2] eqn:E2; simpl.
  2:{ intros [= <-]. destruct (date_lt t1 today); [|discriminate].
      destruct (date_new_error _ _ _ _ E2) as [m ->].
      apply caught_ValueError. }
  destruct (occurrence_date _ _ _ _ _ R E1 E2) as [R2 O2].
  rewrite (date_le_toordinal _ _ R R2), (date_lt_toordinal _ _ R2 Re), Oe.
  destruct ((toordinal today <=? toordinal t2)%Z
            && (toordinal t2 <? toordinal today + 7)%Z) eqn:W;
    [|discriminate].
  apply andb_true_iff in W as [W1 W2].
  apply Z.leb_le in W1. apply Z.ltb_lt in W2.
  pose proof (toordinal_before_last_year today R Y) as L.
  pose proof (toordinal_bounds today R) as T.
  destruct (date_add_total t2 2 ltac:(lia)) as [c2 C2].
  destruct (date_add_total t2 1 ltac:(lia)) as [c1 C1].
  rewrite C2, C1.
  destruct (weekday t2 =? 5)%Z; [discriminate|].
  destruct (weekday t2 =? 6)%Z; discriminate.
Qed.

Lemma upcoming_birthdays_raises (today : date) (book : AddressBook) (e : exn) :
  real_date today -> (year today < MAXYEAR)%Z ->
  get_upcoming_birthdays today book = Raise e -> caught e.
Proof.
  intros R Y. unfold get_upcoming_birthdays.
  pose proof (toordinal_before_last_year today R Y) as L.
  pose proof (toordinal_bounds today R) as B.
  destruct (date_add_total today 7 ltac:(lia)) as [end_day E].
  rewrite E. simpl. apply date_add_spec in E as [Re Oe].
  generalize (@nil (str * list str)).
  induction (dict_values (data book)) as [|record items IH]; intros acc;
    simpl; [discriminate|].
  destruct (birthday_step today end_day acc record) as [acc'|e'] eqn:S;
    simpl.
  - apply IH.
  - intros [= <-]. exact (birthday_step_raises _ _ _ _ _ R Y Re Oe S).
Qed.

Lemma perform_answers (today : date) (op : operation) (args : list str)
  (book : AddressBook) :
  (op = op_birthdays -> real_date today /\ (year today < MAXYEAR)%Z) ->
  exists msg, fst (perform today op args book) = Return msg.
Proof.
  intros H. destruct op; simpl; try (apply input_error_answers; intros e).
  - apply add_contact_func_raises.
  - apply change_contact_func_raises.
  - apply show_phone_func_raises.
  - unfold show_all_func, bind, get_book. simpl.
    destruct (data book); discriminate.
  - apply add_birthday_func_raises.
  - apply show_birthday_func_raises.
  - destruct (H eq_refl) as [R Y].
    unfold birthdays_func, bind, get_book, lift. simpl.
    destruct (get_upcoming_birthdays today book) as [[|]|e'] eqn:G; simpl;
      try discriminate.
    intros [= <-]. exact (upcoming_birthdays_raises _ _ _ R Y G).
Qed.

(** Every handler answers with a message: whatever the arguments and the
    book, nothing is raised past [input_error].  For [birthdays] this needs
    a date before the last year of the calendar (there, adding days to a
    date can overflow, which [input_error] does not catch). *)
Theorem handlers_answer (today : date) (op : operation) (args : list str)
  (book : AddressBook) :
  (op = op_birthdays -> real_date today /\ (year today < MAXYEAR)%Z) ->
  exists msg, fst (perform today op args book) = Return msg.
Proof. apply perform_answers. Qed.

Lemma handlers_answer_witness :
  exists msg,
    fst (perform (mkdate 2023 6 1) op_birthdays [] leap_day_book) = Return msg.
Proof.
  apply (handlers_answer (mkdate 2023 6 1) op_birthdays [] leap_day_book).
  intros _. split; [exact thursday_is_real|reflexivity].
Defined.

(** The handlers [phone], [all], [show-birthday] and [birthdays] leave the
    book as it was, whatever they answer. *)
Theorem readers_do_not_write (today : date) (op : operation)
  (args : list str) (book : AddressBook) :
  reads_only op = true -> snd (perform today op args book) = book.
Proof. apply readers_leave_book. Qed.

Lemma readers_do_not_write_witness :
  snd (perform (mkdate 2023 6 1) op_birthdays [] leap_day_book) = leap_day_book.
Proof.
  exact (readers_do_not_write (mkdate 2023 6 1) op_birthdays [] leap_day_book
           eq_refl).
Defined.

(** ** [change], and reading back what was stored *)

Lemma book_eta (book : AddressBook) : mkAddressBook (data book) = book.
Proof. now destruct book. Qed.

(** [change name old new]: an unknown name is reported and so is an old
    phone the record does not have, the book staying as it was; otherwise
    the first phone equal to [old] is replaced by [new] in that record when
    [new] is a phone, and the validation message is answered, the book
    staying as it was, when it is not. *)
Theorem change_contact_spec (book : AddressBook) (nm old_phone new_phone : str)
  (extra : list str) :
  let args := nm :: old_phone :: new_phone :: extra in
  (find book nm = None ->
   change_contact args book = (Return (lit "Contact not found."), book))
  /\ (forall r,
        find book nm = Some r ->
        ((forall p, In p (phones r) -> Phone_value p <> old_phone) ->
         change_contact args book
         = (Return (lit "Old phone not found."), book))
        /\ (forall pre p post,
              phones r = pre ++ p :: post ->
              (forall q, In q pre -> Phone_value q <> old_phone) ->
              Phone_value p = old_phone ->
              (phone_text new_phone ->
               change_contact args book
               = (Return (lit "Contact updated."),
                  mkAddressBook
                    (dict_set (data book) nm
                       (mkRecord (name r) (pre ++ mkPhone new_phone :: post)
                          (birthday r)))))
              /\ (~ phone_text new_phone ->
                  change_contact args book
                  = (Return (lit "Phone must contain 10 digits."), book)))).
Proof.
  unfold change_contact, input_error, change_contact_func, bind, lift,
    book_find. simpl. split.
  - intros F. now rewrite F.
  - intros r F. rewrite F. simpl. unfold call, deref. rewrite F.
    unfold edit_phone. split.
    + intros H. rewrite (edit_loop_no_match _ _ _ H). simpl.
      unfold find in F. now rewrite (dict_set_same _ _ _ F), book_eta.
    + intros pre p post E H V. rewrite E.
      rewrite (edit_loop_first_match _ _ _ _ new_phone H V). split; intros T.
      * now rewrite (Phone_init_ok _ T).
      * now rewrite (Phone_init_bad _ T).
Qed.

Lemma change_contact_spec_witness :
  change_contact [lit "cy"; phone_a; phone_b] book_of_two
  = (Return (lit "Contact not found."), book_of_two)
  /\ change_contact [lit "ann"; lit "5555555555"; phone_b] book_of_two
     = (Return (lit "Old phone not found."), book_of_two)
  /\ change_contact [lit "ann"; phone_b; lit "12"] book_of_two
     = (Return (lit "Phone must contain 10 digits."), book_of_two)
  /\ fst (change_contact [lit "ann"; phone_b; lit "5555555555"] book_of_two)
     = Return (lit "Contact updated.").
Proof.
  assert (H : forall q, In q [mkPhone phone_a] -> Phone_value q <> phone_b).
  { intros q [<-|[]]. discriminate. }
  destruct (change_contact_spec book_of_two (lit "cy") phone_a phone_b [])
    as [A _].
  destruct (change_contact_spec book_of_two (lit "ann") (lit "5555555555")
              phone_b []) as [_ B].
  destruct (B _ eq_refl) as [B1 _].
  destruct (change_contact_spec book_of_two (lit "ann") phone_b (lit "12") [])
    as [_ C].
  destruct (C _ eq_refl) as [_ C1].
  destruct (C1 [mkPhone phone_a] (mkPhone phone_b) [] eq_refl H eq_refl)
    as [_ C2].
  destruct (change_contact_spec book_of_two (lit "ann") phone_b
              (lit "5555555555") []) as [_ D].
  destruct (D _ eq_refl) as [_ D1].
  destruct (D1 [mkPhone phone_a] (mkPhone phone_b) [] eq_refl H eq_refl)
    as [D2 _].
  split; [apply A; reflexivity|]. split; [|split].
  - apply B1. intros p [<-|[<-|[]]]; discriminate.
  - apply C2. intros [L _]. discriminate.
  - rewrite D2; [reflexivity|]. split; [reflexivity|].
    intros c I. repeat (destruct I as [<-|I]; [reflexivity|]). destruct I.
Defined.

Lemma add_birthday_func_known (book : AddressBook) (nm text : str)
  (extra : list str) (r : Record_) :
  find book nm = Some r ->
  add_birthday_func (nm :: text :: extra) book
  = match Birthday_init text with
    | Return b =>
        (Return (lit "Birthday added."),
         mkAddressBook
           (dict_set (data book) nm (mkRecord (name r) (phones r) (Some b))))
    | Raise e => (Raise e, book)
    end.
Proof.
  intros F. unfold add_birthday_func, bind, lift, book_find; simpl.
  rewrite F; simpl. unfold call, deref. rewrite F.
  unfold mutating, add_birthday_to; simpl.
  destruct (Birthday_init text); reflexivity.
Qed.

Lemma show_birthday_found (book : AddressBook) (nm : str) (r : Record_) :
  find book nm = Some r ->
  show_birthday [nm] book
  = (Return (match birthday r with
             | Some b => Birthday_value b
             | None => lit "No birthday set."
             end), book).
Proof.
  intros F. unfold show_birthday, input_error, show_birthday_func, bind, lift,
    book_find. simpl. rewrite F. simpl. unfold deref. rewrite F.
  now destruct (birthday r).
Qed.

Lemma show_phone_found (book : AddressBook) (nm : str) (r : Record_) :
  find book nm = Some r ->
  show_phone [nm] book
  = (Return (match phones r with
             | [] => lit "No phones."
             | ps => join (lit "; ") (map Phone_value ps)
             end), book).
Proof.
  intros F. unfold show_phone, input_error, show_phone_func, bind, lift,
    book_find. simpl. rewrite F. simpl. unfold deref. rewrite F.
  now destruct (phones r).
Qed.

(** A birthday that was set is the birthday shown: after [add-birthday]
    with a date text that [Birthday] accepts, for a name the book has or a
    new name that needs no trimming, [show-birthday] answers the text that
    [Birthday] stored for it (the date as [strftime] writes it, not the text
    as it was typed), whatever birthday the contact had before. *)
Theorem add_birthday_then_show (book : AddressBook) (nm text : str)
  (b : Birthday) :
  find book nm <> None \/ plain_name nm ->
  Birthday_init text = Return b ->
  fst (add_birthday [nm; text] book) = Return (lit "Birthday added.")
  /\ fst (show_birthday [nm] (snd (add_birthday [nm; text] book)))
     = Return (Birthday_value b).
Proof.
  intros K B. unfold add_birthday, input_error.
  destruct (find book nm) as [r|] eqn:F.
  - rewrite (add_birthday_func_known _ _ _ _ _ F), B. simpl.
    split; [reflexivity|].
    rewrite (show_birthday_found _ nm (mkRecord (name r) (phones r) (Some b)));
      [reflexivity|].
    unfold find. simpl. apply dict_get_set_same.
  - destruct K as [K|P]; [congruence|].
    rewrite (add_birthday_func_new _ _ _ F P), B. simpl.
    split; [reflexivity|].
    rewrite (show_birthday_found _ nm (mkRecord (mkName nm) [] (Some b)));
      [reflexivity|].
    unfold find in *. simpl. now apply dict_get_last.
Qed.

Lemma add_birthday_then_show_witness :
  fst (show_birthday [lit "ann"]
         (snd (add_birthday [lit "ann"; lit "7.3.1988"] book_of_two)))
  = Return (lit "07.03.1988").
Proof.
  apply (add_birthday_then_show book_of_two (lit "ann") (lit "7.3.1988")
           (mkBirthday (lit "07.03.1988"))).
  - left. discriminate.
  - reflexivity.
Defined.

(** A phone that was added is among the phones shown: after [add] with a
    text that [Phone] accepts, for a name the book has or a new name that
    needs no trimming, [phone] answers the phones the contact had, in their
    order, and then the new one, with [; ] between them. *)
Theorem add_contact_then_show (book : AddressBook) (nm phone : str) :
  find book nm <> None \/ plain_name nm ->
  phone_text phone ->
  fst (show_phone [nm] (snd (add_contact [nm; phone] book)))
  = Return (join (lit "; ")
              (match find book nm with
               | Some r => map Phone_value (phones r)
               | None => []
               end ++ [phone])).
Proof.
  intros K T. unfold add_contact, input_error.
  destruct (find book nm) as [r|] eqn:F.
  - rewrite (add_contact_func_known _ _ _ _ F), (phone_text_truthy _ T),
      (Phone_init_ok _ T). simpl.
    rewrite (show_phone_found _ nm
               (mkRecord (name r) (phones r ++ [mkPhone phone]) (birthday r)));
      [|unfold find; simpl; apply dict_get_set_same].
    cbn [fst phones].
    destruct (phones r ++ [mkPhone phone]) as [|p l] eqn:E.
    { destruct (phones r); discriminate. }
    now rewrite <- E, map_app.
  - destruct K as [K|P]; [congruence|].
    rewrite (add_contact_func_new _ _ _ F P), (phone_text_truthy _ T),
      (Phone_init_ok _ T). simpl.
    rewrite (show_phone_found _ nm (mkRecord (mkName nm) [mkPhone phone] None));
      [|unfold find in *; simpl; now apply dict_get_last].
    reflexivity.
Qed.

Lemma add_contact_then_show_witness :
  fst (show_phone [lit "ann"]
         (snd (add_contact [lit "ann"; lit "5555555555"] book_of_two)))
  = Return (lit "1234567890; 0987654321; 5555555555").
Proof.
  apply (add_contact_then_show book_of_two (lit "ann") (lit "5555555555")).
  - left. discriminate.
  - split; [reflexivity|].
    intros c I. repeat (destruct I as [<-|I]; [reflexivity|]). destruct I.
Defined.

(** ** The plan of [get_upcoming_birthdays], name by name *)

Lemma birthday_step_result (today end_day : date) (acc acc' : dict (list str))
  (record : Record_) :
  real_date today -> real_date end_day ->
  toordinal end_day = (toordinal today + 7)%Z ->
  birthday_step today end_day acc record = Return acc' ->
  acc' = match due_weekday today record with
         | Some w => setdefault_append acc w (Name_value (name record))
         | None => acc
         end.
Proof.
  intros R Re Oe. unfold birthday_step, due_weekday.
  destruct (birthday record) as [b|]; [|now intros [= <-]].
  destruct (as_date b) as [bd|] eqn:A; [|discriminate]. simpl.
  destruct (date_new (year today) (month bd) (day bd)) as [t1|] eqn:E1;
    [|discriminate]. simpl.
  destruct (if date_lt t1 today
            then date_new (year today + 1) (month bd) (day bd)
            else Return t1) as [t2|] eqn:E2; [|discriminate]. simpl.
  destruct (occurrence_date _ _ _ _ _ R E1 E2) as [R2 O2].
  rewrite (date_le_toordinal _ _ R R2), (date_lt_toordinal _ _ R2 Re), Oe, O2.
  fold (in_window today (occurrence today (month bd) (day bd))).
  set (o := occurrence today (month bd) (day bd)) in *.
  destruct (in_window today o); [|now intros [= <-]].
  unfold weekday. rewrite O2. fold (weekday_of o). unfold congratulation.
  destruct (weekday_of o =? 5)%Z.
  - destruct (date_add t2 2) as [c|] eqn:C; [|discriminate].
    apply date_add_spec in C as [_ C]. simpl. intros [= <-].
    now rewrite strftime_A_weekday_name, C, O2.
  - destruct (weekday_of o =? 6)%Z.
    + destruct (date_add t2 1) as [c|] eqn:C; [|discriminate].
      apply date_add_spec in C as [_ C]. simpl. intros [= <-].
      now rewrite strftime_A_weekday_name, C, O2.
    + simpl. intros [= <-]. now rewrite strftime_A_weekday_name, O2.
Qed.

Lemma dict_get_setdefault_append (plan : dict (list str)) (k v w : str) :
  dict_get (setdefault_append plan k v) w
  = if str_eqb k w then appended (dict_get plan k) [v] else dict_get plan w.
Proof.
  unfold setdefault_append.
  destruct (dict_get plan k) as [l|] eqn:G; rewrite dict_get_set;
    now destruct (str_eqb k w).
Qed.

Lemma appended_assoc (before : option (list str)) (a b : list str) :
  appended (appended before a) b = appended before (a ++ b).
Proof.
  destruct before as [l|]; simpl.
  - now rewrite app_assoc.
  - destruct a; simpl; [now destruct b|reflexivity].
Qed.

Lemma for_each_birthday_step_result (today end_day : date)
  (items : list Record_) (acc plan : dict (list str)) :
  real_date today -> real_date end_day ->
  toordinal end_day = (toordinal today + 7)%Z ->
  for_each (birthday_step today end_day) items acc = Return plan ->
  forall w, dict_get plan w = appended (dict_get acc w) (due_names today w items).
Proof.
  intros R Re Oe. revert acc.
  induction items as [|record items IH]; intros acc; simpl.
  - intros [= <-] w. unfold due_names. simpl.
    destruct (dict_get acc w); simpl; [now rewrite app_nil_r|reflexivity].
  - destruct (birthday_step today end_day acc record) as [acc'|] eqn:S;
      [|discriminate]. simpl.
    intros F w. rewrite (IH _ F).
    rewrite (birthday_step_result _ _ _ _ _ R Re Oe S).
    unfold due_names, due_on. simpl.
    destruct (due_weekday today record) as [k|]; [|reflexivity].
    rewrite dict_get_setdefault_append.
    destruct (str_eqb_spec k w) as [->|N]; [|reflexivity].
    simpl. apply appended_assoc.
Qed.

Lemma plan_lookup (today : date) (book : AddressBook)
  (plan : dict (list str)) :
  real_date today ->
  get_upcoming_birthdays today book = Return plan ->
  forall w,
    dict_get plan w
    = match due_names today w (dict_values (data book)) with
      | [] => None
      | names => Some names
      end.
Proof.
  intros R. unfold get_upcoming_birthdays.
  destruct (date_add today 7) as [end_day|] eqn:E; [|discriminate]. simpl.
  apply date_add_spec in E as [Re Oe].
  intros F w. rewrite (for_each_birthday_step_result _ _ _ _ _ R Re Oe F).
  simpl. now destruct (due_names today w (dict_values (data book))).
Qed.

(** The plan, key by key: under a weekday, the names of the records due on
    that weekday in the order of the book (a name once for each record that
    has it); a weekday on which nobody is due is not a key of the plan. *)
Theorem upcoming_birthdays_in_order (today : date) (book : AddressBook)
  (plan : dict (list str)) :
  real_date today ->
  get_upcoming_birthdays today book = Return plan ->
  forall w,
    dict_get plan w
    = match due_names today w (dict_values (data book)) with
      | [] => None
      | names => Some names
      end.
Proof. apply plan_lookup. Qed.

Lemma upcoming_birthdays_in_order_witness :
  exists plan,
    get_upcoming_birthdays (mkdate 2023 6 1) weekend_book = Return plan
    /\ dict_get plan (lit "Monday") = Some [lit "bob"]
    /\ dict_get plan (lit "Friday") = None.
Proof.
  eexists. split; [reflexivity|].
  split;
    rewrite (upcoming_birthdays_in_order (mkdate 2023 6 1) weekend_book _
               thursday_is_real eq_refl); reflexivity.
Defined.

Lemma congratulation_working_day (o : Z) :
  (0 <= weekday_of (congratulation o) <= 4)%Z.
Proof.
  unfold congratulation, weekday_of.
  destruct (Z.eqb_spec ((o + 6) mod 7) 5) as [E5|N5].
  - Z.div_mod_to_equations. lia.
  - destruct (Z.eqb_spec ((o + 6) mod 7) 6) as [E6|N6];
      Z.div_mod_to_equations; lia.
Qed.

Lemma weekday_name_working (o : Z) :
  In (weekday_name (congratulation o)) working_days.
Proof.
  unfold weekday_name. pose proof (congratulation_working_day o) as B.
  set (k := weekday_of (congratulation o)) in *.
  assert (K : (k = 0 \/ k = 1 \/ k = 2 \/ k = 3 \/ k = 4)%Z) by lia.
  destruct K as [->|[->|[->|[->| ->]]]]; simpl; auto 6.
Qed.

Lemma plan_keys_working (today : date) (book : AddressBook)
  (plan : dict (list str)) (w : str) :
  real_date today ->
  get_upcoming_birthdays today book = Return plan ->
  In w (dict_keys plan) -> In w working_days.
Proof.
  intros R G I.
  pose proof (plan_lookup today book plan R G w) as E.
  destruct (dict_get plan w) as [l|] eqn:D.
  2:{ apply dict_get_none in D. contradiction. }
  destruct (due_names today w (dict_values (data book))) as [|nm names] eqn:N;
    [discriminate|].
  unfold due_names in N.
  destruct (filter (due_on today w) (dict_values (data book))) as [|r rs] eqn:F;
    [discriminate|].
  assert (Ir : In r (filter (due_on today w) (dict_values (data book))))
    by (rewrite F; now left).
  apply filter_In in Ir as [_ Dr]. unfold due_on, due_weekday in Dr.
  destruct (birthday r) as [b|]; [|discriminate].
  destruct (as_date b) as [bd|]; [|discriminate].
  destruct (in_window today _); [|discriminate].
  apply str_eqb_eq in Dr. subst w. apply weekday_name_working.
Qed.

(** Nobody is congratulated on a weekend: every key of the plan is one of
    Monday, Tuesday, Wednesday, Thursday and Friday. *)
Theorem upcoming_birthdays_on_working_days (today : date) (book : AddressBook)
  (plan : dict (list str)) (w : str) :
  real_date today ->
  get_upcoming_birthdays today book = Return plan ->
  In w (dict_keys plan) -> In w working_days.
Proof. apply plan_keys_working. Qed.

Lemma upcoming_birthdays_on_working_days_witness :
  In (lit "Monday") working_days.
Proof.
  apply (upcoming_birthdays_on_working_days (mkdate 2023 6 3) weekend_book
           [(lit "Monday", [lit "bob"]); (lit "Thursday", [lit "dan"])]
           (lit "Monday") ltac:(vm_compute; repeat split; discriminate)
           eq_refl).
  now left.
Defined.

Lemma flat_map_nil {A B} (f : A -> list B) (l : list A) :
  (forall x, In x l -> f x = []) -> flat_map f l = [].
Proof.
  induction l as [|x l IH]; simpl; intros H; [reflexivity|].
  rewrite H, IH; auto.
Qed.

Lemma working_days_in_order (w : str) : In w working_days -> In w days_order.
Proof.
  intros I. repeat (destruct I as [<-|I]; [simpl; auto 8|]). destruct I.
Qed.

Lemma birthdays_func_eq (today : date) (args : list str) (book : AddressBook) :
  birthdays_func today args book
  = match get_upcoming_birthdays today book with
    | Return plan =>
        (Return
           (match plan with
            | [] => lit "No birthdays next week."
            | _ =>
                join newline
                  (flat_map
                     (fun day =>
                        match dict_get plan day with
                        | Some names =>
                            [day ++ lit ": " ++ join (lit ", ") names]
                        | None => []
                        end) days_order)
            end), book)
    | Raise e => (Raise e, book)
    end.
Proof.
  unfold birthdays_func, bind, get_book, lift. cbn [fst snd].
  destruct (get_upcoming_birthdays today book) as [[|]|]; reflexivity.
Qed.

(** The answer of [birthdays], when the plan can be computed: one line for
    each day from Monday to Sunday on which somebody is due, in that order,
    made of the day, a colon and the names of the contacts due that day in
    the order of the book with commas between them; and the fixed sentence
    when nobody is due.  The book is not touched. *)
Theorem birthdays_spec (today : date) (args : list str) (book : AddressBook)
  (plan : dict (list str)) :
  real_date today ->
  get_upcoming_birthdays today book = Return plan ->
  birthdays today args book
  = (Return (match birthday_lines today (dict_values (data book)) with
             | [] => lit "No birthdays next week."
             | lines => join newline lines
             end), book).
Proof.
  intros R G.
  pose proof (plan_lookup today book plan R G) as L.
  pose proof (plan_keys_working today book plan) as W.
  unfold birthdays, input_error. rewrite birthdays_func_eq, G.
  assert (E : flat_map
                (fun day =>
                   match dict_get plan day with
                   | Some names => [day ++ lit ": " ++ join (lit ", ") names]
                   | None => []
                   end) days_order
              = birthday_lines today (dict_values (data book))).
  { unfold birthday_lines. apply flat_map_ext. intros day. rewrite L.
    now destruct (due_names today day (dict_values (data book))). }
  rewrite E. clear E. f_equal. f_equal.
  destruct plan as [|[k l] plan'].
  - unfold birthday_lines. rewrite flat_map_nil; [reflexivity|].
    intros day _. specialize (L day). simpl in L.
    now destruct (due_names today day (dict_values (data book))).
  - assert (N : birthday_lines today (dict_values (data book)) <> []).
    { specialize (W k R G (or_introl eq_refl)).
      apply working_days_in_order in W.
      pose proof (L k) as Lk. simpl in Lk. rewrite str_eqb_refl in Lk.
      destruct (due_names today k (dict_values (data book))) as [|n ns] eqn:D;
        [discriminate|].
      intros Z.
      assert (I : In (k ++ lit ": " ++ join (lit ", ") (n :: ns))
                    (birthday_lines today (dict_values (data book)))).
      { unfold birthday_lines. apply in_flat_map. exists k.
        split; [exact W|]. rewrite D. now left. }
      rewrite Z in I. destruct I. }
    now destruct (birthday_lines today (dict_values (data book))).
Qed.

Lemma birthdays_spec_witness :
  birthdays (mkdate 2023 6 1) [] weekend_book
  = (Return (lit "Monday: bob" ++ newline ++ lit "Thursday: ann"),
     weekend_book).
Proof.
  exact (birthdays_spec (mkdate 2023 6 1) [] weekend_book _ thursday_is_real
           eq_refl).
Defined.

(** ** The session *)

Lemma print_result_spec (r : outcome str * AddressBook) (fs : filesystem)
  (t : turn_result) :
  print_result r fs = Return t ->
  exists text, fst r = Return text /\ t = ([text], snd r, fs, true).
Proof.
  destruct r as [[text|e] book]; simpl; [|discriminate].
  intros [= <-]. now exists text.
Qed.

(** A turn that goes on has left the file system alone; the turn that stops
    has written the book, as it was, to the state file. *)
Lemma turn_writes (P : Pickler) (lower : str -> str) (user_input : str)
  (today : date) (book book' : AddressBook) (fs fs' : filesystem)
  (lines : list str) (go_on : bool) :
  turn lower user_input today book fs = Return (lines, book', fs', go_on) ->
  if go_on then fs' = fs
  else book' = book /\ save_data book default_filename fs = Return fs'.
Proof.
  unfold turn. destruct (parse_input lower user_input) as [[command args]|];
    [|discriminate]. simpl.
  destruct (is_command command "close" || is_command command "exit").
  { destruct (save_data book default_filename fs) as [fs1|]; [|discriminate].
    simpl. intros [= <- <- <- <-]. auto. }
  repeat match goal with
         | |- (if ?c then _ else _) = _ -> _ => destruct c
         end;
    try (intros [= <- <- <- <-]; reflexivity);
    intros H; apply print_result_spec in H as (text & _ & [= -> -> -> ->]);
    reflexivity.
Qed.

Lemma main_loop_writes (P : Pickler) (lower : str -> str)
  (inputs : list (str * date)) (book : AddressBook) (fs : filesystem) :
  match ending (main_loop lower inputs book fs) with
  | Return book' =>
      save_data book' default_filename fs
      = Return (fs_left (main_loop lower inputs book fs))
  | Raise _ => fs_left (main_loop lower inputs book fs) = fs
  end.
Proof.
  revert book. induction inputs as [|[user_input today] rest IH]; intros book;
    simpl; [reflexivity|].
  destruct (turn lower user_input today book fs)
    as [[[[lines book'] fs'] go_on]|e] eqn:T; [|reflexivity].
  apply turn_writes in T. destruct go_on.
  - subst fs'. exact (IH book').
  - destruct T as [-> S]. exact S.
Qed.

(** The state file is written by [close] and [exit] and by nothing else: a
    run that ends at [close] or [exit] leaves the file system that saving
    the last book to the one found at the start gives, and a run that ends
    in any other way (the input running out, an exception) leaves the file
    system as it found it, whatever was added to the book. *)
Theorem main_writes_at_exit_only (P : Pickler) (lower : str -> str)
  (inputs : list (str * date)) (fs : filesystem) :
  match ending (main lower inputs fs) with
  | Return book =>
      save_data book default_filename fs
      = Return (fs_left (main lower inputs fs))
  | Raise _ => fs_left (main lower inputs fs) = fs
  end.
Proof.
  unfold main. destruct (load_data default_filename fs) as [book|e];
    [|reflexivity].
  exact (main_loop_writes P lower inputs book fs).
Qed.

Lemma load_saved (P : Pickler) (book : AddressBook) (fs fs' : filesystem) :
  pickle_laws P ->
  (exists start, load_data default_filename fs = Return start) ->
  save_data book default_filename fs = Return fs' ->
  load_data default_filename fs' = Return book.
Proof.
  intros [LD _] [start L] S. unfold save_data, write_wb in S.
  unfold load_data, open_rb in *.
  destruct (dict_get fs default_filename) as [[r w c|]|] eqn:G.
  - destruct w; [|discriminate]. injection S as <-.
    rewrite dict_get_set_same. destruct r; [|discriminate].
    simpl. now rewrite LD.
  - discriminate.
  - injection S as <-. rewrite dict_get_set_same. simpl. now rewrite LD.
Qed.


(** From one session to the next: when a run ends at [close] or [exit],
    the state file it leaves loads as the book of that moment, so the next
    run of [main] starts its loop with that book. *)
Theorem main_session_is_kept (P : Pickler) (lower : str -> str)
  (inputs next_inputs : list (str * date)) (fs : filesystem)
  (book : AddressBook) :
  pickle_laws P ->
  ending (main lower inputs fs) = Return book ->
  load_data default_filename (fs_left (main lower inputs fs)) = Return book
  /\ main lower next_inputs (fs_left (main lower inputs fs))
     = after_printing welcome
         (main_loop lower next_inputs book (fs_left (main lower inputs fs))).
Proof.
  intros LW E.
  assert (L : load_data default_filename (fs_left (main lower inputs fs))
              = Return book).
  { unfold main in *.
    destruct (load_data default_filename fs) as [start|] eqn:S;
      [|discriminate].
    pose proof (main_loop_writes P lower inputs start fs) as W.
    change (ending (main_loop lower inputs start fs) = Return book) in E.
    rewrite E in W.
    change (fs_left (after_printing welcome (main_loop lower inputs start fs)))
      with (fs_left (main_loop lower inputs start fs)).
    apply (load_saved P book fs _ LW); [now exists start|exact W]. }
  split; [exact L|]. unfold main at 1. now rewrite L.
Qed.

Lemma main_session_is_kept_witness :
  let first := @main toy_pickler ascii_lower
                 [(lit "add bob 1234567890", mkdate 2023 6 1);
                  (lit "exit", mkdate 2023 6 1)] [] in
  exists book,
    ending first = Return book
    /\ find book (lit "bob") = Some (record_with_phones (lit "bob") [phone_a])
    /\ @load_data toy_pickler default_filename (fs_left first) = Return book.
Proof.
  intros first. eexists. split; [reflexivity|]. split; [reflexivity|].
  apply (main_session_is_kept toy_pickler ascii_lower
           [(lit "add bob 1234567890", mkdate 2023 6 1);
            (lit "exit", mkdate 2023 6 1)] [] [] _ toy_pickler_laws eq_refl).
Defined.

Lemma parse_input_returns (lower : str -> str) (user_input : str) :
  exists command args, parse_input lower user_input = Return (command, args).
Proof.
  unfold parse_input. destruct (strip user_input) as [|c u] eqn:S.
  - now exists [], [].
  - assert (C : char_isspace c = false).
    { pose proof (strip_idem user_input) as F. rewrite S in F.
      apply strip_fixed in F as [F _]. now apply lstrip_fixed in F. }
    simpl truthy. cbn [negb].
    destruct (str_split (c :: u)) as [|part0 args] eqn:T; [|eauto].
    exfalso. unfold str_split in T. simpl in T. rewrite C in T.
    now apply (split_from_word u [c]) in T.
Qed.

Lemma print_result_raises (today : date) (op : operation) (args : list str)
  (book : AddressBook) (fs : filesystem) (e : exn) :
  real_date today -> (year today < MAXYEAR)%Z ->
  print_result (perform today op args book) fs <> Raise e.
Proof.
  intros R Y.
  destruct (perform_answers today op args book (fun _ => conj R Y))
    as [msg A].
  destruct (perform today op args book) as [[text|e'] b]; simpl in *;
    [discriminate|discriminate].
Qed.

(** Before the last year of the calendar, a turn of the loop raises nothing
    but what saving the book raises. *)
Lemma turn_raises (P : Pickler) (lower : str -> str) (user_input : str)
  (today : date) (book : AddressBook) (fs : filesystem) (e : exn) :
  real_date today -> (year today < MAXYEAR)%Z ->
  turn lower user_input today book fs = Raise e ->
  save_data book default_filename fs = Raise e.
Proof.
  intros R Y. unfold turn.
  destruct (parse_input_returns lower user_input) as (command & args & ->).
  simpl.
  destruct (is_command command "close" || is_command command "exit").
  { destruct (save_data book default_filename fs) as [fs1|e1]; simpl;
      [discriminate|now intros [= ->]]. }
  repeat match goal with
         | |- (if ?c then _ else _) = _ -> _ => destruct c
         end; try discriminate; intros H; exfalso.
  - exact (print_result_raises today op_add args book fs e R Y H).
  - exact (print_result_raises today op_change args book fs e R Y H).
  - exact (print_result_raises today op_phone args book fs e R Y H).
  - exact (print_result_raises today op_all args book fs e R Y H).
  - exact (print_result_raises today op_add_birthday args book fs e R Y H).
  - exact (print_result_raises today op_show_birthday args book fs e R Y H).
  - exact (print_result_raises today op_birthdays args book fs e R Y H).
Qed.

(** No command ends the session with an exception: with every line handled
    at a date before the last year of the calendar, a run of [main] that
    ends with an exception ends with the one that loading the state file
    raised at the start, or with [EOFError] because the input ran out before
    [close] or [exit], or with the one that saving the book raised at
    [close] or [exit]. *)
Theorem main_ends (P : Pickler) (lower : str -> str)
  (inputs : list (str * date)) (fs : filesystem) (e : exn) :
  (forall line today, In (line, today) inputs ->
                      real_date today /\ (year today < MAXYEAR)%Z) ->
  ending (main lower inputs fs) = Raise e ->
  load_data default_filename fs = Raise e
  \/ e = EOFError
  \/ exists book, save_data book default_filename fs = Raise e.
Proof.
  intros D. unfold main.
  destruct (load_data default_filename fs) as [start|e0];
    [|intros [= <-]; now left].
  change (ending (after_printing welcome (main_loop lower inputs start fs)))
    with (ending (main_loop lower inputs start fs)).
  intros E. right. revert start E.
  induction inputs as [|[user_input today] rest IH]; intros book; simpl.
  - intros [= <-]. now left.
  - destruct (D user_input today (or_introl eq_refl)) as [R Y].
    destruct (turn lower user_input today book fs)
      as [[[[lines book'] fs'] go_on]|e1] eqn:T.
    + pose proof (turn_writes P _ _ _ _ _ _ _ _ _ T) as W.
      destruct go_on; [|discriminate]. subst fs'.
      change (ending (after_printing lines (main_loop lower rest book' fs)))
        with (ending (main_loop lower rest book' fs)).
      apply IH. intros l t I. apply (D l t). now right.
    + intros [= <-]. right. exists book.
      exact (turn_raises P _ _ _ _ _ _ R Y T).
Qed.

Lemma main_ends_witness :
  @ending (@main toy_pickler ascii_lower
             [(lit "birthdays", mkdate 2023 6 1)]
             [(default_filename,
               RegularFile true true (toy_dumps (ObjAddressBook leap_day_book)))])
  = Raise EOFError.
Proof.
  destruct (main_ends toy_pickler ascii_lower
              [(lit "birthdays", mkdate 2023 6 1)]
              [(default_filename,
                RegularFile true true
                  (toy_dumps (ObjAddressBook leap_day_book)))] EOFError)
    as [H|[H|[book H]]].
  - intros line today [[= <- <-]|[]]. split; [exact thursday_is_real|reflexivity].
  - reflexivity.
  - discriminate.
  - reflexivity.
  - reflexivity.
Defined.

Lemma after_printing_nothing (r : run) : after_printing [] r = r.
Proof. now destruct r as [[p f] e]. Qed.

(** A line of white space only is skipped: it prints nothing and changes
    nothing, so a run is the same with or without it. *)
Theorem main_loop_skips_blank (P : Pickler) (lower : str -> str)
  (user_input : str) (today : date) (rest : list (str * date))
  (book : AddressBook) (fs : filesystem) :
  blank user_input ->
  main_loop lower ((user_input, today) :: rest) book fs
  = main_loop lower rest book fs.
Proof.
  intros B. simpl. unfold turn, parse_input.
  apply strip_blank in B. rewrite B. simpl.
  apply after_printing_nothing.
Qed.

Lemma main_loop_skips_blank_witness :
  @main_loop toy_pickler ascii_lower
    [(lit "  ", mkdate 2023 6 1); (lit "exit", mkdate 2023 6 1)]
    empty_book []
  = @main_loop toy_pickler ascii_lower [(lit "exit", mkdate 2023 6 1)]
      empty_book [].
Proof.
  apply (main_loop_skips_blank toy_pickler ascii_lower (lit "  ")
           (mkdate 2023 6 1)). reflexivity.
Defined.

Lemma parse_input_arguments_witness :
  spaceless (lit "bob") /\ plain_name (lit "bob")
  /\ truthy (lit "bob") = true.
Proof.
  apply (parse_input_arguments ascii_lower (lit "  Add   bob 123 ")
           (lit "add") [lit "bob"; lit "123"] eq_refl).
  now left.
Defined.

(** ** Editing a phone and editing it back *)

Lemma edit_loop_back (pre post : list Phone) (old_phone new_phone : str) :
  (forall q, In q pre -> Phone_value q <> new_phone) ->
  phone_text old_phone ->
  edit_loop (pre ++ mkPhone new_phone :: post) new_phone old_phone
  = Return (Some (pre ++ mkPhone old_phone :: post)).
Proof.
  intros H T.
  rewrite (edit_loop_first_match pre post (mkPhone new_phone) new_phone
             old_phone H eq_refl).
  now rewrite (Phone_init_ok _ T).
Qed.

(** [edit_phone] from [old] to [new] and back from [new] to [old] gives the
    record back, when both texts are phones, the record has a phone [old]
    and had no phone [new] before (the edit goes to the first phone with the
    value, which is then the one just edited). *)
Theorem edit_phone_and_back (self : Record_) (old_phone new_phone : str) :
  phone_text old_phone -> phone_text new_phone ->
  (exists p, In p (phones self) /\ Phone_value p = old_phone) ->
  (forall p, In p (phones self) -> Phone_value p <> new_phone) ->
  exists edited,
    edit_phone self old_phone new_phone = Return (true, edited)
    /\ edit_phone edited new_phone old_phone = Return (true, self).
Proof.
  intros To Tn (p0 & I0 & V0) N.
  destruct (first_match (phones self) old_phone)
    as [A|(pre & p & post & E & H & V)].
  { now destruct (A p0 I0). }
  unfold edit_phone at 1. rewrite E.
  rewrite (edit_loop_first_match pre post p old_phone new_phone H V),
    (Phone_init_ok _ Tn). simpl. eexists. split; [reflexivity|].
  unfold edit_phone. simpl. rewrite edit_loop_back; [|
    intros q I; apply N; rewrite E; apply in_or_app; now left | exact To].
  simpl. destruct self as [n ps b]. simpl in *. subst ps.
  destruct p as [v]. simpl in V. now subst v.
Qed.

Lemma edit_phone_and_back_witness :
  let self := record_with_phones (lit "bob") [phone_a; phone_b] in
  exists edited,
    edit_phone self phone_b (lit "5555555555") = Return (true, edited)
    /\ edit_phone edited (lit "5555555555") phone_b = Return (true, self).
Proof.
  intros self.
  apply (edit_phone_and_back self phone_b (lit "5555555555")).
  - split; [reflexivity|]. intros c I.
    repeat (destruct I as [<-|I]; [reflexivity|]). destruct I.
  - split; [reflexivity|]. intros c I.
    repeat (destruct I as [<-|I]; [reflexivity|]). destruct I.
  - exists (mkPhone phone_b). split; [right; now left|reflexivity].
  - intros p [<-|[<-|[]]]; discriminate.
Defined.
